(** * better-auth-capacitor: the cookie jar and the OAuth redirect of `src/client.ts`

    The client keeps the server's cookies in the device's Preferences as one
    JSON text, the jar. This development embeds the functions of
    `src/client.ts` that write, read and classify the jar (getSetCookie,
    getCookie, hasBetterAuthCookies, hasSessionCookieChanged,
    getOAuthStateValue, getCapacitorAuthToken) and the two hooks of the
    plugin that use them, `onSuccess` and `init`, and proves what they
    compute. It also covers the functions that store and clear the token
    (setCapacitorAuthToken, clearCapacitorAuthToken), the actions of the
    plugin, and the online and focus observers `init` sets up.

    The first part holds the definitions: strings, JSON texts and values,
    dates, the fragment of ECMAScript the functions run on, the functions
    themselves, and the vocabulary of the specification. The second part
    holds the proofs.

    Conventions of the embedding.
    - A string is its sequence of bytes (UTF-8); on ASCII texts, which is
      what cookie names, values and dates are, bytes and code units agree.
    - A JSON number is kept as an exact decimal, mantissa and exponent. The
      program writes no number into the jar, and reads none from a jar that
      holds a record.
    - The clock is an argument: `Date.now()` and `new Date()` are the
      [now] of the function that calls them, read once per call.
    - A function that can throw returns a [completion]; an `async` function
      is a function of the [World] it runs in. *)

From Stdlib Require Import ZArith NArith List String Ascii Bool Lia ZifyBool.
From Stdlib Require Import Decimal DecimalFacts DecimalN Permutation.
From stdpp Require Import gmap strings.

(** * Part I: the program *)

(** * Strings *)
Module Str.
Local Open Scope char_scope.

Definition startsWith (s p : string) : bool := String.prefix p s.

Fixpoint includes (s sub : string) : bool :=
  String.prefix sub s ||
  match s with
  | EmptyString => false
  | String _ s' => includes s' sub
  end.

Definition endsWith (s p : string) : bool :=
  let n := String.length s in
  let m := String.length p in
  (m <=? n)%nat && String.eqb (String.substring (n - m) m s) p.

Fixpoint replace_char (a b : ascii) (s : string) : string :=
  match s with
  | EmptyString => EmptyString
  | String c s' => String (if Ascii.eqb c a then b else c) (replace_char a b s')
  end.

Fixpoint join (sep : string) (l : list string) : string :=
  match l with
  | [] => EmptyString
  | [x] => x
  | x :: l' => (x ++ sep ++ join sep l')%string
  end.

Definition nonempty (s : string) : bool :=
  match s with EmptyString => false | _ => true end.

(** Texts with a double quote in them are written with `'` in its place. *)
Definition q (s : string) : string := replace_char "'" "034" s.

End Str.

(** * JSON texts and values

    `JSON.parse` and `JSON.stringify` on the values JSON texts denote. An
    object is the list of its members in the order the engine enumerates
    them. *)
Module Json.
Local Open Scope char_scope.

#[local] Unset Elimination Schemes.
Inductive json : Type :=
| JNull
| JBool (b : bool)
| JNum (m e : Z)
| JStr (s : string)
| JArr (items : list json)
| JObj (props : list (string * json)).
#[local] Set Elimination Schemes.

Definition chars := list ascii.

(** ** Lexical classes *)

Definition is_ws (c : ascii) : bool :=
  match c with
  | " " | "009" | "010" | "013" => true
  | _ => false
  end.

Fixpoint skip_ws (s : chars) : chars :=
  match s with
  | c :: r => if is_ws c then skip_ws r else s
  | [] => []
  end.

Definition digit_of_char (c : ascii) : option (uint -> uint) :=
  match c with
  | "0" => Some D0 | "1" => Some D1 | "2" => Some D2 | "3" => Some D3
  | "4" => Some D4 | "5" => Some D5 | "6" => Some D6 | "7" => Some D7
  | "8" => Some D8 | "9" => Some D9
  | _ => None
  end.

Fixpoint take_digits (s : chars) : uint * chars :=
  match s with
  | c :: r =>
      match digit_of_char c with
      | Some d => let (u, r') := take_digits r in (d u, r')
      | None => (Nil, s)
      end
  | [] => (Nil, [])
  end.

Fixpoint chars_of_uint (u : uint) : chars :=
  match u with
  | Nil => []
  | D0 u => "0" :: chars_of_uint u | D1 u => "1" :: chars_of_uint u
  | D2 u => "2" :: chars_of_uint u | D3 u => "3" :: chars_of_uint u
  | D4 u => "4" :: chars_of_uint u | D5 u => "5" :: chars_of_uint u
  | D6 u => "6" :: chars_of_uint u | D7 u => "7" :: chars_of_uint u
  | D8 u => "8" :: chars_of_uint u | D9 u => "9" :: chars_of_uint u
  end.

Definition hex_val (c : ascii) : option N :=
  let n := N_of_ascii c in
  (if (48 <=? n) && (n <=? 57) then Some (n - 48)
   else if (97 <=? n) && (n <=? 102) then Some (n - 87)
   else if (65 <=? n) && (n <=? 70) then Some (n - 55)
   else None)%N.

Definition hex4 (a b c d : ascii) : option N :=
  match hex_val a, hex_val b, hex_val c, hex_val d with
  | Some x, Some y, Some z, Some w => Some (((x * 16 + y) * 16 + z) * 16 + w)%N
  | _, _, _, _ => None
  end.

Definition hex_digit (n : N) : ascii :=
  if (n <? 10)%N then ascii_of_N (48 + n) else ascii_of_N (87 + n).

(** ** Numbers *)

Definition int_part_ok (u : uint) : bool :=
  match u with
  | Nil => false
  | D0 Nil => true
  | D0 _ => false
  | _ => true
  end.

Definition nonempty (u : uint) : bool :=
  match u with Nil => false | _ => true end.

Definition read_fraction (s : chars) : option (uint * chars) :=
  match s with
  | "." :: r => let (u, r') := take_digits r in
                if nonempty u then Some (u, r') else None
  | _ => Some (Nil, s)
  end.

Definition read_sign (s : chars) : bool * chars :=
  match s with
  | "-" :: r => (true, r)
  | _ => (false, s)
  end.

Definition read_exponent_sign (s : chars) : bool * chars :=
  match s with
  | "-" :: r => (true, r)
  | "+" :: r => (false, r)
  | _ => (false, s)
  end.

Definition signed (neg : bool) (n : N) : Z :=
  if neg then (- Z.of_N n)%Z else Z.of_N n.

Definition read_exponent (s : chars) : option (Z * chars) :=
  match s with
  | "e" :: r | "E" :: r =>
      let (neg, r1) := read_exponent_sign r in
      let (u, r2) := take_digits r1 in
      if nonempty u then Some (signed neg (N.of_uint u), r2) else None
  | _ => Some (0%Z, s)
  end.

Definition read_number (s : chars) : option (json * chars) :=
  let (neg, s1) := read_sign s in
  let (ip, s2) := take_digits s1 in
  if int_part_ok ip then
    match read_fraction s2 with
    | Some (fp, s3) =>
        match read_exponent s3 with
        | Some (ex, s4) =>
            Some (JNum (signed neg (N.of_uint (Decimal.app ip fp)))
                       (ex - Z.of_nat (nb_digits fp))%Z, s4)
        | None => None
        end
    | None => None
    end
  else None.

Definition write_exponent (e : Z) : chars :=
  if (e =? 0)%Z then []
  else "e" :: (if (e <? 0)%Z then "-" else "+") :: chars_of_uint (N.to_uint (Z.abs_N e)).

Definition write_number (m e : Z) : chars :=
  (if (m <? 0)%Z then ["-"] else []) ++ chars_of_uint (N.to_uint (Z.abs_N m)) ++ write_exponent e.

(** ** Strings *)

Definition byte (n : N) : ascii := ascii_of_N n.

Definition utf8_encode (cp : N) : chars :=
  if (cp <? 128)%N then [byte cp]
  else if (cp <? 2048)%N then
    [byte (192 + cp / 64); byte (128 + cp mod 64)]
  else if (cp <? 65536)%N then
    [byte (224 + cp / 4096); byte (128 + (cp / 64) mod 64); byte (128 + cp mod 64)]
  else
    [byte (240 + cp / 262144); byte (128 + (cp / 4096) mod 64);
     byte (128 + (cp / 64) mod 64); byte (128 + cp mod 64)].

Definition is_high_surrogate (n : N) : bool := ((55296 <=? n) && (n <? 56320))%N.
Definition is_low_surrogate (n : N) : bool := ((56320 <=? n) && (n <? 57344))%N.

Fixpoint read_string (s : chars) : option (chars * chars) :=
  let emit (bs : chars) (k : option (chars * chars)) :=
    match k with Some (cs, r) => Some (bs ++ cs, r) | None => None end in
  match s with
  | [] => None
  | "034" :: r => Some ([], r)
  | "\" :: e :: r =>
      match e with
      | "034" | "\" | "/" => emit [e] (read_string r)
      | "b" => emit ["008"] (read_string r)
      | "f" => emit ["012"] (read_string r)
      | "n" => emit ["010"] (read_string r)
      | "r" => emit ["013"] (read_string r)
      | "t" => emit ["009"] (read_string r)
      | "u" =>
          match r with
          | a :: b :: c :: d :: r1 =>
              match hex4 a b c d with
              | Some n =>
                  if is_high_surrogate n then
                    match r1 with
                    | "\" :: "u" :: x1 :: x2 :: x3 :: x4 :: r2 =>
                        match hex4 x1 x2 x3 x4 with
                        | Some n2 =>
                            if is_low_surrogate n2
                            then emit (utf8_encode (65536 + (n - 55296) * 1024 + (n2 - 56320))%N)
                                      (read_string r2)
                            else emit (utf8_encode n) (read_string r1)
                        | None => emit (utf8_encode n) (read_string r1)
                        end
                    | _ => emit (utf8_encode n) (read_string r1)
                    end
                  else emit (utf8_encode n) (read_string r1)
              | None => None
              end
          | _ => None
          end
      | _ => None
      end
  | c :: r =>
      if (N_of_ascii c <? 32)%N then None
      else match read_string r with
           | Some (cs, r') => Some (c :: cs, r')
           | None => None
           end
  end.

Definition escape (c : ascii) : chars :=
  match c with
  | "034" => ["\"; "034"]
  | "\" => ["\"; "\"]
  | "008" => ["\"; "b"]
  | "012" => ["\"; "f"]
  | "010" => ["\"; "n"]
  | "013" => ["\"; "r"]
  | "009" => ["\"; "t"]
  | _ =>
      let n := N_of_ascii c in
      if (n <? 32)%N
      then ["\"; "u"; "0"; "0"; hex_digit (n / 16); hex_digit (n mod 16)]
      else [c]
  end.

Definition write_string (s : string) : chars :=
  "034" :: flat_map escape (list_ascii_of_string s) ++ ["034"].

(** ** Values *)

Fixpoint read_value (fuel : nat) (s : chars) : option (json * chars) :=
  match fuel with
  | O => None
  | S fuel =>
      match s with
      | "n" :: "u" :: "l" :: "l" :: r => Some (JNull, r)
      | "t" :: "r" :: "u" :: "e" :: r => Some (JBool true, r)
      | "f" :: "a" :: "l" :: "s" :: "e" :: r => Some (JBool false, r)
      | "034" :: r =>
          match read_string r with
          | Some (cs, r') => Some (JStr (string_of_list_ascii cs), r')
          | None => None
          end
      | "[" :: r =>
          match skip_ws r with
          | "]" :: r' => Some (JArr [], r')
          | r' => match read_items fuel r' with
                  | Some (vs, r'') => Some (JArr vs, r'')
                  | None => None
                  end
          end
      | "{" :: r =>
          match skip_ws r with
          | "}" :: r' => Some (JObj [], r')
          | r' => match read_members fuel r' with
                  | Some (ms, r'') => Some (JObj ms, r'')
                  | None => None
                  end
          end
      | _ => read_number s
      end
  end
with read_items (fuel : nat) (s : chars) : option (list json * chars) :=
  match fuel with
  | O => None
  | S fuel =>
      match read_value fuel s with
      | Some (v, r) =>
          match skip_ws r with
          | "," :: r' =>
              match read_items fuel (skip_ws r') with
              | Some (vs, r'') => Some (v :: vs, r'')
              | None => None
              end
          | "]" :: r' => Some ([v], r')
          | _ => None
          end
      | None => None
      end
  end
with read_members (fuel : nat) (s : chars) : option (list (string * json) * chars) :=
  match fuel with
  | O => None
  | S fuel =>
      match s with
      | "034" :: r =>
          match read_string r with
          | Some (k, r1) =>
              match skip_ws r1 with
              | ":" :: r2 =>
                  match read_value fuel (skip_ws r2) with
                  | Some (v, r3) =>
                      match skip_ws r3 with
                      | "," :: r4 =>
                          match read_members fuel (skip_ws r4) with
                          | Some (ms, r5) => Some ((string_of_list_ascii k, v) :: ms, r5)
                          | None => None
                          end
                      | "}" :: r4 => Some ([(string_of_list_ascii k, v)], r4)
                      | _ => None
                      end
                  | None => None
                  end
              | _ => None
              end
          | None => None
          end
      | _ => None
      end
  end.

(** The text of a value, as `JSON.stringify` lays it out: no white space. *)
Fixpoint write_value (v : json) : chars :=
  match v with
  | JNull => ["n"; "u"; "l"; "l"]
  | JBool true => ["t"; "r"; "u"; "e"]
  | JBool false => ["f"; "a"; "l"; "s"; "e"]
  | JNum m e => write_number m e
  | JStr s => write_string s
  | JArr vs =>
      "[" :: (fix items (l : list json) : chars :=
                match l with
                | [] => []
                | [v] => write_value v
                | v :: l' => write_value v ++ "," :: items l'
                end) vs ++ ["]"]
  | JObj ms =>
      "{" :: (fix members (l : list (string * json)) : chars :=
                match l with
                | [] => []
                | [(k, v)] => write_string k ++ ":" :: write_value v
                | (k, v) :: l' => write_string k ++ ":" :: write_value v ++ "," :: members l'
                end) ms ++ ["}"]
  end.

Definition write_items : list json -> chars :=
  fix items (l : list json) : chars :=
    match l with
    | [] => []
    | [v] => write_value v
    | v :: l' => write_value v ++ "," :: items l'
    end.

Definition write_members : list (string * json) -> chars :=
  fix members (l : list (string * json)) : chars :=
    match l with
    | [] => []
    | [(k, v)] => write_string k ++ ":" :: write_value v
    | (k, v) :: l' => write_string k ++ ":" :: write_value v ++ "," :: members l'
    end.

(** Fuel that is enough to read back the text of a value. *)
Fixpoint need (v : json) : nat :=
  match v with
  | JArr vs =>
      S ((fix items (l : list json) : nat :=
            match l with [] => 0 | v :: l' => S (need v + items l') end) vs)
  | JObj ms =>
      S ((fix members (l : list (string * json)) : nat :=
            match l with [] => 0 | (_, v) :: l' => S (need v + members l') end) ms)
  | _ => 1
  end.

Definition need_items : list json -> nat :=
  fix items (l : list json) : nat :=
    match l with [] => 0 | v :: l' => S (need v + items l') end.

Definition need_members : list (string * json) -> nat :=
  fix members (l : list (string * json)) : nat :=
    match l with [] => 0 | (_, v) :: l' => S (need v + members l') end.

Definition read_text (s : chars) : option json :=
  match read_value (S (length s)) (skip_ws s) with
  | Some (v, r) => match skip_ws r with [] => Some v | _ => None end
  | None => None
  end.

(** ** What the text of a value starts with, and what may follow it *)

Definition digit_free_head (s : chars) : Prop :=
  match s with c :: _ => digit_of_char c = None | [] => True end.

Definition closes (s : chars) : Prop :=
  match s with
  | [] => True
  | c :: _ => c = "," \/ c = "]" \/ c = "}"
  end.

Definition starts_value (s : chars) : Prop :=
  match s with
  | c :: _ => is_ws c = false /\ c <> "]" /\ c <> "}"
  | [] => False
  end.

Definition starts_number (s : chars) : Prop :=
  match s with
  | c :: _ => c = "-" \/ digit_of_char c <> None
  | [] => False
  end.

Definition reads_back (v : json) : Prop :=
  forall f rest, need v <= f -> closes rest ->
    read_value f (write_value v ++ rest) = Some (v, rest).

(** ** Objects

    The own properties of an ordinary object, in the order `Object.keys`,
    `Object.entries`, spread and `JSON.stringify` visit them: array-index
    keys first, by ascending index, then the other keys in the order they
    were created. *)

Definition array_index (k : string) : option N :=
  let (u, r) := take_digits (list_ascii_of_string k) in
  match r with
  | [] => if int_part_ok u && (N.of_uint u <? 4294967295)%N
          then Some (N.of_uint u) else None
  | _ => None
  end.

Section Props.
Context {A : Type}.

Fixpoint get (k : string) (o : list (string * A)) : option A :=
  match o with
  | [] => None
  | (k', v) :: o' => if String.eqb k k' then Some v else get k o'
  end.

Fixpoint replace (k : string) (v : A) (o : list (string * A)) : list (string * A) :=
  match o with
  | [] => []
  | (k', v') :: o' =>
      if String.eqb k k' then (k', v) :: o' else (k', v') :: replace k v o'
  end.

Fixpoint insert_index (i : N) (k : string) (v : A) (o : list (string * A))
  : list (string * A) :=
  match o with
  | [] => [(k, v)]
  | (k', v') :: o' =>
      match array_index k' with
      | Some j => if (j <? i)%N then (k', v') :: insert_index i k v o' else (k, v) :: o
      | None => (k, v) :: o
      end
  end.

(** CreateDataProperty on an ordinary object: an existing key keeps its
    place and takes the new value, a new key is placed by the order above. *)
Definition define (k : string) (v : A) (o : list (string * A)) : list (string * A) :=
  match get k o with
  | Some _ => replace k v o
  | None =>
      match array_index k with
      | Some i => insert_index i k v o
      | None => o ++ [(k, v)]
      end
  end.

Definition define_all (l : list (string * A)) (o : list (string * A)) : list (string * A) :=
  fold_left (fun acc kv => define (fst kv) (snd kv) acc) l o.

End Props.

(** What `JSON.parse` builds from the members of an object text, read left
    to right (a repeated key keeps its first place and its last value). *)
Fixpoint canon (v : json) : json :=
  match v with
  | JArr vs => JArr (map canon vs)
  | JObj ms => JObj (define_all (map (fun kv => (fst kv, canon (snd kv))) ms) [])
  | _ => v
  end.

Definition before (k1 k2 : string) : Prop :=
  k1 <> k2 /\
  match array_index k1, array_index k2 with
  | Some i, Some j => (i < j)%N
  | None, Some _ => False
  | _, _ => True
  end.

Fixpoint sorted (ks : list string) : Prop :=
  match ks with
  | [] => True
  | k :: ks' => Forall (before k) ks' /\ sorted ks'
  end.

Definition canonical {A : Type} (o : list (string * A)) : Prop := sorted (map fst o).

(** Values as `JSON.parse` returns them. *)
#[local] Unset Elimination Schemes.
Inductive wf : json -> Prop :=
| wf_null : wf JNull
| wf_bool b : wf (JBool b)
| wf_num m e : wf (JNum m e)
| wf_str s : wf (JStr s)
| wf_arr vs : Forall wf vs -> wf (JArr vs)
| wf_obj ms : canonical ms -> Forall (fun kv => wf (snd kv)) ms -> wf (JObj ms).
#[local] Set Elimination Schemes.

Definition JSON_parse (s : string) : option json :=
  option_map canon (read_text (list_ascii_of_string s)).

Definition JSON_stringify (v : json) : string :=
  string_of_list_ascii (write_value v).

End Json.

(** * Time values and the Date Time String Format *)
Module JsDate.
Local Open Scope char_scope.
Local Open Scope Z_scope.

(** A time value is a count of milliseconds since 1970-01-01T00:00:00Z; a
    `Date` holds a time value in range, or none (Invalid Date). *)
Definition max_time : Z := 8640000000000000.
Definition ms_per_day : Z := 86400000.

Definition TimeClip (t : Z) : option Z :=
  if Z.abs t <=? max_time then Some t else None.

(** The proleptic Gregorian calendar, by days since 0000-03-01: 400 years
    are 146097 days, a century 36524, four years 1461, a year 365. *)
Definition civil_from_days (z : Z) : Z * Z * Z :=
  let z := z + 719468 in
  let era := z / 146097 in
  let doe := z mod 146097 in
  let c := Z.min (doe / 36524) 3 in
  let doc := doe - c * 36524 in
  let q := doc / 1461 in
  let doq := doc mod 1461 in
  let a := Z.min (doq / 365) 3 in
  let doy := doq - a * 365 in
  let mp := (5 * doy + 2) / 153 in
  let d := doy - (153 * mp + 2) / 5 + 1 in
  let m := if mp <? 10 then mp + 3 else mp - 9 in
  let y := era * 400 + c * 100 + q * 4 + a in
  (if m <=? 2 then y + 1 else y, m, d).

Definition days_from_civil (y m d : Z) : Z :=
  let y := if m <=? 2 then y - 1 else y in
  let era := y / 400 in
  let yoe := y mod 400 in
  let mp := if 2 <? m then m - 3 else m + 9 in
  let doy := (153 * mp + 2) / 5 + d - 1 in
  let doe := yoe * 365 + yoe / 4 - yoe / 100 + doy in
  era * 146097 + doe - 719468.

Definition is_leap (y : Z) : bool :=
  (y mod 4 =? 0) && (negb (y mod 100 =? 0) || (y mod 400 =? 0)).

Definition days_in_month (y m : Z) : Z :=
  if m =? 2 then (if is_leap y then 29 else 28)
  else if (m =? 4) || (m =? 6) || (m =? 9) || (m =? 11) then 30
  else 31.

(** ** Fixed-width decimal fields *)

Definition digit_char (d : Z) : ascii := ascii_of_N (Z.to_N (48 + d)).

Definition digit_value (c : ascii) : option Z :=
  let n := Z.of_N (N_of_ascii c) in
  if (48 <=? n) && (n <=? 57) then Some (n - 48) else None.

Fixpoint pad (n : nat) (x : Z) : list ascii :=
  match n with
  | O => []
  | S n' => digit_char (x / 10 ^ Z.of_nat n') :: pad n' (x mod 10 ^ Z.of_nat n')
  end.

Fixpoint read_fixed (n : nat) (acc : Z) (s : list ascii) : option (Z * list ascii) :=
  match n with
  | O => Some (acc, s)
  | S n' =>
      match s with
      | c :: r =>
          match digit_value c with
          | Some d => read_fixed n' (10 * acc + d) r
          | None => None
          end
      | [] => None
      end
  end.

(** ** `Date.prototype.toISOString` *)

Definition write_year (y : Z) : list ascii :=
  if (0 <=? y) && (y <=? 9999) then pad 4 y
  else (if y <? 0 then "-" else "+") :: pad 6 (Z.abs y).

Record fields := { f_year : Z; f_month : Z; f_day : Z;
                   f_hour : Z; f_minute : Z; f_second : Z; f_ms : Z }.

Definition fields_of_time (t : Z) : fields :=
  let '(y, m, d) := civil_from_days (t / ms_per_day) in
  let r := t mod ms_per_day in
  {| f_year := y; f_month := m; f_day := d; f_hour := r / 3600000;
     f_minute := (r / 60000) mod 60; f_second := (r / 1000) mod 60;
     f_ms := r mod 1000 |}.

Definition write_fields (f : fields) : list ascii :=
  write_year (f_year f) ++ "-" :: pad 2 (f_month f) ++ "-" :: pad 2 (f_day f) ++
  "T" :: pad 2 (f_hour f) ++ ":" :: pad 2 (f_minute f) ++
  ":" :: pad 2 (f_second f) ++ "." :: pad 3 (f_ms f) ++ ["Z"].

Definition toISOString (t : Z) : string :=
  string_of_list_ascii (write_fields (fields_of_time t)).

(** ** `Date.parse` on the Date Time String Format

    The one layout read here is the full one `toISOString` writes:
    `YYYY-MM-DDTHH:mm:ss.sssZ`, the year also as `+YYYYYY` or `-YYYYYY`. *)

Definition read_year (s : list ascii) : option (Z * list ascii) :=
  match s with
  | "+" :: r => read_fixed 6 0 r
  | "-" :: r =>
      match read_fixed 6 0 r with
      | Some (y, r') => if y =? 0 then None else Some (- y, r')
      | None => None
      end
  | _ => read_fixed 4 0 s
  end.

Definition read_sep (c : ascii) (s : list ascii) : option (list ascii) :=
  match s with
  | c' :: r => if Ascii.eqb c c' then Some r else None
  | [] => None
  end.

Definition read_fields (s : list ascii) : option fields :=
  match read_year s with
  | Some (y, s) =>
  match read_sep "-" s with Some s =>
  match read_fixed 2 0 s with Some (mo, s) =>
  match read_sep "-" s with Some s =>
  match read_fixed 2 0 s with Some (d, s) =>
  match read_sep "T" s with Some s =>
  match read_fixed 2 0 s with Some (h, s) =>
  match read_sep ":" s with Some s =>
  match read_fixed 2 0 s with Some (mi, s) =>
  match read_sep ":" s with Some s =>
  match read_fixed 2 0 s with Some (sec, s) =>
  match read_sep "." s with Some s =>
  match read_fixed 3 0 s with Some (ms, s) =>
  match s with
  | ["Z"] => Some {| f_year := y; f_month := mo; f_day := d; f_hour := h;
                     f_minute := mi; f_second := sec; f_ms := ms |}
  | _ => None
  end
  | None => None end | None => None end | None => None end | None => None end
  | None => None end | None => None end | None => None end | None => None end
  | None => None end | None => None end | None => None end | None => None end
  | None => None
  end.

Definition legal (f : fields) : bool :=
  (1 <=? f_month f) && (f_month f <=? 12) &&
  (1 <=? f_day f) && (f_day f <=? days_in_month (f_year f) (f_month f)) &&
  (f_minute f <=? 59) && (f_second f <=? 59) &&
  ((f_hour f <=? 23) ||
   ((f_hour f =? 24) && (f_minute f =? 0) && (f_second f =? 0) && (f_ms f =? 0))).

Definition time_of_fields (f : fields) : Z :=
  days_from_civil (f_year f) (f_month f) (f_day f) * ms_per_day
  + f_hour f * 3600000 + f_minute f * 60000 + f_second f * 1000 + f_ms f.

(** [None]: the string is not in the layout; [Some None]: it is, with an
    illegal field or a time out of range (NaN); [Some (Some t)]: the time. *)
Definition parse_iso (s : string) : option (option Z) :=
  match read_fields (list_ascii_of_string s) with
  | Some f => Some (if legal f then TimeClip (time_of_fields f) else None)
  | None => None
  end.

(** The fields fit the widths of the layout. *)
Record in_range (f : fields) : Prop := {
  r_year : -999999 <= f_year f <= 999999;
  r_month : 0 <= f_month f < 100;
  r_day : 0 <= f_day f < 100;
  r_hour : 0 <= f_hour f < 100;
  r_minute : 0 <= f_minute f < 100;
  r_second : 0 <= f_second f < 100;
  r_ms : 0 <= f_ms f < 1000 }.

End JsDate.

(** * The fragment of ECMAScript the program runs on *)
Module Js.
Local Open Scope char_scope.
Import Json.

Inductive error : Type := SyntaxError | TypeError | RangeError | Rejected.

Inductive completion (A : Type) : Type :=
| Normal (a : A)
| Throw (e : error).
Arguments Normal {A} a.
Arguments Throw {A} e.

Definition bind {A B : Type} (c : completion A) (k : A -> completion B) : completion B :=
  match c with
  | Normal a => k a
  | Throw e => Throw e
  end.

(** A value read from parsed JSON: [None] is `undefined`. *)
Definition jsval : Type := option json.

Definition truthy (v : jsval) : bool :=
  match v with
  | None | Some JNull => false
  | Some (JBool b) => b
  | Some (JNum m _) => negb (m =? 0)%Z
  | Some (JStr s) => Str.nonempty s
  | Some (JArr _) | Some (JObj _) => true
  end.

(** `v[k]` on a value that is neither `null` nor `undefined`. Only objects
    have the properties this program reads: it reads `value`, `expires` and
    keys that contain `session_token` or `session_data` or end in
    `.oauth_state`, never an array index, `length` or a name found on a
    built-in prototype. *)
Definition own (v : json) (k : string) : jsval :=
  match v with
  | JObj o => get k o
  | _ => None
  end.

(** `v[k]`: a TypeError on `null`. *)
Definition get_prop (v : json) (k : string) : completion jsval :=
  match v with
  | JNull => Throw TypeError
  | _ => Normal (own v k)
  end.

(** `v?.[k]` *)
Definition opt_prop (v : jsval) (k : string) : jsval :=
  match v with
  | None | Some JNull => None
  | Some v => own v k
  end.

Fixpoint indexed {A : Type} (i : nat) (l : list A) : list (string * A) :=
  match l with
  | [] => []
  | x :: l' => (string_of_list_ascii (chars_of_uint (Nat.to_uint i)), x) :: indexed (S i) l'
  end.

(** The own enumerable string-keyed properties, in order: what spread
    copies and `Object.entries` lists (a string spreads into its
    characters, exact for ASCII text). *)
Definition own_entries (v : json) : list (string * json) :=
  match v with
  | JObj o => o
  | JArr vs => indexed 0 vs
  | JStr s => indexed 0 (map (fun c => JStr (String c EmptyString)) (list_ascii_of_string s))
  | _ => []
  end.

Definition Object_entries (v : json) : completion (list (string * json)) :=
  match v with
  | JNull => Throw TypeError
  | _ => Normal (own_entries v)
  end.

Definition Object_keys (v : json) : completion (list string) :=
  match v with
  | JNull => Throw TypeError
  | _ => Normal (map fst (own_entries v))
  end.

(** `{ ...v }` laid over the properties [o]. *)
Definition spread (v : json) (o : list (string * json)) : list (string * json) :=
  define_all (own_entries v) o.

(** `o[k] = v` on an ordinary object whose prototype chain ends in
    `Object.prototype`, for an object [v]: the key `__proto__` reaches the
    inherited setter, which replaces the prototype and creates no own
    property. *)
Definition assign (k : string) (v : json) (o : list (string * json)) : list (string * json) :=
  if String.eqb k "__proto__" then o else define k v o.

(** ToString. A number is spelled as [write_number] spells it, which is
    `Number::toString` for the integers and an approximation otherwise. *)
Fixpoint to_string_json (v : json) : string :=
  match v with
  | JNull => "null"
  | JBool true => "true"
  | JBool false => "false"
  | JNum m e => string_of_list_ascii (write_number m e)
  | JStr s => s
  | JArr vs =>
      Str.join ","
        (map (fun v => match v with JNull => EmptyString | _ => to_string_json v end) vs)
  | JObj _ => "[object Object]"
  end.

Definition to_string (v : jsval) : string :=
  match v with
  | None => "undefined"
  | Some v => to_string_json v
  end.

Definition num_eqb (m1 e1 m2 e2 : Z) : bool :=
  let e := Z.min e1 e2 in
  (m1 * 10 ^ (e1 - e) =? m2 * 10 ^ (e2 - e))%Z.

(** `a === b` for two values read from two different parse results: two
    objects, or two arrays, are never the same object. *)
Definition strict_equal (a b : jsval) : bool :=
  match a, b with
  | None, None => true
  | Some JNull, Some JNull => true
  | Some (JBool x), Some (JBool y) => Bool.eqb x y
  | Some (JNum m1 e1), Some (JNum m2 e2) => num_eqb m1 e1 m2 e2
  | Some (JStr x), Some (JStr y) => String.eqb x y
  | _, _ => false
  end.

(** The integer part of m * 10^e, as ToIntegerOrInfinity takes it. *)
Definition num_trunc (m e : Z) : Z :=
  if (0 <=? e)%Z then (m * 10 ^ e)%Z else Z.quot m (10 ^ (- e)).

(** What an engine is free to choose: the text of a date, and what
    `Date.parse` makes of a string outside the Date Time String Format. *)
Class Engine : Type := {
  Date_toString : Z -> string;
  Date_parse_other : string -> option Z
}.

Section Dates.
Context `{Engine}.

(** A `Date` object: its time value, [None] when it is an Invalid Date. *)
Definition Date : Type := option Z.

Definition Date_parse (s : string) : Date :=
  match JsDate.parse_iso s with
  | Some r => r
  | None =>
      match Date_parse_other s with
      | Some t => JsDate.TimeClip t
      | None => None
      end
  end.

(** `String(d)` *)
Definition String_of_Date (d : Date) : string :=
  match d with
  | Some t => Date_toString t
  | None => "Invalid Date"
  end.

(** `new Date(v)` *)
Definition new_Date (v : jsval) : Date :=
  match v with
  | None => None
  | Some JNull | Some (JBool false) => Some 0%Z
  | Some (JBool true) => Some 1%Z
  | Some (JNum m e) => JsDate.TimeClip (num_trunc m e)
  | Some (JStr s) => Date_parse s
  | Some v => Date_parse (to_string_json v)
  end.

(** `d.toISOString()` *)
Definition Date_toISOString (d : Date) : completion string :=
  match d with
  | Some t => Normal (JsDate.toISOString t)
  | None => Throw RangeError
  end.

End Dates.

(** A `Map` with string keys, as the list of its entries in insertion
    order; [Map_set] is `m.set(k, v)`. *)
Definition Map_set {A : Type} (k : string) (v : A) (m : list (string * A)) : list (string * A) :=
  match get k m with
  | Some _ => replace k v m
  | None => m ++ [(k, v)]
  end.

Definition Map_of {A : Type} (sets : list (string * A)) : list (string * A) :=
  fold_left (fun m kv => Map_set (fst kv) (snd kv) m) sets [].

(** `new URLSearchParams(...).toString()`: application/x-www-form-urlencoded
    over the UTF-8 bytes. *)
Definition form_safe (c : ascii) : bool :=
  let n := N_of_ascii c in
  ((48 <=? n) && (n <=? 57) || (65 <=? n) && (n <=? 90) || (97 <=? n) && (n <=? 122)
   || (n =? 42) || (n =? 45) || (n =? 46) || (n =? 95))%N.

Definition upper_hex (n : N) : ascii :=
  if (n <? 10)%N then ascii_of_N (48 + n) else ascii_of_N (55 + n).

Fixpoint form_encode (s : string) : string :=
  match s with
  | EmptyString => EmptyString
  | String c s' =>
      if form_safe c then String c (form_encode s')
      else if Ascii.eqb c " " then String "+" (form_encode s')
      else String "%" (String (upper_hex (N_of_ascii c / 16))
                         (String (upper_hex (N_of_ascii c mod 16)) (form_encode s')))
  end.

Definition URLSearchParams_toString (params : list (string * string)) : string :=
  Str.join "&" (map (fun kv => (form_encode (fst kv) ++ "=" ++ form_encode (snd kv))%string) params).

End Js.

(** * `src/client.ts` *)
Module Client.
Local Open Scope string_scope.
Import Json Js.

Notation "x <- c ;; k" := (bind c (fun x => k))
  (at level 100, c at next level, right associativity).

(** * What the program imports from `better-auth/cookies` *)

(** A number as `parseInt` returns it. *)
Inductive number : Type := NaN | Num (z : Z).

(** The attributes of one response cookie that the program reads. *)
Record CookieAttributes : Type := {
  attr_value : string;
  attr_max_age : option number;
  attr_expires : option Date
}.

(** The three imports, parameters of everything below. *)
Class Cookies : Type := {
  (** the `Map` of the header's cookies, as the list of its `set` calls *)
  parseSetCookieHeader : string -> list (string * CookieAttributes);
  SECURE_COOKIE_PREFIX : string;
  stripSecureCookiePrefix : string -> string
}.

(** * The jar *)

Record StoredCookie : Type := { value : string; expires : option string }.

(** `string | string[]` *)
Inductive prefixes : Type := One (p : string) | Many (ps : list string).

(** `Array.isArray(cookiePrefix) ? cookiePrefix : [cookiePrefix]` *)
Definition prefix_list (cookiePrefix : prefixes) : list string :=
  match cookiePrefix with
  | One p => [p]
  | Many ps => ps
  end.

(** `Array.isArray(cookiePrefix) ? cookiePrefix[0] : cookiePrefix`, inside a
    template literal. *)
Definition first_prefix (cookiePrefix : prefixes) : string :=
  match cookiePrefix with
  | One p => p
  | Many (p :: _) => p
  | Many [] => "undefined"
  end.

Definition safeJSONParse (str : string) : option json := JSON_parse str.

Definition normalizeCookieName (name : string) : string := Str.replace_char ":" "_" name.

Definition getOrigin (scheme : string) : string := scheme ++ "://".

Definition entry_json (v : string) (e : json) : json :=
  JObj [("value", JStr v); ("expires", e)].

Section Jar.
Context `{Engine} `{Cookies}.

(** The test of `maxAge ? ... : ...` on `cookie['max-age']`, a number or
    `undefined`: 0 and NaN are falsy. *)
Definition number_truthy (n : option number) : bool :=
  match n with
  | Some (Num z) => negb (z =? 0)%Z
  | _ => false
  end.

(** `Number(maxAge)` for a `maxAge` that passed the test above. *)
Definition Number_of (n : option number) : Z :=
  match n with
  | Some (Num z) => z
  | _ => 0%Z
  end.

(** The `expires` of getSetCookie's loop body: [None] is `null`. *)
Definition cookie_expires (now : Z) (cookie : CookieAttributes) : option Date :=
  let expiresAt := attr_expires cookie in
  let maxAge := attr_max_age cookie in
  if number_truthy maxAge
  then Some (JsDate.TimeClip (now + Number_of maxAge * 1000))
  else match expiresAt with
       | Some d => Some (Date_parse (String_of_Date d))
       | None => None
       end.

Definition stored_entry (now : Z) (cookie : CookieAttributes) : completion json :=
  match cookie_expires now cookie with
  | Some d => iso <- Date_toISOString d ;; Normal (entry_json (attr_value cookie) (JStr iso))
  | None => Normal (entry_json (attr_value cookie) JNull)
  end.

(** The body of `parsed.forEach((cookie, key) => { ...; toSetCookie[key] =
    {...} })`, a throw ending the loop. *)
Definition step (now : Z) (acc : completion (list (string * json)))
  (kc : string * CookieAttributes) : completion (list (string * json)) :=
  o <- acc ;; e <- stored_entry now (snd kc) ;; Normal (assign (fst kc) e o).

Definition collect (now : Z) (parsed : list (string * CookieAttributes))
  : completion (list (string * json)) :=
  fold_left (step now) (Map_of parsed) (Normal []).

(** `if (prevCookie) { try { toSetCookie = { ...JSON.parse(prevCookie),
    ...toSetCookie } } catch {} }` *)
Definition merge (toSetCookie : list (string * json)) (prevCookie : option string)
  : list (string * json) :=
  match prevCookie with
  | Some prev =>
      if Str.nonempty prev then
        match JSON_parse prev with
        | Some prevCookieParsed => define_all toSetCookie (spread prevCookieParsed [])
        | None => toSetCookie
        end
      else toSetCookie
  | None => toSetCookie
  end.

Definition getSetCookie (now : Z) (header : string) (prevCookie : option string)
  : completion string :=
  toSetCookie <- collect now (parseSetCookieHeader header) ;;
  Normal (JSON_stringify (JObj (merge toSetCookie prevCookie))).

(** The filter of getCookie on one entry. *)
Definition unexpired (now : Z) (v : json) : completion bool :=
  e <- get_prop v "expires" ;;
  Normal (negb (truthy e) ||
          match new_Date e with
          | Some t => (now <=? t)%Z
          | None => false
          end).

Fixpoint filter_entries (now : Z) (l : list (string * json))
  : completion (list (string * json)) :=
  match l with
  | [] => Normal []
  | (k, v) :: l' =>
      keep <- unexpired now v ;;
      rest <- filter_entries now l' ;;
      Normal (if keep then (k, v) :: rest else rest)
  end.

Definition pair_text (kv : string * json) : string :=
  fst kv ++ "=" ++ to_string (own (snd kv) "value").

Definition getCookie (now : Z) (cookie : string) : completion string :=
  match JSON_parse cookie with
  | None => Normal ""
  | Some parsed =>
      entries <- Object_entries parsed ;;
      validCookies <- filter_entries now entries ;;
      Normal (Str.join "; " (map pair_text validCookies))
  end.

Definition cookieSuffixes : list string := ["session_token"; "session_data"].

Definition hasBetterAuthCookies (setCookieHeader : string) (cookiePrefix : prefixes) : bool :=
  let cookies := Map_of (parseSetCookieHeader setCookieHeader) in
  existsb
    (fun name =>
       let nameWithoutSecure := stripSecureCookiePrefix name in
       existsb
         (fun prefix =>
            if Str.nonempty prefix
            then Str.startsWith nameWithoutSecure prefix
            else existsb (Str.endsWith nameWithoutSecure) cookieSuffixes)
         (prefix_list cookiePrefix))
    (map fst cookies).

Definition is_session_key (key : string) : bool :=
  Str.includes key "session_token" || Str.includes key "session_data".

(** `sessionKeys.add(key)` on a `Set` *)
Definition Set_add (key : string) (keys : list string) : list string :=
  if existsb (String.eqb key) keys then keys else keys ++ [key].

Definition add_session_keys (keys : list string) (sessionKeys : list string) : list string :=
  fold_left (fun acc key => if is_session_key key then Set_add key acc else acc)
            keys sessionKeys.

Definition hasSessionCookieChanged (prevCookie : option string) (newCookie : string) : bool :=
  match prevCookie with
  | None => true
  | Some prevCookie =>
      if negb (Str.nonempty prevCookie) then true
      else
        match JSON_parse prevCookie, JSON_parse newCookie with
        | Some prev, Some next =>
            match Object_keys prev, Object_keys next with
            | Normal prevKeys, Normal nextKeys =>
                let sessionKeys := add_session_keys nextKeys (add_session_keys prevKeys []) in
                existsb
                  (fun key =>
                     negb (strict_equal (opt_prop (own prev key) "value")
                                        (opt_prop (own next key) "value")))
                  sessionKeys
            | _, _ => true
            end
        | _, _ => true
        end
  end.

(** The two candidate names of one prefix, tried in order. *)
Definition oauth_candidates (prefix : string) : list string :=
  [SECURE_COOKIE_PREFIX ++ prefix ++ ".oauth_state"; prefix ++ ".oauth_state"].

Fixpoint first_truthy (parsed : json) (names : list string) : option json :=
  match names with
  | [] => None
  | name :: names' =>
      let value := opt_prop (own parsed name) "value" in
      if truthy value then value else first_truthy parsed names'
  end.

(** [None] is `null`. *)
Definition getOAuthStateValue (cookieJson : option string) (cookiePrefix : prefixes)
  : option json :=
  match cookieJson with
  | None => None
  | Some cookieJson =>
      if negb (Str.nonempty cookieJson) then None
      else
        match safeJSONParse cookieJson with
        | None => None
        | Some parsed =>
            if negb (truthy (Some parsed)) then None
            else first_truthy parsed (flat_map oauth_candidates (prefix_list cookiePrefix))
        end
  end.

(** The token lookup shared by getCapacitorAuthToken and init: [JNull] is
    `null`. *)
Definition session_token (cookieData : json) (cookiePrefix : string) : completion json :=
  secure <- get_prop cookieData (SECURE_COOKIE_PREFIX ++ cookiePrefix ++ ".session_token") ;;
  let tokenKey :=
    if truthy secure
    then SECURE_COOKIE_PREFIX ++ cookiePrefix ++ ".session_token"
    else cookiePrefix ++ ".session_token" in
  let token := opt_prop (own cookieData tokenKey) "value" in
  Normal (if truthy token then match token with Some t => t | None => JNull end else JNull).

End Jar.

(** * The plugin and its surroundings *)

(** `store.atoms.session`'s value, without `refetch`, a function the
    program carries over untouched. *)
Record SessionState : Type := {
  s_data : json;
  s_error : json;
  s_isPending : bool;
  s_isRefetching : bool
}.

Record World : Type := {
  clock : Z;                               (* Date.now() *)
  native : bool;                           (* window.Capacitor.isNativePlatform() *)
  has_preferences : bool;                  (* @capacitor/preferences loads *)
  has_browser : bool;                      (* @capacitor/browser loads *)
  has_app : bool;                          (* @capacitor/app loads *)
  preferences : gmap string string;        (* the Preferences store *)
  session : option SessionState;           (* None: no store, or no session atom *)
  notified : list string;                  (* store.notify calls, latest first *)
  opened : list string;                    (* Browser.open calls, latest first *)
  listening : list jsval                   (* appUrlOpen listeners: their callbackURL *)
}.

Definition with_preferences (p : gmap string string) (w : World) : World :=
  {| clock := clock w; native := native w; has_preferences := has_preferences w;
     has_browser := has_browser w; has_app := has_app w; preferences := p;
     session := session w; notified := notified w; opened := opened w;
     listening := listening w |}.

Definition with_session (s : option SessionState) (w : World) : World :=
  {| clock := clock w; native := native w; has_preferences := has_preferences w;
     has_browser := has_browser w; has_app := has_app w; preferences := preferences w;
     session := s; notified := notified w; opened := opened w;
     listening := listening w |}.

Definition with_notified (n : list string) (w : World) : World :=
  {| clock := clock w; native := native w; has_preferences := has_preferences w;
     has_browser := has_browser w; has_app := has_app w; preferences := preferences w;
     session := session w; notified := n; opened := opened w;
     listening := listening w |}.

Definition with_opened (o : list string) (w : World) : World :=
  {| clock := clock w; native := native w; has_preferences := has_preferences w;
     has_browser := has_browser w; has_app := has_app w; preferences := preferences w;
     session := session w; notified := notified w; opened := o;
     listening := listening w |}.

Definition with_listening (l : list jsval) (w : World) : World :=
  {| clock := clock w; native := native w; has_preferences := has_preferences w;
     has_browser := has_browser w; has_app := has_app w; preferences := preferences w;
     session := session w; notified := notified w; opened := opened w;
     listening := l |}.

(** An `async` function: it runs on a world and leaves a world, also when
    it throws. *)
Definition Async (A : Type) : Type := World -> completion A * World.

Definition ret {A : Type} (a : A) : Async A := fun w => (Normal a, w).
Definition throw {A : Type} (e : error) : Async A := fun w => (Throw e, w).
Definition lift {A : Type} (c : completion A) : Async A := fun w => (c, w).

Definition and_then {A B : Type} (m : Async A) (k : A -> Async B) : Async B :=
  fun w =>
    match m w with
    | (Normal a, w') => k a w'
    | (Throw e, w') => (Throw e, w')
    end.

(** `try { m } catch { return a }` *)
Definition catch {A : Type} (m : Async A) (a : A) : Async A :=
  fun w =>
    match m w with
    | (Normal x, w') => (Normal x, w')
    | (Throw _, w') => (Normal a, w')
    end.

Notation "x <~ m ;; k" := (and_then m (fun x => k))
  (at level 100, m at next level, right associativity).
Notation "m ;;; k" := (and_then m (fun _ => k))
  (at level 100, right associativity).

Definition isNativePlatform : Async bool := fun w => (Normal (native w), w).
Definition now : Async Z := fun w => (Normal (clock w), w).

(** `await getPreferencesMod()` *)
Definition getPreferencesMod : Async unit :=
  fun w => if has_preferences w then (Normal tt, w) else (Throw Rejected, w).

(** `await Promise.all([getBrowserMod(), getAppMod()])` *)
Definition getBrowserAndAppMod : Async unit :=
  fun w => if has_browser w && has_app w then (Normal tt, w) else (Throw Rejected, w).

(** `(await Preferences.get({ key }))?.value` *)
Definition Preferences_get (key : string) : Async (option string) :=
  fun w => (Normal (preferences w !! key), w).

Definition Preferences_set (key val : string) : Async unit :=
  fun w => (Normal tt, with_preferences (<[key := val]> (preferences w)) w).

Definition Preferences_remove (key : string) : Async unit :=
  fun w => (Normal tt, with_preferences (delete key (preferences w)) w).

(** `store?.notify(signal)`, recorded whether or not a store listens. *)
Definition notify (signal : string) : Async unit :=
  fun w => (Normal tt, with_notified (signal :: notified w) w).

(** `await Browser.open({ url })` *)
Definition Browser_open (url : string) : Async unit :=
  fun w => (Normal tt, with_opened (url :: opened w) w).

(** `await App.addListener('appUrlOpen', ...)`, the handler known by the
    callbackURL it closes the browser on. *)
Definition App_addListener (callbackURL : jsval) : Async unit :=
  fun w => (Normal tt, with_listening (callbackURL :: listening w) w).

Record CapacitorClientOptions : Type := {
  storagePrefix : option string;
  cookiePrefix : option prefixes;
  scheme : option string;
  disableCache : bool
}.

(** `opts?.storagePrefix || 'better-auth'` *)
Definition or_default (o : option string) : string :=
  match o with
  | Some s => if Str.nonempty s then s else "better-auth"
  | None => "better-auth"
  end.

(** `opts?.cookiePrefix || 'better-auth'` *)
Definition prefixes_or_default (o : option prefixes) : prefixes :=
  match o with
  | Some (One p) => if Str.nonempty p then One p else One "better-auth"
  | Some (Many ps) => Many ps
  | None => One "better-auth"
  end.

Definition option_truthy (o : option string) : bool :=
  match o with
  | Some s => Str.nonempty s
  | None => false
  end.

Record RequestInit : Type := {
  credentials : option string;
  headers : list (string * string);
  body : option (list (string * string))
}.

(** What the fetch hook `onSuccess` is given. *)
Record SuccessContext : Type := {
  response_set_auth_token : option string;   (* response.headers.get('set-auth-token') *)
  response_set_cookie : option string;       (* response.headers.get('set-cookie') *)
  response_data : json;                      (* context.data, JNull when there is none *)
  request_url : string;
  request_body : option string;
  request_baseURL : option string
}.

Section Plugin.
Context `{Engine} `{Cookies}.

(** getCapacitorAuthToken, options resolved: [JNull] is `null`. *)
Definition getCapacitorAuthToken (storagePrefix cookiePrefix : option string) : Async json :=
  native <~ isNativePlatform ;;
  if negb native then ret JNull
  else
    let storagePrefix := or_default storagePrefix in
    let cookiePrefix := or_default cookiePrefix in
    let cookieName := storagePrefix ++ "_cookie" in
    catch
      (getPreferencesMod ;;;
       storedCookie <~ Preferences_get (normalizeCookieName cookieName) ;;
       match storedCookie with
       | Some storedCookie =>
           if negb (Str.nonempty storedCookie) then ret JNull
           else
             match JSON_parse storedCookie with
             | None => throw SyntaxError
             | Some cookieData => lift (session_token cookieData cookiePrefix)
             end
       | None => ret JNull
       end)
      JNull.

Variable opts : CapacitorClientOptions.

Definition cookieName : string := or_default (storagePrefix opts) ++ "_cookie".
Definition localCacheName : string := or_default (storagePrefix opts) ++ "_session_data".
Definition thePrefixes : prefixes := prefixes_or_default (cookiePrefix opts).

(** The body shared by the `set-auth-token` and the `set-cookie` branches
    of onSuccess. *)
Definition store_cookies (header : string) : Async unit :=
  prevCookie <~ Preferences_get (normalizeCookieName cookieName) ;;
  t <~ now ;;
  toSetCookie <~ lift (getSetCookie t header prevCookie) ;;
  if hasSessionCookieChanged prevCookie toSetCookie
  then Preferences_set (normalizeCookieName cookieName) toSetCookie ;;;
       notify "$sessionSignal"
  else Preferences_set (normalizeCookieName cookieName) toSetCookie.

Definition on_auth_token (context : SuccessContext) : Async unit :=
  match response_set_auth_token context with
  | Some authToken =>
      if Str.nonempty authToken then
        let prefixStr := first_prefix thePrefixes in
        let baseCookieName := prefixStr ++ ".session_token" in
        let secureCookieName := SECURE_COOKIE_PREFIX ++ baseCookieName in
        store_cookies (baseCookieName ++ "=" ++ authToken ++ ", " ++
                       secureCookieName ++ "=" ++ authToken)
      else ret tt
  | None => ret tt
  end.

Definition on_set_cookie (context : SuccessContext) : Async unit :=
  match response_set_cookie context with
  | Some setCookie =>
      if Str.nonempty setCookie && hasBetterAuthCookies setCookie thePrefixes
      then store_cookies setCookie
      else ret tt
  | None => ret tt
  end.

Definition cache_session (context : SuccessContext) : Async unit :=
  if Str.includes (request_url context) "/get-session" && negb (disableCache opts)
  then Preferences_set (normalizeCookieName localCacheName)
         (JSON_stringify (response_data context))
  else ret tt.

(** `context.request?.body?.includes?.('idToken')`, negated. *)
Definition not_silent (context : SuccessContext) : bool :=
  match request_body context with
  | Some b => negb (Str.includes b "idToken")
  | None => true
  end.

Definition redirects (context : SuccessContext) : bool :=
  truthy (opt_prop (Some (response_data context)) "redirect")
  && (Str.includes (request_url context) "/sign-in"
      || Str.includes (request_url context) "/link-social")
  && not_silent context
  && option_truthy (scheme opts).

Definition proxy_url (baseURL : option string) (signInURL : jsval) (oauthStateValue : option json)
  : string :=
  let params :=
    ("authorizationURL", to_string signInURL) ::
    (if truthy oauthStateValue then [("oauthState", to_string oauthStateValue)] else []) in
  match baseURL with Some b => b | None => "undefined" end
  ++ "/capacitor-authorization-proxy?" ++ URLSearchParams_toString params.

(** The OAuth redirect block of onSuccess, up to the listener it leaves. *)
Definition oauth_redirect (context : SuccessContext) : Async unit :=
  if redirects context then
    getBrowserAndAppMod ;;;
    match request_body context with
    | None => throw SyntaxError
    | Some b =>
        match JSON_parse b with
        | None => throw SyntaxError
        | Some parsedBody =>
            let callbackURL := opt_prop (Some parsedBody) "callbackURL" in
            let signInURL := opt_prop (Some (response_data context)) "url" in
            storedCookieJson <~ Preferences_get (normalizeCookieName cookieName) ;;
            let oauthStateValue := getOAuthStateValue storedCookieJson thePrefixes in
            Browser_open (proxy_url (request_baseURL context) signInURL oauthStateValue) ;;;
            App_addListener callbackURL
        end
    end
  else ret tt.

Definition onSuccess (context : SuccessContext) : Async unit :=
  native <~ isNativePlatform ;;
  if negb native then ret tt
  else
    getPreferencesMod ;;;
    on_auth_token context ;;;
    on_set_cookie context ;;;
    cache_session context ;;;
    oauth_redirect context.

(** `options.body.<field>` rewritten to a deep link when it is relative. *)
Definition rewrite_callback (schemeName field : string) (b : list (string * string))
  : list (string * string) :=
  match get field b with
  | Some url =>
      if Str.nonempty url && Str.startsWith url "/"
      then replace field (schemeName ++ ":/" ++ url) b
      else b
  | None => b
  end.

(** `bearerToken` of `init`: `null` when the stored jar does not parse or
    the lookup throws. *)
Definition bearer (storedCookie : option string) : json :=
  match JSON_parse (match storedCookie with
                    | Some c => if Str.nonempty c then c else "{}"
                    | None => "{}"
                    end) with
  | Some cookieData =>
      match session_token cookieData (first_prefix thePrefixes) with
      | Normal t => t
      | Throw _ => JNull
      end
  | None => JNull
  end.

(** `{ ...store.atoms.session.get(), data: null, error: null, isPending:
    false }` *)
Definition cleared (s : SessionState) : SessionState :=
  {| s_data := JNull; s_error := JNull; s_isPending := false;
     s_isRefetching := s_isRefetching s |}.

Definition clear_session : Async unit :=
  fun w => (Normal tt, with_session (option_map cleared (session w)) w).

(** The `init` hook. `initializeManagers()`, which it awaits first, sets up
    the focus and online observers and touches nothing the hook reads or
    writes; it is left out. *)
Definition init (url : string) (options : option RequestInit)
  : Async (string * option RequestInit) :=
  native <~ isNativePlatform ;;
  if negb native then ret (url, options)
  else
    getPreferencesMod ;;;
    storedCookie <~ Preferences_get (normalizeCookieName cookieName) ;;
    let bearerToken := bearer storedCookie in
    let options := default {| credentials := None; headers := []; body := None |} options in
    let headers1 :=
      if truthy (Some bearerToken)
      then define "Authorization" ("Bearer " ++ to_string (Some bearerToken)) (headers options)
      else headers options in
    let '(headers2, body2) :=
      match scheme opts with
      | Some s =>
          if Str.nonempty s then
            (define "x-skip-oauth-proxy" "true" (define "capacitor-origin" (getOrigin s) headers1),
             option_map (fun b => rewrite_callback s "errorCallbackURL"
                                    (rewrite_callback s "newUserCallbackURL"
                                       (rewrite_callback s "callbackURL" b)))
                        (body options))
          else (headers1, body options)
      | None => (headers1, body options)
      end in
    let options := {| credentials := Some "omit"; headers := headers2; body := body2 |} in
    (if Str.includes url "/sign-out"
     then Preferences_set (normalizeCookieName cookieName) "{}" ;;;
          clear_session ;;;
          Preferences_set (normalizeCookieName localCacheName) "{}"
     else ret tt) ;;;
    ret (url, Some options).

End Plugin.

End Client.

(** * The token functions and the actions of `src/client.ts` *)
Module Actions.
Local Open Scope string_scope.
Import Json Js Client.

(** `opts.expiresAt`: an ISO string or a `Date`. *)
Inductive expiry : Type := ExpiryText (s : string) | ExpiryDate (d : Date).

(** A destructuring default, `{ storagePrefix = 'better-auth' } = opts`: it
    applies to `undefined` only, not to the empty string. *)
Definition default_to (o : option string) : string :=
  match o with
  | Some s => s
  | None => "better-auth"
  end.

Definition seven_days : Z := 7 * 24 * 60 * 60 * 1000.

(** `cookieData[k] = e` in strict code, on a value `JSON.parse` returned:
    an object takes the property; an array takes it too, but as a named
    property, which `JSON.stringify` passes over; `null` and the primitives
    throw a TypeError. *)
Definition set_entry (k : string) (e : json) (cookieData : json) : completion json :=
  match cookieData with
  | JObj o => Normal (JObj (assign k e o))
  | JArr vs => Normal (JArr vs)
  | _ => Throw TypeError
  end.

Section Actions.
Context `{Engine} `{Cookies}.

(** `expiresAt` of setCapacitorAuthToken, computed before its `try`. *)
Definition token_expiry (now : Z) (expiresAt : option expiry) : completion string :=
  match expiresAt with
  | Some (ExpiryDate d) => Date_toISOString d
  | Some (ExpiryText s) =>
      if Str.nonempty s then Normal s
      else Date_toISOString (JsDate.TimeClip (now + seven_days))
  | None => Date_toISOString (JsDate.TimeClip (now + seven_days))
  end.

(** `cookieData` of setCapacitorAuthToken before the two assignments. *)
Definition existing_jar (existingCookie : option string) : json :=
  match existingCookie with
  | Some c =>
      if Str.nonempty c then
        match JSON_parse c with
        | Some cookieData => cookieData
        | None => JObj []
        end
      else JObj []
  | None => JObj []
  end.

(** setCapacitorAuthToken, options resolved. *)
Definition setCapacitorAuthToken (token : string) (expiresAt : option expiry)
  (storagePrefix cookiePrefix : option string) : Async bool :=
  native <~ isNativePlatform ;;
  if negb native then ret false
  else
    let storagePrefix := default_to storagePrefix in
    let cookiePrefix := default_to cookiePrefix in
    let cookieName := storagePrefix ++ "_cookie" in
    t <~ now ;;
    expiresAt <~ lift (token_expiry t expiresAt) ;;
    catch
      (getPreferencesMod ;;;
       let normalizedCookieName := normalizeCookieName cookieName in
       existingCookie <~ Preferences_get normalizedCookieName ;;
       let cookieData := existing_jar existingCookie in
       let baseCookieName := cookiePrefix ++ ".session_token" in
       let secureCookieName := SECURE_COOKIE_PREFIX ++ baseCookieName in
       let entry := entry_json token (JStr expiresAt) in
       cookieData <~ lift (set_entry baseCookieName entry cookieData) ;;
       cookieData <~ lift (set_entry secureCookieName entry cookieData) ;;
       Preferences_set normalizedCookieName (JSON_stringify cookieData) ;;;
       ret true)
      false.

(** clearCapacitorAuthToken, options resolved. *)
Definition clearCapacitorAuthToken (storagePrefix : option string) : Async bool :=
  native <~ isNativePlatform ;;
  if negb native then ret false
  else
    let storagePrefix := or_default storagePrefix in
    let cookieName := storagePrefix ++ "_cookie" in
    let localCacheName := storagePrefix ++ "_session_data" in
    catch
      (getPreferencesMod ;;;
       Preferences_remove (normalizeCookieName cookieName) ;;;
       Preferences_remove (normalizeCookieName localCacheName) ;;;
       ret true)
      false.

Variable opts : CapacitorClientOptions.

(** The action `getCookie` of `getActions`. *)
Definition actions_getCookie : Async string :=
  getPreferencesMod ;;;
  result <~ Preferences_get (normalizeCookieName (cookieName opts)) ;;
  t <~ now ;;
  lift (getCookie t (match result with
                     | Some v => if Str.nonempty v then v else "{}"
                     | None => "{}"
                     end)).

(** The action `getCachedSession`: [JNull] is `null`. *)
Definition getCachedSession : Async json :=
  getPreferencesMod ;;;
  result <~ Preferences_get (normalizeCookieName (localCacheName opts)) ;;
  match result with
  | Some v =>
      if Str.nonempty v then
        match JSON_parse v with
        | Some data => ret data
        | None => ret JNull
        end
      else ret JNull
  | None => ret JNull
  end.

(** The action `clearStorage`. *)
Definition clearStorage : Async unit :=
  getPreferencesMod ;;;
  Preferences_remove (normalizeCookieName (cookieName opts)) ;;;
  Preferences_remove (normalizeCookieName (localCacheName opts)).

End Actions.

End Actions.

(** * `src/online-manager.ts` and `src/focus-manager.ts`

    The two observers `init` sets up through `initializeManagers`. A
    listener is a callback; it is known here by a number, and what it is
    called with is logged. The plugins that feed the managers (Network,
    App) are outside the program: what they report is an argument. *)
Module Managers.

Definition listener : Type := nat.

(** `listeners.add(l)` on a `Set` *)
Definition listeners_add (l : listener) (ls : list listener) : list listener :=
  if existsb (Nat.eqb l) ls then ls else (ls ++ [l])%list.

(** `listeners.delete(l)` *)
Definition listeners_delete (l : listener) (ls : list listener) : list listener :=
  List.filter (fun l' => negb (Nat.eqb l l')) ls.

(** `listeners.forEach(listener => listener(v))` *)
Definition call_all (ls : list listener) (v : bool) : list (listener * bool) :=
  map (fun l => (l, v)) ls.

(** ** CapacitorOnlineManager *)

Record CapacitorOnlineManager : Type := {
  online_listeners : list listener;
  isOnline : bool
}.

(** `new CapacitorOnlineManager()` *)
Definition new_online : CapacitorOnlineManager :=
  {| online_listeners := []; isOnline := true |}.

Definition online_subscribe (l : listener) (m : CapacitorOnlineManager)
  : CapacitorOnlineManager :=
  {| online_listeners := listeners_add l (online_listeners m); isOnline := isOnline m |}.

(** The function `subscribe` returns. *)
Definition online_unsubscribe (l : listener) (m : CapacitorOnlineManager)
  : CapacitorOnlineManager :=
  {| online_listeners := listeners_delete l (online_listeners m); isOnline := isOnline m |}.

Definition setOnline (online : bool) (m : CapacitorOnlineManager)
  : CapacitorOnlineManager * list (listener * bool) :=
  if Bool.eqb (isOnline m) online then (m, [])
  else ({| online_listeners := online_listeners m; isOnline := online |},
        call_all (online_listeners m) online).

(** ** CapacitorFocusManager: `isFocused` starts `undefined`, here [None]. *)

Record CapacitorFocusManager : Type := {
  focus_listeners : list listener;
  isFocused : option bool
}.

Definition new_focus : CapacitorFocusManager :=
  {| focus_listeners := []; isFocused := None |}.

Definition focus_subscribe (l : listener) (m : CapacitorFocusManager)
  : CapacitorFocusManager :=
  {| focus_listeners := listeners_add l (focus_listeners m); isFocused := isFocused m |}.

Definition focus_unsubscribe (l : listener) (m : CapacitorFocusManager)
  : CapacitorFocusManager :=
  {| focus_listeners := listeners_delete l (focus_listeners m); isFocused := isFocused m |}.

(** `this.isFocused === focused` *)
Definition is_state (s : option bool) (v : bool) : bool :=
  match s with
  | Some b => Bool.eqb b v
  | None => false
  end.

Definition setFocused (focused : bool) (m : CapacitorFocusManager)
  : CapacitorFocusManager * list (listener * bool) :=
  if is_state (isFocused m) focused then (m, [])
  else ({| focus_listeners := focus_listeners m; isFocused := Some focused |},
        call_all (focus_listeners m) focused).

(** ** What happens to a manager, in order *)

Inductive event : Type :=
| Subscribe (l : listener)
| Unsubscribe (l : listener)
| Report (v : bool).

Fixpoint online_run (es : list event) (m : CapacitorOnlineManager)
  : CapacitorOnlineManager * list (listener * bool) :=
  match es with
  | [] => (m, [])
  | Subscribe l :: es' => online_run es' (online_subscribe l m)
  | Unsubscribe l :: es' => online_run es' (online_unsubscribe l m)
  | Report v :: es' =>
      let (m', calls) := setOnline v m in
      let (m'', calls') := online_run es' m' in
      (m'', (calls ++ calls')%list)
  end.

Fixpoint focus_run (es : list event) (m : CapacitorFocusManager)
  : CapacitorFocusManager * list (listener * bool) :=
  match es with
  | [] => (m, [])
  | Subscribe l :: es' => focus_run es' (focus_subscribe l m)
  | Unsubscribe l :: es' => focus_run es' (focus_unsubscribe l m)
  | Report v :: es' =>
      let (m', calls) := setFocused v m in
      let (m'', calls') := focus_run es' m' in
      (m'', (calls ++ calls')%list)
  end.

(** The values one listener was called with, in order. *)
Definition heard (l : listener) (calls : list (listener * bool)) : list bool :=
  map snd (List.filter (fun c => Nat.eqb l (fst c)) calls).

(** No two neighbours of a list are equal. *)
Fixpoint alternates (vs : list bool) : Prop :=
  match vs with
  | v :: ((v' :: _) as vs') => v <> v' /\ alternates vs'
  | _ => True
  end.

(** The reports among the events. *)
Definition reports (es : list event) : list bool :=
  flat_map (fun e => match e with Report v => [v] | _ => [] end) es.

(** The listener is subscribed before the events and no event unsubscribes it. *)
Definition stays (l : listener) (ls : list listener) (es : list event) : Prop :=
  In l ls /\ ~ In (Unsubscribe l) es.

(** A list of reports without its repetitions: each value that differs
    from the one before it, [last] being before the first. *)
Fixpoint changes (last : option bool) (vs : list bool) : list bool :=
  match vs with
  | [] => []
  | v :: vs' => if is_state last v then changes last vs' else v :: changes (Some v) vs'
  end.

End Managers.

(** * A reference engine and a reference cookie library

    Used where a statement needs concrete texts. The engine runs in the UTC
    time zone, and beside the Date Time String Format its `Date.parse`
    reads the layout of its own `toString`. *)
Module Reference.
Local Open Scope string_scope.
Import Json Js Client.

Definition day_names : list string := ["Sun"; "Mon"; "Tue"; "Wed"; "Thu"; "Fri"; "Sat"].
Definition month_names : list string :=
  ["Jan"; "Feb"; "Mar"; "Apr"; "May"; "Jun"; "Jul"; "Aug"; "Sep"; "Oct"; "Nov"; "Dec"].

Definition pad_string (n : nat) (x : Z) : string := string_of_list_ascii (JsDate.pad n x).

Definition year_string (y : Z) : string :=
  (if (y <? 0)%Z then "-" else "") ++
  (if (Z.abs y <? 10000)%Z then pad_string 4 (Z.abs y)
   else string_of_list_ascii (chars_of_uint (N.to_uint (Z.abs_N y)))).

Definition toString (t : Z) : string :=
  let f := JsDate.fields_of_time t in
  let days := (t / JsDate.ms_per_day)%Z in
  let sp := " " in
  let colon := ":" in
  nth (Z.to_nat ((days + 4) mod 7)) day_names "" ++ sp ++
  nth (Z.to_nat (JsDate.f_month f - 1)) month_names "" ++ sp ++
  pad_string 2 (JsDate.f_day f) ++ sp ++ year_string (JsDate.f_year f) ++ sp ++
  pad_string 2 (JsDate.f_hour f) ++ colon ++ pad_string 2 (JsDate.f_minute f) ++ colon ++
  pad_string 2 (JsDate.f_second f) ++ " GMT+0000 (Coordinated Universal Time)".

Fixpoint month_number (name : string) (names : list string) (i : Z) : option Z :=
  match names with
  | [] => None
  | n :: names' => if String.eqb n name then Some i else month_number name names' (i + 1)%Z
  end.

Local Open Scope char_scope.

Definition read_own_year (s : list ascii) : option (Z * list ascii) :=
  let (neg, s1) := read_sign s in
  let (u, r) := take_digits s1 in
  if (4 <=? nb_digits u)%nat then Some (signed neg (N.of_uint u), r) else None.

(** `Www Mmm DD YYYY HH:mm:ss GMT+0000`, whatever follows. *)
Definition parse_own (s : string) : option Z :=
  match list_ascii_of_string s with
  | _ :: _ :: _ :: " " :: m1 :: m2 :: m3 :: " " :: r =>
      match month_number (string_of_list_ascii [m1; m2; m3]) month_names 1 with
      | Some mo =>
      match JsDate.read_fixed 2 0 r with Some (d, r) =>
      match JsDate.read_sep " " r with Some r =>
      match read_own_year r with Some (y, r) =>
      match JsDate.read_sep " " r with Some r =>
      match JsDate.read_fixed 2 0 r with Some (h, r) =>
      match JsDate.read_sep ":" r with Some r =>
      match JsDate.read_fixed 2 0 r with Some (mi, r) =>
      match JsDate.read_sep ":" r with Some r =>
      match JsDate.read_fixed 2 0 r with Some (sec, r) =>
      match r with
      | " " :: "G" :: "M" :: "T" :: "+" :: "0" :: "0" :: "0" :: "0" :: _ =>
          let f := {| JsDate.f_year := y; JsDate.f_month := mo; JsDate.f_day := d;
                      JsDate.f_hour := h; JsDate.f_minute := mi; JsDate.f_second := sec;
                      JsDate.f_ms := 0 |} in
          if JsDate.legal f then Some (JsDate.time_of_fields f) else None
      | _ => None
      end
      | None => None end | None => None end | None => None end | None => None end
      | None => None end | None => None end | None => None end | None => None end
      | None => None end
      | None => None
      end
  | _ => None
  end.

#[global] Instance engine : Engine :=
  {| Date_toString := toString; Date_parse_other := parse_own |}.

(** ** `better-auth/cookies`

    Modelled from the spec: `parseSetCookieHeader`, `SECURE_COOKIE_PREFIX`
    and `stripSecureCookiePrefix` are imported from `better-auth/cookies`,
    whose code is not among the sources. The spec has one header carry
    several cookies, each a name and a value followed by attributes, of
    which the program reads `max-age` and `expires`, and has `__Secure-` as
    the secure naming prefix. Cookies are separated by a comma and a space,
    as the program writes them itself for a `set-auth-token` response, and
    attributes by `;`. *)

Definition is_space (c : ascii) : bool :=
  match c with
  | " " | "009" | "010" | "011" | "012" | "013" => true
  | _ => false
  end.

Fixpoint trim_start (s : list ascii) : list ascii :=
  match s with
  | c :: r => if is_space c then trim_start r else s
  | [] => []
  end.

Definition trim (s : list ascii) : list ascii := rev (trim_start (rev (trim_start s))).

(** `s.split(c)` for a one-character separator. *)
Fixpoint split_char (c : ascii) (s : list ascii) : list (list ascii) :=
  match s with
  | [] => [[]]
  | x :: r =>
      if Ascii.eqb x c then [] :: split_char c r
      else match split_char c r with
           | p :: ps => (x :: p) :: ps
           | [] => [[x]]
           end
  end.

(** `s.split(", ")` *)
Fixpoint split_comma_space (s : list ascii) : list (list ascii) :=
  match s with
  | [] => [[]]
  | "," :: " " :: r => [] :: split_comma_space r
  | x :: r =>
      match split_comma_space r with
      | p :: ps => (x :: p) :: ps
      | [] => [[x]]
      end
  end.

Definition lower (c : ascii) : ascii :=
  let n := N_of_ascii c in
  if ((65 <=? n) && (n <=? 90))%N then ascii_of_N (n + 32) else c.

(** `parts.join("=")` *)
Fixpoint join_eq (parts : list (list ascii)) : list ascii :=
  match parts with
  | [] => []
  | [p] => p
  | p :: ps => p ++ "=" :: join_eq ps
  end.

(** `parseInt(s, 10)` *)
Definition parseInt (s : list ascii) : number :=
  let s := trim_start s in
  let '(neg, s1) := match s with
                    | "-" :: r => (true, r)
                    | "+" :: r => (false, r)
                    | _ => (false, s)
                    end in
  let (u, _) := take_digits s1 in
  if nonempty u then Num (signed neg (N.of_uint u)) else NaN.

Definition apply_attribute `{Engine} (a : CookieAttributes) (attribute : list ascii)
  : CookieAttributes :=
  match split_char "=" attribute with
  | attrName :: attrValueParts =>
      let attrValue := join_eq attrValueParts in
      let name := string_of_list_ascii (map lower (trim attrName)) in
      if String.eqb name "max-age"%string then
        {| attr_value := attr_value a;
           attr_max_age := match attrValue with
                           | [] => None
                           | _ => Some (parseInt (trim attrValue))
                           end;
           attr_expires := attr_expires a |}
      else if String.eqb name "expires"%string then
        {| attr_value := attr_value a;
           attr_max_age := attr_max_age a;
           attr_expires := match attrValue with
                           | [] => None
                           | _ => Some (Date_parse (string_of_list_ascii (trim attrValue)))
                           end |}
      else a
  | [] => a
  end.

Definition parse_cookie `{Engine} (cookieString : list ascii)
  : option (string * CookieAttributes) :=
  match map trim (split_char ";" cookieString) with
  | nameValue :: attributes =>
      match split_char "=" nameValue with
      | [] :: _ | [] => None
      | name :: valueParts =>
          Some (string_of_list_ascii name,
                fold_left apply_attribute attributes
                  {| attr_value := string_of_list_ascii (join_eq valueParts);
                     attr_max_age := None; attr_expires := None |})
      end
  | [] => None
  end.

(** Modelled from the spec: `parseSetCookieHeader`, the cookies of a header
    in the order they are written. *)
Definition parse `{Engine} (setCookie : string) : list (string * CookieAttributes) :=
  flat_map (fun c => match parse_cookie c with Some kv => [kv] | None => [] end)
           (split_comma_space (list_ascii_of_string setCookie)).

Local Close Scope char_scope.

(** Modelled from the spec: `stripSecureCookiePrefix`, the name without a
    leading `__Secure-`. *)
Definition strip (cookieName : string) : string :=
  if Str.startsWith cookieName "__Secure-"
  then String.substring 9 (String.length cookieName - 9) cookieName
  else cookieName.

(** Modelled from the spec: the three imports together. *)
#[global] Instance cookies : Cookies :=
  {| parseSetCookieHeader := parse;
     SECURE_COOKIE_PREFIX := "__Secure-";
     stripSecureCookiePrefix := strip |}.

End Reference.

(** * The specification's vocabulary

    The spec speaks of a CookieRecord: a mapping from names to StoredCookie
    entries. These definitions read a parsed jar as one and state, in the
    spec's words, what the operations are to compute on it. *)
Module Spec.
Local Open Scope string_scope.
Import Json Js Client.

Definition entry_view (v : json) : option StoredCookie :=
  match v with
  | JObj o =>
      match get "value" o, get "expires" o with
      | Some (JStr s), Some (JStr e) => Some {| value := s; expires := Some e |}
      | Some (JStr s), Some JNull => Some {| value := s; expires := None |}
      | _, _ => None
      end
  | _ => None
  end.

Fixpoint record_view (o : list (string * json)) : option (list (string * StoredCookie)) :=
  match o with
  | [] => Some []
  | (k, v) :: o' =>
      match entry_view v, record_view o' with
      | Some c, Some r => Some ((k, c) :: r)
      | _, _ => None
      end
  end.

(** The text [jar] deserializes to the record [r]. *)
Definition holds (jar : string) (r : list (string * StoredCookie)) : Prop :=
  exists o, JSON_parse jar = Some (JObj o) /\ record_view o = Some r.

(** An entry as getSetCookie writes it. *)
Definition shaped (v : json) : Prop :=
  exists s e, v = entry_json s e /\ (e = JNull \/ exists iso, e = JStr iso).

Definition viewable (o : list (string * json)) : Prop :=
  Forall (fun kv => exists c, entry_view (snd kv) = Some c) o.

(** The previous jar is absent, or malformed, or deserializes to a record. *)
Definition record_or_nothing (prev : option string) : Prop :=
  match prev with
  | None => True
  | Some p => JSON_parse p = None \/ exists r, holds p r
  end.


Definition value_of (k : string) (r : list (string * StoredCookie)) : option string :=
  option_map value (get k r).

Definition values (r : list (string * StoredCookie)) : list (string * string) :=
  map (fun kc => (fst kc, value (snd kc))) r.





Section Dated.
Context `{Engine}.




End Dated.

Section Live.
Context `{Engine}.

(** An entry as getSetCookie writes it that getCookie keeps at [now']. *)
Definition live_entry (now' : Z) (v : json) : Prop :=
  exists s e, v = entry_json s e /\ wf e /\ unexpired now' v = Normal true.

Definition live (now' : Z) (kv : string * json) : Prop := live_entry now' (snd kv).

End Live.

Section Incoming.
Context `{Engine} `{Cookies}.

(** The cookies of a response header, by name. *)
Definition incoming (header : string) : list (string * CookieAttributes) :=
  Map_of (parseSetCookieHeader header).

(** The header's expiries do not depend on the clock: no cookie carries a
    max-age the program acts on. *)
Definition clock_free (header : string) : bool :=
  forallb (fun kc => negb (number_truthy (attr_max_age (snd kc)))) (incoming header).

(** The expiry in the spec's words: now + max-age seconds whenever a
    max-age is present, else the `expires` attribute, else none. *)
Definition expires_by_spec (now : Z) (cookie : CookieAttributes) : option Date :=
  match attr_max_age cookie with
  | Some (Num z) => Some (JsDate.TimeClip (now + z * 1000))
  | _ =>
      match attr_expires cookie with
      | Some d => Some (Date_parse (String_of_Date d))
      | None => None
      end
  end.

(** The cookie is stored without error and not expired at [now']. *)
Definition storable (now now' : Z) (c : CookieAttributes) : Prop :=
  cookie_expires now c = None \/
  exists t, cookie_expires now c = Some (Some t) /\ (now' <= t)%Z.

End Incoming.

End Spec.

(** * Sample jars, devices and requests

    Concrete inputs on which the theorems of the second part are
    instantiated. *)
Module Samples.
Local Open Scope string_scope.
Import Json Js Spec Str Client.




(** A jar holding the session token under both of its names. *)
Definition two_tokens : string :=
  q "{'better-auth.session_token':{'value':'plain','expires':null},'__Secure-better-auth.session_token':{'value':'secure','expires':null}}".


(** A native device with every plugin installed and a signed-in session
    that is still loading, at clock 1000. *)
Definition phone (jar : gmap string string) : World :=
  {| clock := 1000; native := true; has_preferences := true; has_browser := true;
     has_app := true; preferences := jar;
     session := Some {| s_data := JObj [("user", JStr "u")]; s_error := JNull;
                        s_isPending := true; s_isRefetching := false |};
     notified := []; opened := []; listening := [] |}.

(** `capacitorClient({ scheme: 'myapp' })`. *)
Definition myapp : CapacitorClientOptions :=
  {| storagePrefix := None; cookiePrefix := None; scheme := Some "myapp";
     disableCache := false |}.



(** A response that sets a cookie and nothing else. *)
Definition cookie_response (url setCookie : string) : SuccessContext :=
  {| response_set_auth_token := None; response_set_cookie := Some setCookie;
     response_data := JObj [("ok", JBool true)];
     request_url := url; request_body := None;
     request_baseURL := Some "https://api.example.com/api/auth" |}.

(** A response that carries a session token in `set-auth-token`. *)
Definition token_response (authToken : string) : SuccessContext :=
  {| response_set_auth_token := Some authToken; response_set_cookie := None;
     response_data := JNull;
     request_url := "https://api.example.com/api/auth/sign-in/email"; request_body := None;
     request_baseURL := Some "https://api.example.com/api/auth" |}.

(** The response to `getSession`. *)
Definition session_response : SuccessContext :=
  {| response_set_auth_token := None; response_set_cookie := None;
     response_data := JObj [("user", JObj [("id", JStr "u1")]); ("session", JNull)];
     request_url := "https://api.example.com/api/auth/get-session"; request_body := None;
     request_baseURL := Some "https://api.example.com/api/auth" |}.

(** A request to a social sign-in, as the caller hands it to `init`. *)
Definition sign_in_request : RequestInit :=
  {| credentials := None;
     headers := [("content-type", "application/json")];
     body := Some [("provider", "github"); ("callbackURL", "/dashboard");
                   ("errorCallbackURL", "https://example.com/error")] |}.

End Samples.

(** * Part II: what the program computes *)

(** * Reading back what `JSON.stringify` writes *)
Module JsonFacts.
Local Open Scope char_scope.
Import Json.

(** Induction over values, with the hypothesis for every item of an array
    and every member of an object. *)
Lemma json_ind (P : json -> Prop)
  (HNull : P JNull) (HBool : forall b, P (JBool b)) (HNum : forall m e, P (JNum m e))
  (HStr : forall s, P (JStr s))
  (HArr : forall vs, Forall P vs -> P (JArr vs))
  (HObj : forall ms, Forall (fun kv => P (snd kv)) ms -> P (JObj ms)) :
  forall v, P v.
Proof.
  fix IH 1. intros [ | b | m e | s | vs | ms ].
  - exact HNull.
  - apply HBool.
  - apply HNum.
  - apply HStr.
  - apply HArr. induction vs as [ | v vs IHvs ]; constructor; [ apply IH | exact IHvs ].
  - apply HObj. induction ms as [ | [k v] ms IHms ]; constructor; [ apply IH | exact IHms ].
Qed.

(** *** Digits *)

Lemma take_digits_stop s : digit_free_head s -> take_digits s = (Nil, s).
Proof. destruct s as [ | c r ]; simpl; [ reflexivity | intros -> ; reflexivity ]. Qed.

Lemma take_digits_chars u rest :
  digit_free_head rest -> take_digits (chars_of_uint u ++ rest) = (u, rest).
Proof.
  intros Hr. induction u; simpl; try (rewrite IHu; reflexivity).
  apply take_digits_stop, Hr.
Qed.

Lemma to_uint_canonical n : N.to_uint n = unorm (N.to_uint n).
Proof. rewrite <- (Unsigned.to_of (N.to_uint n)), Unsigned.of_to. reflexivity. Qed.

Lemma int_part_ok_to_uint n : int_part_ok (N.to_uint n) = true.
Proof.
  pose proof (to_uint_canonical n) as Hc.
  destruct (N.to_uint n) as [ | d | | | | | | | | | ] eqn:E; try reflexivity.
  - exfalso. symmetry in Hc. exact (unorm_nonnil _ Hc).
  - destruct d; try reflexivity; exfalso;
      rewrite unorm_D0 in Hc; unfold unorm in Hc;
      match type of Hc with D0 ?x = _ => destruct (nzhead x) eqn:Hz end;
      try discriminate; exact (nzhead_nonzero _ _ Hz).
Qed.

Lemma nonempty_to_uint n : nonempty (N.to_uint n) = true.
Proof.
  pose proof (to_uint_canonical n) as Hc.
  destruct (N.to_uint n); try reflexivity.
  exfalso. symmetry in Hc. exact (unorm_nonnil _ Hc).
Qed.

(** *** Numbers *)

Lemma closes_digit_free s : closes s -> digit_free_head s.
Proof. destruct s as [ | c r ]; simpl; [ trivial | intros [-> | [-> | ->]]; reflexivity ]. Qed.

Lemma read_sign_digits u rest :
  nonempty u = true -> read_sign (chars_of_uint u ++ rest) = (false, chars_of_uint u ++ rest).
Proof. destruct u; simpl; intros H; try discriminate; reflexivity. Qed.

Lemma signed_abs (z : Z) : signed (z <? 0)%Z (Z.abs_N z) = z.
Proof.
  unfold signed. destruct (Z.ltb_spec z 0); rewrite N2Z.inj_abs_N; lia.
Qed.

Lemma read_exponent_write e rest :
  closes rest -> read_exponent (write_exponent e ++ rest) = Some (e, rest).
Proof.
  intros Hr. unfold write_exponent.
  destruct (Z.eqb_spec e 0) as [-> | Hne].
  - destruct rest as [ | c r ]; [ reflexivity | ].
    simpl in Hr. destruct Hr as [-> | [-> | ->]]; reflexivity.
  - rewrite <- !app_comm_cons. unfold read_exponent. cbv beta iota.
    assert (Hs : read_exponent_sign
                   ((if (e <? 0)%Z then "-" else "+") :: chars_of_uint (N.to_uint (Z.abs_N e)) ++ rest)
                 = ((e <? 0)%Z, chars_of_uint (N.to_uint (Z.abs_N e)) ++ rest)).
    { destruct (e <? 0)%Z; reflexivity. }
    rewrite Hs, take_digits_chars by (apply closes_digit_free, Hr).
    rewrite nonempty_to_uint, Unsigned.of_to, signed_abs. reflexivity.
Qed.

Lemma read_fraction_none s :
  match s with "." :: _ => False | _ => True end -> read_fraction s = Some (Nil, s).
Proof.
  destruct s as [ | c r ]; [ reflexivity | ].
  destruct c as [[] [] [] [] [] [] [] []]; intros H; try reflexivity; destruct H.
Qed.

Lemma read_number_write m e rest :
  closes rest -> read_number (write_number m e ++ rest) = Some (JNum m e, rest).
Proof.
  intros Hr. unfold read_number, write_number.
  set (n := Z.abs_N m).
  assert (Hsign : read_sign (((if (m <? 0)%Z then ["-"] else []) ++
                               chars_of_uint (N.to_uint n) ++ write_exponent e) ++ rest)
                  = ((m <? 0)%Z, chars_of_uint (N.to_uint n) ++ write_exponent e ++ rest)).
  { rewrite <- !app_assoc. destruct (m <? 0)%Z; simpl; [ reflexivity | ].
    apply read_sign_digits, nonempty_to_uint. }
  rewrite Hsign.
  assert (Hdf : digit_free_head (write_exponent e ++ rest)).
  { unfold write_exponent. destruct (e =? 0)%Z; simpl;
      [ apply closes_digit_free, Hr | reflexivity ]. }
  rewrite take_digits_chars by exact Hdf.
  rewrite int_part_ok_to_uint.
  rewrite read_fraction_none.
  - rewrite read_exponent_write by exact Hr.
    rewrite DecimalFacts.app_nil_r, Unsigned.of_to. simpl nb_digits. subst n.
    rewrite signed_abs. do 3 f_equal. lia.
  - unfold write_exponent. destruct (e =? 0)%Z; simpl; [ | trivial ].
    destruct rest as [ | c r ]; [ trivial | ].
    simpl in Hr. destruct Hr as [-> | [-> | ->]]; exact I.
Qed.

(** *** Strings *)

Lemma read_string_escape c tl :
  read_string (escape c ++ tl)
  = match read_string tl with Some (cs, r) => Some (c :: cs, r) | None => None end.
Proof. destruct c as [[] [] [] [] [] [] [] []]; reflexivity. Qed.

Lemma read_string_write cs rest :
  read_string (flat_map escape cs ++ "034" :: rest) = Some (cs, rest).
Proof.
  induction cs as [ | c cs IH ]; [ reflexivity | ].
  simpl flat_map. rewrite <- app_assoc, read_string_escape, IH. reflexivity.
Qed.

Lemma read_quoted s rest :
  exists tl, write_string s ++ rest = "034" :: tl /\
             read_string tl = Some (list_ascii_of_string s, rest).
Proof.
  exists (flat_map escape (list_ascii_of_string s) ++ "034" :: rest). split.
  - unfold write_string. rewrite <- app_comm_cons, <- app_assoc. reflexivity.
  - apply read_string_write.
Qed.

(** *** Values *)

#[local] Arguments write_items : simpl never.
#[local] Arguments write_members : simpl never.
#[local] Arguments write_value : simpl never.
#[local] Arguments write_string : simpl never.
#[local] Arguments write_number : simpl never.

Lemma starts_number_value s : starts_number s -> starts_value s.
Proof.
  destruct s as [ | c r ]; [ trivial | ].
  destruct c as [[] [] [] [] [] [] [] []]; simpl;
    intros [H | H]; try discriminate H; try (exfalso; apply H; reflexivity);
    repeat split; discriminate.
Qed.

Lemma write_number_starts m e rest : starts_number (write_number m e ++ rest).
Proof.
  unfold write_number. destruct (m <? 0)%Z; simpl; [ left; reflexivity | ].
  pose proof (nonempty_to_uint (Z.abs_N m)) as Hn.
  destruct (N.to_uint (Z.abs_N m)); simpl in *; try discriminate Hn; right; discriminate.
Qed.

Lemma write_value_starts v rest : starts_value (write_value v ++ rest).
Proof.
  destruct v as [ | [] | m e | s | vs | ms ]; try (simpl; repeat split; discriminate).
  apply starts_number_value, write_number_starts.
Qed.

Lemma skip_ws_starts s : starts_value s -> skip_ws s = s.
Proof. destruct s as [ | c r ]; simpl; [ tauto | intros (-> & _); reflexivity ]. Qed.

Lemma read_value_number f s : starts_number s -> read_value (S f) s = read_number s.
Proof.
  destruct s as [ | c r ]; [ intros [] | ].
  destruct c as [[] [] [] [] [] [] [] []]; simpl;
    intros [H | H]; try discriminate H; try (exfalso; apply H; reflexivity); reflexivity.
Qed.

Lemma read_value_array f r :
  starts_value r ->
  read_value (S f) ("[" :: r)
  = match read_items f r with Some (vs, r') => Some (JArr vs, r') | None => None end.
Proof.
  intros Hs. change (read_value (S f) ("[" :: r))
    with (match skip_ws r with
          | "]" :: r' => Some (JArr [], r')
          | r' => match read_items f r' with
                  | Some (vs, r'') => Some (JArr vs, r'')
                  | None => None
                  end
          end).
  rewrite (skip_ws_starts _ Hs).
  destruct r as [ | c tl ]; [ destruct Hs | ]. destruct Hs as (_ & Hb & _).
  destruct c as [[] [] [] [] [] [] [] []]; try reflexivity.
  exfalso. apply Hb. reflexivity.
Qed.

Lemma read_value_object f r :
  read_value (S f) ("{" :: "034" :: r)
  = match read_members f ("034" :: r) with Some (ms, r') => Some (JObj ms, r') | None => None end.
Proof. reflexivity. Qed.

Lemma write_items_cons v v' vs :
  write_items (v :: v' :: vs) = write_value v ++ "," :: write_items (v' :: vs).
Proof. reflexivity. Qed.

Lemma write_members_cons k v m ms :
  write_members ((k, v) :: m :: ms)
  = write_string k ++ ":" :: write_value v ++ "," :: write_members (m :: ms).
Proof. reflexivity. Qed.

Lemma write_items_starts v vs rest : starts_value (write_items (v :: vs) ++ rest).
Proof.
  destruct vs as [ | v' vs ].
  - apply write_value_starts.
  - rewrite write_items_cons, <- app_assoc. apply write_value_starts.
Qed.

Lemma read_items_write v vs :
  Forall reads_back (v :: vs) ->
  forall f rest, need_items (v :: vs) <= f ->
    read_items f (write_items (v :: vs) ++ "]" :: rest) = Some (v :: vs, rest).
Proof.
  revert v. induction vs as [ | v' vs IH ]; intros v Hall f rest Hf.
  - apply Forall_inv in Hall. destruct f as [ | f ]; [ simpl in Hf; lia | ].
    change (write_items [v]) with (write_value v).
    simpl read_items. rewrite Hall; [ reflexivity | simpl in Hf; lia | simpl; tauto ].
  - pose proof (Forall_inv Hall) as Hv. apply Forall_inv_tail in Hall.
    destruct f as [ | f ]; [ simpl in Hf; lia | ].
    rewrite write_items_cons, <- app_assoc, <- app_comm_cons.
    change (need_items (v :: v' :: vs)) with (S (need v + need_items (v' :: vs))) in Hf.
    simpl read_items. rewrite Hv; [ | lia | simpl; tauto ].
    simpl skip_ws; cbv beta iota.
    rewrite skip_ws_starts by apply write_items_starts.
    rewrite IH; [ reflexivity | exact Hall | lia ].
Qed.

Lemma read_members_write k v ms :
  Forall (fun kv => reads_back (snd kv)) ((k, v) :: ms) ->
  forall f rest, need_members ((k, v) :: ms) <= f ->
    read_members f (write_members ((k, v) :: ms) ++ "}" :: rest) = Some ((k, v) :: ms, rest).
Proof.
  revert k v. induction ms as [ | [k' v'] ms IH ]; intros k v Hall f rest Hf.
  - apply Forall_inv in Hall. simpl in Hall.
    destruct f as [ | f ]; [ simpl in Hf; lia | ].
    change (write_members [(k, v)]) with (write_string k ++ ":" :: write_value v).
    destruct (read_quoted k ((":" :: write_value v) ++ "}" :: rest)) as (tl & Etl & Htl).
    rewrite <- app_assoc, Etl. simpl read_members. rewrite Htl.
    rewrite <- app_comm_cons. simpl skip_ws; cbv beta iota.
    rewrite skip_ws_starts by apply write_value_starts.
    rewrite Hall; [ | simpl in Hf; lia | simpl; tauto ].
    simpl. rewrite string_of_list_ascii_of_string. reflexivity.
  - pose proof (Forall_inv Hall) as Hv. simpl in Hv. apply Forall_inv_tail in Hall.
    destruct f as [ | f ]; [ simpl in Hf; lia | ].
    rewrite write_members_cons.
    change (need_members ((k, v) :: (k', v') :: ms))
      with (S (need v + need_members ((k', v') :: ms))) in Hf.
    destruct (read_quoted k ((":" :: write_value v ++ "," :: write_members ((k', v') :: ms))
                               ++ "}" :: rest)) as (tl & Etl & Htl).
    rewrite <- app_assoc, Etl. simpl read_members. rewrite Htl.
    rewrite <- app_comm_cons, <- app_assoc, <- app_comm_cons. simpl skip_ws; cbv beta iota.
    rewrite skip_ws_starts by apply write_value_starts.
    rewrite Hv; [ | lia | simpl; tauto ].
    simpl skip_ws; cbv beta iota.
    assert (Hq : skip_ws (write_members ((k', v') :: ms) ++ "}" :: rest)
                 = write_members ((k', v') :: ms) ++ "}" :: rest).
    { destruct ms as [ | m ms ]; [ reflexivity | destruct m; reflexivity ]. }
    rewrite Hq, IH; [ | exact Hall | lia ].
    rewrite string_of_list_ascii_of_string. reflexivity.
Qed.

Lemma read_value_write v : reads_back v.
Proof.
  induction v as [ | b | m e | s | vs IH | ms IH ] using json_ind;
    intros f rest Hf Hr; (destruct f as [ | f ]; [ simpl in Hf; lia | ]).
  - reflexivity.
  - destruct b; reflexivity.
  - change (write_value (JNum m e)) with (write_number m e).
    rewrite read_value_number by apply write_number_starts.
    apply read_number_write, Hr.
  - change (write_value (JStr s)) with (write_string s).
    destruct (read_quoted s rest) as (tl & -> & Htl).
    simpl. rewrite Htl, string_of_list_ascii_of_string. reflexivity.
  - change (write_value (JArr vs)) with ("[" :: write_items vs ++ ["]"]).
    rewrite <- app_comm_cons, <- app_assoc. simpl app.
    destruct vs as [ | v vs ]; [ reflexivity | ].
    rewrite read_value_array by apply write_items_starts.
    rewrite read_items_write; [ reflexivity | exact IH | ].
    change (need (JArr (v :: vs))) with (S (need_items (v :: vs))) in Hf. lia.
  - change (write_value (JObj ms)) with ("{" :: write_members ms ++ ["}"]).
    rewrite <- app_comm_cons, <- app_assoc. simpl app.
    destruct ms as [ | [k v] ms ]; [ reflexivity | ].
    assert (Hq : exists tl, write_members ((k, v) :: ms) ++ "}" :: rest = "034" :: tl).
    { destruct ms as [ | m ms ]; [ | destruct m ]; eexists; reflexivity. }
    destruct Hq as (tl & Hq). rewrite Hq, read_value_object, <- Hq.
    rewrite read_members_write; [ reflexivity | exact IH | ].
    change (need (JObj ((k, v) :: ms))) with (S (need_members ((k, v) :: ms))) in Hf. lia.
Qed.

End JsonFacts.

(** * Objects in enumeration order *)
Module ObjFacts.
Local Open Scope char_scope.
Import Json JsonFacts.

Lemma digit_of_char_inv c d u :
  digit_of_char c = Some d -> chars_of_uint (d u) = c :: chars_of_uint u.
Proof.
  destruct c as [[] [] [] [] [] [] [] []]; simpl; intros H; try discriminate H;
    injection H as <-; reflexivity.
Qed.

Lemma take_digits_all s u : take_digits s = (u, []) -> chars_of_uint u = s.
Proof.
  revert u. induction s as [ | c r IH ]; intros u; simpl.
  - intros [= <-]. reflexivity.
  - destruct (digit_of_char c) as [d | ] eqn:Hd; [ | discriminate ].
    destruct (take_digits r) as [u' r'] eqn:Hr. intros [= <- ->].
    rewrite (digit_of_char_inv _ _ _ Hd), (IH u' eq_refl). reflexivity.
Qed.

Lemma int_part_ok_unorm u : int_part_ok u = true -> unorm u = u.
Proof.
  destruct u as [ | d | | | | | | | | | ]; try discriminate; try reflexivity.
  destruct d; try discriminate. reflexivity.
Qed.

Lemma array_index_spelling k i :
  array_index k = Some i -> k = string_of_list_ascii (chars_of_uint (N.to_uint i)).
Proof.
  unfold array_index. destruct (take_digits (list_ascii_of_string k)) as [u r] eqn:Hu.
  destruct r; [ | discriminate ].
  destruct (int_part_ok u) eqn:Hok; [ | discriminate ].
  destruct (N.of_uint u <? 4294967295)%N; [ | discriminate ]. simpl.
  intros [= <-]. rewrite Unsigned.to_of, (int_part_ok_unorm _ Hok).
  rewrite (take_digits_all _ _ Hu). symmetry. apply string_of_list_ascii_of_string.
Qed.

Lemma array_index_inj k1 k2 i :
  array_index k1 = Some i -> array_index k2 = Some i -> k1 = k2.
Proof.
  intros H1 H2. rewrite (array_index_spelling _ _ H1), (array_index_spelling _ _ H2).
  reflexivity.
Qed.

Section Props.
Context {A : Type}.
Implicit Types (o l : list (string * A)) (k : string) (v : A).

Lemma get_none k o : get k o = None <-> ~ In k (map fst o).
Proof.
  induction o as [ | [k' v'] o IH ]; simpl; [ tauto | ].
  destruct (String.eqb_spec k k') as [-> | Hne].
  - split; [ discriminate | intros H; exfalso; apply H; left; reflexivity ].
  - rewrite IH. split; [ intros H [E | Hin]; [ congruence | tauto ] | tauto ].
Qed.

Lemma get_some_in k v o : get k o = Some v -> In (k, v) o.
Proof.
  induction o as [ | [k' v'] o IH ]; simpl; [ discriminate | ].
  destruct (String.eqb_spec k k') as [-> | Hne].
  - intros [= ->]. left; reflexivity.
  - intros H. right. apply IH, H.
Qed.

Lemma keys_replace k v o : map fst (replace k v o) = map fst o.
Proof.
  induction o as [ | [k' v'] o IH ]; simpl; [ reflexivity | ].
  destruct (String.eqb k k'); simpl; [ reflexivity | rewrite IH; reflexivity ].
Qed.

Lemma sorted_app ks1 ks2 :
  sorted (ks1 ++ ks2) <->
  sorted ks1 /\ sorted ks2 /\ (forall x y, In x ks1 -> In y ks2 -> before x y).
Proof.
  induction ks1 as [ | k ks1 IH ]; simpl.
  - split; [ intros H; split; [ exact I | split; [ exact H | intros x y [] ] ] | tauto ].
  - rewrite IH, Forall_app, !List.Forall_forall. split.
    + intros ((H1 & H2) & H3 & H4 & H5).
      split; [ split; assumption | split; [ assumption | ] ].
      intros x y [<- | Hx] Hy; [ apply H2, Hy | apply H5; assumption ].
    + intros ((H1 & H2) & H3 & H4).
      split; [ split; [ exact H1 | ] | split; [ exact H2 | split; [ exact H3 | ] ] ].
      * intros y Hy. apply H4; [ left; reflexivity | exact Hy ].
      * intros x y Hx Hy. apply H4; [ right; exact Hx | exact Hy ].
Qed.

Lemma insert_index_end i k v o :
  Forall (fun k' => exists j, array_index k' = Some j /\ (j < i)%N) (map fst o) ->
  insert_index i k v o = o ++ [(k, v)].
Proof.
  induction o as [ | [k' v'] o IH ]; simpl; [ reflexivity | ].
  intros H. inversion H as [ | ? ? (j & Hj & Hlt) Htl ]; subst.
  rewrite Hj. destruct (N.ltb_spec j i); [ | lia ]. rewrite IH by exact Htl. reflexivity.
Qed.

Lemma define_end k v o : canonical (o ++ [(k, v)]) -> define k v o = o ++ [(k, v)].
Proof.
  unfold canonical. rewrite map_app. simpl. rewrite sorted_app.
  intros (_ & _ & Hb). unfold define.
  assert (Hk : get k o = None).
  { apply get_none. intros Hin. destruct (Hb k k Hin) as [Hne _]; [ left; reflexivity | ].
    apply Hne. reflexivity. }
  rewrite Hk. destruct (array_index k) as [i | ] eqn:Hi; [ | reflexivity ].
  apply insert_index_end. apply List.Forall_forall. intros k' Hin.
  destruct (Hb k' k Hin) as [_ Ho]; [ left; reflexivity | ].
  rewrite Hi in Ho. destruct (array_index k') as [j | ]; [ eauto | destruct Ho ].
Qed.

Lemma define_all_canonical_app l : forall o, canonical (o ++ l) -> define_all l o = o ++ l.
Proof.
  induction l as [ | [k v] l IH ]; intros o Hc; simpl.
  - symmetry. apply app_nil_r.
  - change (o ++ (k, v) :: l) with (o ++ [(k, v)] ++ l) in *.
    rewrite app_assoc in *. unfold define_all in *. simpl.
    rewrite define_end.
    + apply IH, Hc.
    + unfold canonical in *. rewrite map_app in Hc. apply sorted_app in Hc. tauto.
Qed.

(** Rebuilding an object from its own entries gives the object back. *)
Lemma define_all_canonical l : canonical l -> define_all l [] = l.
Proof. intros H. apply (define_all_canonical_app l []), H. Qed.

Lemma keys_insert_index i k v o :
  exists o1 o2, o = o1 ++ o2 /\ insert_index i k v o = o1 ++ (k, v) :: o2 /\
    Forall (fun k' => exists j, array_index k' = Some j /\ (j < i)%N) (map fst o1) /\
    match o2 with
    | [] => True
    | (k', _) :: _ => match array_index k' with Some j => (i <= j)%N | None => True end
    end.
Proof.
  induction o as [ | [k' v'] o IH ]; simpl.
  - exists [], []. repeat split; constructor.
  - destruct (array_index k') as [j | ] eqn:Hj.
    + destruct (N.ltb_spec j i) as [Hlt | Hge].
      * destruct IH as (o1 & o2 & -> & -> & H1 & H2).
        exists ((k', v') :: o1), o2. repeat split; trivial.
        simpl. constructor; eauto.
      * exists [], ((k', v') :: o). repeat split; [ constructor | rewrite Hj; exact Hge ].
    + exists [], ((k', v') :: o). repeat split; [ constructor | rewrite Hj; exact I ].
Qed.

Lemma canonical_define k v o : canonical o -> canonical (define k v o).
Proof.
  unfold canonical, define. intros Hc.
  destruct (get k o) as [w | ] eqn:Hg.
  - rewrite keys_replace. exact Hc.
  - apply get_none in Hg.
    destruct (array_index k) as [i | ] eqn:Hi.
    + destruct (keys_insert_index i k v o) as (o1 & o2 & -> & -> & H1 & H2).
      rewrite map_app in *. simpl. apply sorted_app in Hc. destruct Hc as (Hs1 & Hs2 & H12).
      apply sorted_app. rewrite List.Forall_forall in H1.
      assert (Hk2 : Forall (before k) (map fst o2)).
      { destruct o2 as [ | [k' v'] o2 ]; [ constructor | ].
        simpl in Hs2. destruct Hs2 as (Hb' & _).
        assert (Hkk' : before k k').
        { split; [ intros ->; apply Hg, in_or_app; right; left; reflexivity | ].
          rewrite Hi. destruct (array_index k') as [j | ] eqn:Hj; [ | exact I ].
          destruct (N.eq_dec i j) as [<- | Hne]; [ | lia ].
          exfalso. apply Hg, in_or_app. right. left. simpl.
          apply (array_index_inj _ _ _ Hj Hi). }
        simpl. constructor; [ exact Hkk' | ].
        rewrite List.Forall_forall in *. intros y Hy. specialize (Hb' y Hy).
        split; [ intros ->; apply Hg, in_or_app; right; right; exact Hy | ].
        destruct Hkk' as [_ Hkk'], Hb' as [_ Hb']. rewrite Hi in *.
        destruct (array_index k') as [j | ], (array_index y) as [j' | ]; try tauto; lia. }
      split; [ exact Hs1 | split; [ simpl; split; [ exact Hk2 | exact Hs2 ] | ] ].
      intros x y Hx [<- | Hy].
      * destruct (H1 x Hx) as (j & Hj & Hlt).
        split; [ intros ->; apply Hg, in_or_app; left; exact Hx | ].
        rewrite Hj, Hi. exact Hlt.
      * apply H12; assumption.
    + rewrite map_app. simpl. apply sorted_app.
      split; [ exact Hc | split; [ simpl; split; [ constructor | exact I ] | ] ].
      intros x y Hx [<- | []]. split; [ intros ->; exact (Hg Hx) | ].
      rewrite Hi. destruct (array_index x); exact I.
Qed.

Lemma canonical_define_all l : forall o, canonical o -> canonical (define_all l o).
Proof.
  induction l as [ | [k v] l IH ]; intros o Hc; [ exact Hc | ].
  apply IH, canonical_define, Hc.
Qed.

Lemma Forall_replace (P : A -> Prop) k v o :
  P v -> Forall (fun kv => P (snd kv)) o -> Forall (fun kv => P (snd kv)) (replace k v o).
Proof.
  intros Hv. induction 1 as [ | [k' v'] o Hh Ht IH ]; simpl; [ constructor | ].
  destruct (String.eqb k k'); constructor; trivial.
Qed.

Lemma Forall_insert_index (P : A -> Prop) i k v o :
  P v -> Forall (fun kv => P (snd kv)) o ->
  Forall (fun kv => P (snd kv)) (insert_index i k v o).
Proof.
  intros Hv. induction 1 as [ | [k' v'] o Hh Ht IH ]; simpl; [ repeat constructor; exact Hv | ].
  destruct (array_index k') as [j | ]; [ destruct (j <? i)%N | ];
    repeat (constructor; trivial).
Qed.

Lemma Forall_define (P : A -> Prop) k v o :
  P v -> Forall (fun kv => P (snd kv)) o -> Forall (fun kv => P (snd kv)) (define k v o).
Proof.
  intros Hv Ho. unfold define. destruct (get k o).
  - apply Forall_replace; assumption.
  - destruct (array_index k).
    + apply Forall_insert_index; assumption.
    + apply Forall_app. split; [ exact Ho | repeat constructor; exact Hv ].
Qed.

Lemma Forall_define_all (P : A -> Prop) l :
  Forall (fun kv => P (snd kv)) l ->
  forall o, Forall (fun kv => P (snd kv)) o -> Forall (fun kv => P (snd kv)) (define_all l o).
Proof.
  induction 1 as [ | [k v] l Hh Ht IH ]; intros o Ho; [ exact Ho | ].
  apply IH, Forall_define; assumption.
Qed.

End Props.

#[local] Arguments write_items : simpl never.
#[local] Arguments write_members : simpl never.
#[local] Arguments write_value : simpl never.
#[local] Arguments write_string : simpl never.
#[local] Arguments need_items : simpl never.
#[local] Arguments need_members : simpl never.

Lemma canon_wf v : wf (canon v).
Proof.
  induction v as [ | b | m e | s | vs IH | ms IH ] using json_ind; simpl; try constructor.
  - induction IH; simpl; constructor; assumption.
  - apply canonical_define_all. exact I.
  - apply Forall_define_all; [ | constructor ].
    induction IH as [ | [k v] ms Hh Ht IHms ]; simpl; constructor; assumption.
Qed.

Lemma wf_canon v : wf v -> canon v = v.
Proof.
  induction v as [ | b | m e | s | vs IH | ms IH ] using json_ind; intros Hwf;
    try reflexivity; inversion Hwf as [ | | | | ? Hvs | ? Hc Hms ]; subst; simpl; f_equal.
  - induction IH as [ | v vs Hh Ht IHvs ]; [ reflexivity | ].
    inversion Hvs; subst. simpl. f_equal; [ apply Hh; assumption | ].
    apply IHvs; [ constructor | ]; assumption.
  - assert (Hmap : map (fun kv => (fst kv, canon (snd kv))) ms = ms).
    { clear Hc Hwf. induction IH as [ | [k v] ms Hh Ht IHms ]; [ reflexivity | ].
      inversion Hms; subst. simpl in *. f_equal; [ f_equal; apply Hh; assumption | ].
      apply IHms; assumption. }
    rewrite Hmap. apply define_all_canonical, Hc.
Qed.

Lemma canon_idem v : canon (canon v) = canon v.
Proof. apply wf_canon, canon_wf. Qed.

Lemma length_write_number m e : 1 <= length (write_number m e).
Proof.
  pose proof (write_number_starts m e []) as H. rewrite app_nil_r in H.
  destruct (write_number m e); [ destruct H | simpl; lia ].
Qed.

Lemma need_le_length v : need v <= length (write_value v).
Proof.
  induction v as [ | b | m e | s | vs IH | ms IH ] using json_ind.
  - simpl; lia.
  - destruct b; simpl; lia.
  - apply length_write_number.
  - simpl; lia.
  - change (need (JArr vs)) with (S (need_items vs)).
    change (write_value (JArr vs)) with ("[" :: write_items vs ++ ["]"]).
    simpl length. rewrite length_app. simpl length.
    assert (H : need_items vs <= S (length (write_items vs))); [ | lia ].
    induction IH as [ | v vs Hh Ht IHvs ]; [ cbv; lia | ].
    destruct vs as [ | v' vs ].
    + change (write_items [v]) with (write_value v).
      change (need_items [v]) with (S (need v + 0)). lia.
    + rewrite write_items_cons, length_app. simpl length.
      change (need_items (v :: v' :: vs)) with (S (need v + need_items (v' :: vs))). lia.
  - change (need (JObj ms)) with (S (need_members ms)).
    change (write_value (JObj ms)) with ("{" :: write_members ms ++ ["}"]).
    simpl length. rewrite length_app. simpl length.
    assert (H : need_members ms <= S (length (write_members ms))); [ | lia ].
    induction IH as [ | [k v] ms Hh Ht IHms ]; [ cbv; lia | ].
    simpl in Hh. destruct ms as [ | m ms ].
    + change (write_members [(k, v)]) with (write_string k ++ ":" :: write_value v).
      change (need_members [(k, v)]) with (S (need v + 0)).
      rewrite length_app. simpl length. lia.
    + rewrite write_members_cons, !length_app. simpl length. rewrite !length_app. simpl length.
      change (need_members ((k, v) :: m :: ms)) with (S (need v + need_members (m :: ms))). lia.
Qed.

(** Reading the text written for a value gives the value back. *)
Lemma read_text_write v : read_text (write_value v) = Some v.
Proof.
  unfold read_text.
  pose proof (write_value_starts v []) as Hs. rewrite app_nil_r in Hs.
  rewrite (skip_ws_starts _ Hs).
  pose proof (read_value_write v (S (length (write_value v))) []) as H.
  rewrite app_nil_r in H. rewrite H; [ reflexivity | | exact I ].
  pose proof (need_le_length v). lia.
Qed.

Lemma JSON_parse_stringify_canon v : JSON_parse (JSON_stringify v) = Some (canon v).
Proof.
  unfold JSON_parse, JSON_stringify.
  rewrite list_ascii_of_string_of_list_ascii, read_text_write. reflexivity.
Qed.

Lemma JSON_parse_stringify v : wf v -> JSON_parse (JSON_stringify v) = Some v.
Proof. intros H. rewrite JSON_parse_stringify_canon, (wf_canon v H). reflexivity. Qed.

Lemma JSON_parse_wf s v : JSON_parse s = Some v -> wf v.
Proof.
  unfold JSON_parse. destruct (read_text _); simpl; [ | discriminate ].
  intros [= <-]. apply canon_wf.
Qed.

End ObjFacts.

(** * The calendar, and reading back what `toISOString` writes *)
Module JsDateFacts.
Local Open Scope char_scope.
Local Open Scope Z_scope.
Import JsDate.

Ltac divmod :=
  repeat match goal with
         | |- _ /\ _ => split
         | |- _ -> _ => intro
         end;
  Z.to_euclidean_division_equations; lia.

Lemma civil_days z :
  let '(y, m, d) := civil_from_days z in days_from_civil y m d = z.
Proof.
  unfold civil_from_days, days_from_civil.
  set (z' := z + 719468).
  set (era := z' / 146097). set (doe := z' mod 146097).
  set (c := Z.min (doe / 36524) 3). set (doc := doe - c * 36524).
  set (q := doc / 1461). set (doq := doc mod 1461).
  set (a := Z.min (doq / 365) 3). set (doy := doq - a * 365).
  set (mp := (5 * doy + 2) / 153).
  assert (Hdoe : 0 <= doe < 146097) by (subst doe; apply Z.mod_pos_bound; lia).
  assert (Hc : 0 <= c <= 3) by (subst c; divmod).
  assert (Hdoc : 0 <= doc <= 36524) by (subst doc c; divmod).
  assert (Hq : 0 <= q <= 24) by (subst q; divmod).
  assert (Hdoq : 0 <= doq < 1461) by (subst doq; apply Z.mod_pos_bound; lia).
  assert (Ha : 0 <= a <= 3) by (subst a; divmod).
  assert (Hdoy : 0 <= doy <= 365) by (subst doy a; divmod).
  assert (Hmp : 0 <= mp <= 11) by (subst mp; divmod).
  set (m := if mp <? 10 then mp + 3 else mp - 9).
  set (yoe := c * 100 + q * 4 + a).
  assert (Hy : (if m <=? 2 then (if m <=? 2 then era * 400 + yoe + 1 else era * 400 + yoe) - 1
                else (if m <=? 2 then era * 400 + yoe + 1 else era * 400 + yoe))
               = era * 400 + yoe) by (destruct (m <=? 2); lia).
  replace (era * 400 + c * 100 + q * 4 + a) with (era * 400 + yoe) by (subst yoe; lia).
  rewrite Hy.
  assert (Hyoe : 0 <= yoe < 400) by (subst yoe; lia).
  replace ((era * 400 + yoe) / 400) with era by divmod.
  replace ((era * 400 + yoe) mod 400) with yoe by divmod.
  assert (Hmp' : (if 2 <? m then m - 3 else m + 9) = mp).
  { subst m. destruct (Z.ltb_spec mp 10).
    - destruct (Z.ltb_spec 2 (mp + 3)); lia.
    - destruct (Z.ltb_spec 2 (mp - 9)); lia. }
  rewrite Hmp'.
  replace (yoe / 4) with (c * 25 + q) by (subst yoe; divmod).
  replace (yoe / 100) with c by (subst yoe; divmod).
  assert (Hz : z' = era * 146097 + doe) by (subst era doe; divmod).
  assert (Hq' : doc = q * 1461 + doq) by (subst q doq; divmod).
  subst yoe doy doc z'. lia.
Qed.

Lemma civil_legal z :
  let '(y, m, d) := civil_from_days z in
  1 <= m <= 12 /\ 1 <= d <= days_in_month y m.
Proof.
  unfold civil_from_days.
  set (z' := z + 719468).
  set (era := z' / 146097). set (doe := z' mod 146097).
  set (c := Z.min (doe / 36524) 3). set (doc := doe - c * 36524).
  set (q := doc / 1461). set (doq := doc mod 1461).
  set (a := Z.min (doq / 365) 3). set (doy := doq - a * 365).
  set (mp := (5 * doy + 2) / 153).
  assert (Hdoe : 0 <= doe < 146097) by (subst doe; apply Z.mod_pos_bound; lia).
  assert (Hc : 0 <= c <= 3) by (subst c; divmod).
  assert (Hdoc : 0 <= doc <= 36524 /\ (c < 3 -> doc < 36524)) by (subst doc c; divmod).
  assert (Hq : 0 <= q <= 24) by (subst q; divmod).
  assert (Hdoq : 0 <= doq < 1461) by (subst doq; apply Z.mod_pos_bound; lia).
  assert (Hq' : doc = q * 1461 + doq) by (subst q doq; divmod).
  assert (Ha : 0 <= a <= 3) by (subst a; divmod).
  assert (Hdoy : 0 <= doy <= 365 /\ (doy = 365 -> a = 3)) by (subst doy a; divmod).
  assert (Hmp : 153 * mp <= 5 * doy + 2 < 153 * mp + 153) by (subst mp; divmod).
  assert (Hdoy' : doy = doq - a * 365) by reflexivity.
  clearbody mp doy a doq q doc c doe era. clear z z'.
  assert (Hcase : 0 <= mp <= 11) by lia.
  unfold days_in_month, is_leap.
  repeat match goal with
         | |- context [if ?b then _ else _] => destruct b eqn:?
         end; try divmod.
  assert (mp = 11) by lia. subst mp.
  destruct (Z.eq_dec doy 365) as [E | E]; [ exfalso | divmod ].
  destruct Hdoy as [_ Ha3]. specialize (Ha3 E). subst a.
  replace (11 - 9 <=? 2) with true in * by reflexivity.
  assert (Hy4 : (era * 400 + c * 100 + q * 4 + 3 + 1) mod 4 = 0) by divmod.
  apply Z.eqb_eq in Hy4. rewrite Hy4 in *. simpl andb in *.
  destruct (Z.eq_dec q 24) as [-> | Hq24].
  - assert (c = 3) by lia. subst c.
    replace ((era * 400 + 3 * 100 + 24 * 4 + 3 + 1) mod 400) with 0 in * by divmod.
    rewrite orb_true_r in *. discriminate.
  - assert (Hy100 : (era * 400 + c * 100 + q * 4 + 3 + 1) mod 100 <> 0) by divmod.
    apply Z.eqb_neq in Hy100. rewrite Hy100 in *. discriminate.
Qed.

(** *** Fixed-width fields *)

Lemma digit_value_char d : 0 <= d <= 9 -> digit_value (digit_char d) = Some d.
Proof.
  intros H.
  assert (Hd : d = 0 \/ d = 1 \/ d = 2 \/ d = 3 \/ d = 4 \/ d = 5 \/ d = 6 \/ d = 7 \/
               d = 8 \/ d = 9) by lia.
  destruct Hd as [-> | [-> | [-> | [-> | [-> | [-> | [-> | [-> | [-> | ->]]]]]]]]]; reflexivity.
Qed.

Lemma read_fixed_pad n : forall x acc rest,
  0 <= x < 10 ^ Z.of_nat n ->
  read_fixed n acc (pad n x ++ rest) = Some (acc * 10 ^ Z.of_nat n + x, rest).
Proof.
  induction n as [ | n IH ]; intros x acc rest Hx.
  - simpl in *. f_equal. f_equal. lia.
  - assert (Hp : 0 < 10 ^ Z.of_nat n) by (apply Z.pow_pos_nonneg; lia).
    assert (Hs : 10 ^ Z.of_nat (S n) = 10 * 10 ^ Z.of_nat n).
    { rewrite Nat2Z.inj_succ, Z.pow_succ_r by lia. reflexivity. }
    rewrite Hs in *.
    cbn [pad read_fixed app].
    assert (Hd : 0 <= x / 10 ^ Z.of_nat n <= 9).
    { split; [ apply Z.div_pos; lia | ].
      assert (x / 10 ^ Z.of_nat n < 10); [ apply Z.div_lt_upper_bound; lia | lia ]. }
    rewrite (digit_value_char _ Hd).
    rewrite IH by (apply Z.mod_pos_bound; lia).
    f_equal. f_equal.
    pose proof (Z.div_mod x (10 ^ Z.of_nat n) ltac:(lia)). nia.
Qed.

Lemma read_pad n x rest :
  0 <= x < 10 ^ Z.of_nat n -> read_fixed n 0 (pad n x ++ rest) = Some (x, rest).
Proof. intros H. rewrite read_fixed_pad by exact H. reflexivity. Qed.

Lemma read_year_write y rest :
  -999999 <= y <= 999999 -> read_year (write_year y ++ rest) = Some (y, rest).
Proof.
  intros Hy. unfold write_year.
  destruct (Z.leb_spec 0 y) as [H0 | H0]; [ destruct (Z.leb_spec y 9999) as [H1 | H1] | ]; simpl andb; cbv iota.
  - assert (Hd : 0 <= y / 10 ^ 3 <= 9).
    { split; [ apply Z.div_pos; lia | ].
      assert (y / 10 ^ 3 < 10); [ apply Z.div_lt_upper_bound; lia | lia ]. }
    assert (Hr : read_year (pad 4 y ++ rest) = read_fixed 4 0 (pad 4 y ++ rest)).
    { change (pad 4 y) with (digit_char (y / 10 ^ 3) :: pad 3 (y mod 10 ^ 3)).
      assert (Hc : y / 10 ^ 3 = 0 \/ y / 10 ^ 3 = 1 \/ y / 10 ^ 3 = 2 \/ y / 10 ^ 3 = 3 \/
                   y / 10 ^ 3 = 4 \/ y / 10 ^ 3 = 5 \/ y / 10 ^ 3 = 6 \/ y / 10 ^ 3 = 7 \/
                   y / 10 ^ 3 = 8 \/ y / 10 ^ 3 = 9) by lia.
      destruct Hc as [-> | [-> | [-> | [-> | [-> | [-> | [-> | [-> | [-> | ->]]]]]]]]];
        reflexivity. }
    rewrite Hr. apply (read_pad 4). simpl. lia.
  - destruct (Z.ltb_spec y 0); [ lia | ].
    rewrite <- app_comm_cons. unfold read_year. cbv iota.
    replace (Z.abs y) with y by lia. apply (read_pad 6). simpl. lia.
  - destruct (Z.ltb_spec y 0); [ | lia ].
    rewrite <- app_comm_cons. unfold read_year. cbv iota.
    rewrite (read_pad 6) by (simpl; lia).
    destruct (Z.eqb_spec (Z.abs y) 0); [ lia | ]. f_equal. f_equal. lia.
Qed.

Lemma read_fields_write f : in_range f -> read_fields (write_fields f) = Some f.
Proof.
  intros [Hy Hmo Hd Hh Hmi Hs Hms]. unfold read_fields, write_fields.
  rewrite read_year_write by exact Hy. cbn [read_sep Ascii.eqb Bool.eqb].
  rewrite (read_pad 2) by exact Hmo. cbn [read_sep Ascii.eqb Bool.eqb].
  rewrite (read_pad 2) by exact Hd. cbn [read_sep Ascii.eqb Bool.eqb].
  rewrite (read_pad 2) by exact Hh. cbn [read_sep Ascii.eqb Bool.eqb].
  rewrite (read_pad 2) by exact Hmi. cbn [read_sep Ascii.eqb Bool.eqb].
  rewrite (read_pad 2) by exact Hs. cbn [read_sep Ascii.eqb Bool.eqb].
  rewrite <- (app_nil_r (pad 3 (f_ms f) ++ ["Z"])), <- app_assoc.
  rewrite (read_pad 3) by exact Hms. destruct f; reflexivity.
Qed.

Lemma civil_year_bound z :
  -100000000 <= z <= 100000000 ->
  let '(y, m, d) := civil_from_days z in -999999 <= y <= 999999.
Proof.
  intros Hz. unfold civil_from_days.
  set (z' := z + 719468).
  set (era := z' / 146097). set (doe := z' mod 146097).
  set (c := Z.min (doe / 36524) 3). set (doc := doe - c * 36524).
  set (q := doc / 1461). set (doq := doc mod 1461).
  set (a := Z.min (doq / 365) 3).
  assert (Hera : -700 <= era <= 700) by (subst era z'; divmod).
  assert (Hdoe : 0 <= doe < 146097) by (subst doe; apply Z.mod_pos_bound; lia).
  assert (Hc : 0 <= c <= 3) by (subst c; divmod).
  assert (Hdoc : 0 <= doc <= 36524) by (subst doc c; divmod).
  assert (Hq : 0 <= q <= 24) by (subst q; divmod).
  assert (Hdoq : 0 <= doq < 1461) by (subst doq; apply Z.mod_pos_bound; lia).
  assert (Ha : 0 <= a <= 3) by (subst a; divmod).
  match goal with |- context [if ?b then _ else _] => destruct b end; lia.
Qed.

Lemma days_in_month_le y m : days_in_month y m <= 31.
Proof.
  unfold days_in_month.
  repeat match goal with |- context [if ?b then _ else _] => destruct b end; lia.
Qed.

Lemma TimeClip_in_range t : Z.abs t <= max_time -> TimeClip t = Some t.
Proof. unfold TimeClip. intros H. destruct (Z.leb_spec (Z.abs t) max_time); [ reflexivity | lia ]. Qed.

Lemma fields_of_time_spec t :
  Z.abs t <= max_time ->
  in_range (fields_of_time t) /\ legal (fields_of_time t) = true /\
  time_of_fields (fields_of_time t) = t.
Proof.
  intros Ht. unfold fields_of_time, max_time, ms_per_day in *.
  set (z := t / 86400000). set (r := t mod 86400000).
  assert (Hz : -100000000 <= z <= 100000000) by (subst z; divmod).
  assert (Hr : 0 <= r < 86400000) by (subst r; apply Z.mod_pos_bound; lia).
  assert (Ht' : t = z * 86400000 + r) by (subst z r; divmod).
  pose proof (civil_days z) as Hdays. pose proof (civil_legal z) as Hlegal.
  pose proof (civil_year_bound z Hz) as Hyear.
  destruct (civil_from_days z) as [[y m] d].
  pose proof (days_in_month_le y m) as Hdim.
  assert (Hh : 0 <= r / 3600000 <= 23) by divmod.
  assert (Hmi : 0 <= (r / 60000) mod 60 <= 59) by divmod.
  assert (Hs : 0 <= (r / 1000) mod 60 <= 59) by divmod.
  assert (Hms : 0 <= r mod 1000 <= 999) by divmod.
  split; [ constructor; simpl; lia | ].
  split.
  - unfold legal. simpl.
    repeat match goal with
           | |- context [?a <=? ?b] => destruct (Z.leb_spec a b); [ | lia ]
           end. reflexivity.
  - unfold time_of_fields, ms_per_day. simpl. rewrite Hdays.
    clear Hdays Hlegal Hyear Hdim Hh Hmi Hs Hms. divmod.
Qed.

(** `Date.parse` reads back what `toISOString` writes, for every time value
    a `Date` can hold. *)
Lemma parse_iso_toISOString t :
  Z.abs t <= max_time -> parse_iso (toISOString t) = Some (Some t).
Proof.
  intros Ht. destruct (fields_of_time_spec t Ht) as (Hr & Hl & Htime).
  unfold parse_iso, toISOString.
  rewrite list_ascii_of_string_of_list_ascii, read_fields_write by exact Hr.
  rewrite Hl, Htime, TimeClip_in_range by exact Ht. reflexivity.
Qed.

End JsDateFacts.

(** * Lookup in an object after its properties are defined *)
Module PropsFacts.
Local Open Scope string_scope.
Import Json Js Client.
Import JsonFacts ObjFacts.

Section Props.
Context {A : Type}.
Implicit Types (o l : list (string * A)) (k : string) (v : A).

Lemma get_app k o1 o2 :
  get k (o1 ++ o2) = match get k o1 with Some v => Some v | None => get k o2 end.
Proof.
  induction o1 as [ | [k' v'] o1 IH ]; simpl; [ reflexivity | ].
  destruct (String.eqb k k'); [ reflexivity | exact IH ].
Qed.

Lemma get_replace_eq k v w o : get k o = Some w -> get k (replace k v o) = Some v.
Proof.
  induction o as [ | [k' v'] o IH ]; simpl; [ discriminate | ].
  destruct (String.eqb k k') eqn:E; simpl; rewrite E; [ reflexivity | exact IH ].
Qed.

Lemma get_replace_ne k k' v o : k <> k' -> get k (replace k' v o) = get k o.
Proof.
  intros Hne. induction o as [ | [k2 v2] o IH ]; simpl; [ reflexivity | ].
  destruct (String.eqb_spec k' k2) as [-> | Hne2]; simpl.
  - apply String.eqb_neq in Hne. rewrite Hne. reflexivity.
  - rewrite IH. reflexivity.
Qed.

Lemma get_insert_index_eq i k v o : get k o = None -> get k (insert_index i k v o) = Some v.
Proof.
  induction o as [ | [k' v'] o IH ]; simpl.
  - rewrite String.eqb_refl. reflexivity.
  - destruct (String.eqb k k') eqn:E; [ discriminate | ]. intros Hg.
    destruct (array_index k') as [j | ]; [ destruct (j <? i)%N | ]; simpl;
      rewrite ?E, ?String.eqb_refl; auto.
Qed.

Lemma get_insert_index_ne i k k' v o : k <> k' -> get k (insert_index i k' v o) = get k o.
Proof.
  intros Hne. apply String.eqb_neq in Hne.
  induction o as [ | [k2 v2] o IH ]; simpl.
  - rewrite Hne. reflexivity.
  - destruct (array_index k2) as [j | ]; [ destruct (j <? i)%N | ]; simpl;
      rewrite ?Hne, ?IH; reflexivity.
Qed.

Lemma get_define_eq k v o : get k (define k v o) = Some v.
Proof.
  unfold define. destruct (get k o) as [w | ] eqn:Hg.
  - apply (get_replace_eq _ _ w), Hg.
  - destruct (array_index k).
    + apply get_insert_index_eq, Hg.
    + rewrite get_app, Hg. simpl. rewrite String.eqb_refl. reflexivity.
Qed.

Lemma get_define_ne k k' v o : k <> k' -> get k (define k' v o) = get k o.
Proof.
  intros Hne. unfold define. destruct (get k' o) as [w | ].
  - apply get_replace_ne, Hne.
  - destruct (array_index k').
    + apply get_insert_index_ne, Hne.
    + rewrite get_app. simpl. apply String.eqb_neq in Hne. rewrite Hne.
      destruct (get k o); reflexivity.
Qed.

Lemma replace_same k v o : get k o = Some v -> replace k v o = o.
Proof.
  induction o as [ | [k' v'] o IH ]; simpl; [ reflexivity | ].
  destruct (String.eqb_spec k k') as [-> | Hne].
  - intros [= ->]. reflexivity.
  - intros Hg. rewrite IH by exact Hg. reflexivity.
Qed.

Lemma define_same k v o : get k o = Some v -> define k v o = o.
Proof. intros Hg. unfold define. rewrite Hg. apply replace_same, Hg. Qed.

Lemma get_define_all_notin l : forall k o,
  ~ In k (map fst l) -> get k (define_all l o) = get k o.
Proof.
  induction l as [ | [k' v'] l IH ]; intros k o Hk; [ reflexivity | ].
  simpl in *. unfold define_all in *. simpl. rewrite IH by tauto.
  apply get_define_ne. intros ->. tauto.
Qed.

Lemma get_define_all_in l : forall k v o,
  List.NoDup (map fst l) -> In (k, v) l -> get k (define_all l o) = Some v.
Proof.
  induction l as [ | [k' v'] l IH ]; intros k v o Hnd Hin; [ destruct Hin | ].
  simpl in Hnd. inversion Hnd as [ | ? ? Hk' Hnd' ]; subst.
  unfold define_all in *. simpl. destruct Hin as [[= -> ->] | Hin].
  - pose proof (get_define_all_notin l k (define k v o) Hk') as Hn.
    unfold define_all in Hn. rewrite Hn. apply get_define_eq.
  - apply IH; assumption.
Qed.

Lemma define_all_same l : forall o,
  (forall k v, In (k, v) l -> get k o = Some v) -> define_all l o = o.
Proof.
  induction l as [ | [k v] l IH ]; intros o Ho; [ reflexivity | ].
  unfold define_all in *. simpl. rewrite define_same by (apply Ho; left; reflexivity).
  apply IH. intros k' v' Hin. apply Ho. right. exact Hin.
Qed.

(** Laying the same entries over an object a second time changes nothing. *)
Lemma define_all_idem l o :
  List.NoDup (map fst l) -> define_all l (define_all l o) = define_all l o.
Proof.
  intros Hnd. apply define_all_same. intros k v Hin. apply get_define_all_in; assumption.
Qed.

Lemma sorted_NoDup ks : sorted ks -> List.NoDup ks.
Proof.
  induction ks as [ | k ks IH ]; simpl; [ constructor | ].
  intros [Hb Hs]. constructor; [ | apply IH, Hs ].
  intros Hin. rewrite List.Forall_forall in Hb. destruct (Hb k Hin) as [Hne _]. apply Hne. reflexivity.
Qed.

Lemma canonical_NoDup o : canonical o -> List.NoDup (map fst o).
Proof. apply sorted_NoDup. Qed.

Lemma get_in_canonical k v o : canonical o -> In (k, v) o -> get k o = Some v.
Proof.
  intros Hc Hin. rewrite <- (define_all_canonical o Hc).
  apply get_define_all_in; [ apply canonical_NoDup, Hc | exact Hin ].
Qed.

Lemma get_some_iff k o : (exists v, get k o = Some v) <-> In k (map fst o).
Proof.
  pose proof (get_none k o) as Hn. destruct (get k o) as [w | ].
  - split; [ intros _ | eauto ].
    destruct (in_dec string_dec k (map fst o)) as [Hin | Hout]; [ exact Hin | ].
    apply Hn in Hout. discriminate.
  - split; [ intros [v Hv]; discriminate | ].
    intros Hin. exfalso. apply (proj1 Hn); [ reflexivity | exact Hin ].
Qed.

Lemma keys_define k k' v o :
  In k' (map fst (define k v o)) <-> k' = k \/ In k' (map fst o).
Proof.
  rewrite <- !get_some_iff. destruct (string_dec k' k) as [-> | Hne].
  - rewrite get_define_eq. split; eauto.
  - rewrite get_define_ne by exact Hne. split; [ tauto | intros [E | Hex]; [ contradiction | exact Hex ] ].
Qed.

Lemma keys_define_all l : forall k o,
  In k (map fst (define_all l o)) <-> In k (map fst l) \/ In k (map fst o).
Proof.
  induction l as [ | [k' v'] l IH ]; intros k o; simpl; [ tauto | ].
  unfold define_all in *. simpl. rewrite IH, keys_define. simpl. intuition congruence.
Qed.

Lemma Permutation_replace_absent k v o : get k o = None -> replace k v o = o.
Proof.
  induction o as [ | [k' v'] o IH ]; simpl; [ reflexivity | ].
  destruct (String.eqb k k'); [ discriminate | ]. intros Hg. rewrite IH by exact Hg. reflexivity.
Qed.

Lemma Permutation_insert_index i k v o : Permutation (insert_index i k v o) ((k, v) :: o).
Proof.
  induction o as [ | [k' v'] o IH ]; simpl; [ reflexivity | ].
  destruct (array_index k') as [j | ]; [ destruct (j <? i)%N | ]; try reflexivity.
  rewrite IH. apply perm_swap.
Qed.

Lemma Permutation_define k v o : get k o = None -> Permutation (define k v o) ((k, v) :: o).
Proof.
  intros Hg. unfold define. rewrite Hg. destruct (array_index k).
  - apply Permutation_insert_index.
  - symmetry. apply Permutation_cons_append.
Qed.

Lemma Permutation_define_all l : forall o,
  List.NoDup (map fst l) -> (forall k, In k (map fst l) -> get k o = None) ->
  Permutation (define_all l o) (o ++ l).
Proof.
  induction l as [ | [k v] l IH ]; intros o Hnd Ho.
  - simpl. rewrite app_nil_r. reflexivity.
  - simpl in Hnd. inversion Hnd as [ | ? ? Hk Hnd' ]; subst.
    unfold define_all in *. simpl. rewrite IH.
    + rewrite Permutation_define by (apply Ho; left; reflexivity).
      simpl. apply Permutation_middle.
    + exact Hnd'.
    + intros k' Hin. rewrite get_define_ne; [ apply Ho; right; exact Hin | ].
      intros ->. contradiction.
Qed.

End Props.

End PropsFacts.

(** * What getSetCookie builds *)
Module CodecFacts.
Local Open Scope string_scope.
Import Json Js Client Spec.
Import JsonFacts ObjFacts PropsFacts.

Lemma wf_entry_json v e : wf e -> wf (entry_json v e).
Proof.
  intros He. apply wf_obj.
  - unfold canonical. simpl. repeat split; try discriminate; repeat constructor; discriminate.
  - repeat constructor; assumption.
Qed.

Lemma wf_indexed (vs : list json) i :
  Forall wf vs -> Forall (fun kv => wf (snd kv)) (indexed i vs).
Proof.
  intros Hvs. revert i. induction Hvs as [ | v vs Hv Hvs IH ]; intros i; simpl;
    constructor; [ exact Hv | apply IH ].
Qed.

Lemma wf_own_entries v : wf v -> Forall (fun kv => wf (snd kv)) (own_entries v).
Proof.
  destruct v as [ | b | m e | s | vs | ms ]; intros Hwf; simpl.
  - constructor.
  - constructor.
  - constructor.
  - apply wf_indexed. induction (list_ascii_of_string s); simpl; constructor;
      [ constructor | assumption ].
  - inversion Hwf; subst. apply wf_indexed. assumption.
  - inversion Hwf; subst; assumption.
Qed.

Lemma JSON_stringify_nonempty v : Str.nonempty (JSON_stringify v) = true.
Proof.
  unfold JSON_stringify.
  pose proof (write_value_starts v []) as Hs. rewrite app_nil_r in Hs.
  destruct (write_value v); [ destruct Hs | reflexivity ].
Qed.

Section Client.
Context `{Engine} `{Cookies}.

Lemma shaped_wf v : shaped v -> wf v.
Proof.
  intros (s & e & -> & [-> | [iso ->]]); apply wf_entry_json; constructor.
Qed.

Lemma stored_entry_shaped now c e : stored_entry now c = Normal e -> shaped e.
Proof.
  unfold stored_entry. destruct (cookie_expires now c) as [d | ].
  - destruct d as [t | ]; simpl; [ | discriminate ].
    intros [= <-]. eexists _, _. split; [ reflexivity | right; eauto ].
  - intros [= <-]. eexists _, _. split; [ reflexivity | left; reflexivity ].
Qed.

Lemma fold_step_throw now l e : fold_left (step now) l (Throw e) = Throw e.
Proof. induction l as [ | kc l IH ]; simpl; [ reflexivity | exact IH ]. Qed.

Lemma canonical_assign k (v : json) o : canonical o -> canonical (assign k v o).
Proof. unfold assign. destruct (String.eqb k "__proto__"); [ trivial | apply canonical_define ]. Qed.

Lemma Forall_assign (P : json -> Prop) k v o :
  P v -> Forall (fun kv => P (snd kv)) o -> Forall (fun kv => P (snd kv)) (assign k v o).
Proof.
  unfold assign. destruct (String.eqb k "__proto__"); [ trivial | apply Forall_define ].
Qed.

Lemma fold_step_spec now l : forall o T,
  fold_left (step now) l (Normal o) = Normal T ->
  (canonical o -> canonical T) /\
  (Forall (fun kv => shaped (snd kv)) o -> Forall (fun kv => shaped (snd kv)) T).
Proof.
  induction l as [ | [k c] l IH ]; intros o T; simpl.
  - intros [= <-]. tauto.
  - destruct (stored_entry now c) as [e | err] eqn:He; simpl.
    + intros Hf. destruct (IH _ _ Hf) as [Hc Hs]. split; intros Ho.
      * apply Hc, canonical_assign, Ho.
      * apply Hs, Forall_assign; [ apply (stored_entry_shaped _ _ _ He) | exact Ho ].
    + rewrite fold_step_throw. discriminate.
Qed.

Lemma collect_spec now parsed T :
  collect now parsed = Normal T ->
  canonical T /\ Forall (fun kv => shaped (snd kv)) T.
Proof.
  intros Hc. destruct (fold_step_spec now (Map_of parsed) [] T Hc) as [H1 H2].
  split; [ apply H1; exact I | apply H2; constructor ].
Qed.

Lemma Forall_shaped_wf (o : list (string * json)) :
  Forall (fun kv => shaped (snd kv)) o -> Forall (fun kv => wf (snd kv)) o.
Proof. apply List.Forall_impl. intros kv. apply shaped_wf. Qed.

Lemma merge_spec T prev :
  canonical T -> Forall (fun kv => wf (snd kv)) T ->
  wf (JObj (merge T prev)) /\
  (merge T prev = T \/ exists X, merge T prev = define_all T X).
Proof.
  intros Hc Hw. unfold merge.
  destruct prev as [p | ]; [ | split; [ constructor; assumption | left; reflexivity ] ].
  destruct (Str.nonempty p); [ | split; [ constructor; assumption | left; reflexivity ] ].
  destruct (JSON_parse p) as [P | ] eqn:HP;
    [ | split; [ constructor; assumption | left; reflexivity ] ].
  split; [ | right; eauto ].
  apply JSON_parse_wf in HP. constructor.
  - apply canonical_define_all. unfold spread. apply canonical_define_all. exact I.
  - apply Forall_define_all; [ exact Hw | ].
    unfold spread. apply Forall_define_all; [ apply wf_own_entries, HP | constructor ].
Qed.

(** Merging the result of a merge again, with the same incoming entries,
    gives the same record. *)
Lemma merge_again T prev :
  canonical T -> Forall (fun kv => wf (snd kv)) T ->
  merge T (Some (JSON_stringify (JObj (merge T prev)))) = merge T prev.
Proof.
  intros Hc Hw. destruct (merge_spec T prev Hc Hw) as [Hwf Hshape].
  set (M := merge T prev) in *.
  unfold merge at 1. rewrite JSON_stringify_nonempty, (JSON_parse_stringify _ Hwf).
  unfold spread. simpl own_entries.
  assert (HcM : canonical M) by (inversion Hwf; assumption).
  rewrite (define_all_canonical M HcM).
  destruct Hshape as [-> | [X ->]].
  - apply define_all_same. intros k v Hin. apply get_in_canonical; assumption.
  - apply define_all_idem, canonical_NoDup, Hc.
Qed.

End Client.

End CodecFacts.

(** * Merging response cookies into the jar *)
Module MergeTheorems.
Local Open Scope string_scope.
Import Json Js Client Spec.
Import JsonFacts ObjFacts PropsFacts CodecFacts.

Section Client.
Context `{Engine} `{Cookies}.

Lemma stored_entry_clock now1 now2 c :
  number_truthy (attr_max_age c) = false -> stored_entry now1 c = stored_entry now2 c.
Proof. intros Hm. unfold stored_entry, cookie_expires. rewrite Hm. reflexivity. Qed.

Lemma fold_step_clock now1 now2 l : forall acc,
  forallb (fun kc => negb (number_truthy (attr_max_age (snd kc)))) l = true ->
  fold_left (step now1) l acc = fold_left (step now2) l acc.
Proof.
  induction l as [ | [k c] l IH ]; intros acc Hl; [ reflexivity | ].
  simpl in Hl. apply andb_true_iff in Hl. destruct Hl as [Hc Hl].
  apply negb_true_iff in Hc. simpl. rewrite <- IH by exact Hl.
  f_equal. unfold step. simpl. rewrite (stored_entry_clock now1 now2 c Hc). reflexivity.
Qed.

Lemma collect_clock now1 now2 header :
  now1 = now2 \/ clock_free header = true ->
  collect now2 (parseSetCookieHeader header) = collect now1 (parseSetCookieHeader header).
Proof.
  intros [-> | Hfree]; [ reflexivity | ].
  symmetry. apply fold_step_clock. exact Hfree.
Qed.

(** C9, as amended. Merging the same header a second time into the result
    of the first merge changes nothing, whatever the previous jar held (a
    record, any other JSON, a malformed text or none), when both merges
    read the same clock value or the header has no max-age the program acts
    on; this covers the case where the merge throws. *)
Theorem getSetCookie_idempotent (now1 now2 : Z) (header : string) (prev : option string) :
  now1 = now2 \/ clock_free header = true ->
  (r <- getSetCookie now1 header prev ;; getSetCookie now2 header (Some r))
  = getSetCookie now1 header prev.
Proof.
  intros Hclock. unfold getSetCookie. rewrite (collect_clock now1 now2 header Hclock).
  destruct (collect now1 (parseSetCookieHeader header)) as [T | e] eqn:HT; unfold bind;
    [ | reflexivity ].
  destruct (collect_spec _ _ _ HT) as [Hc Hs].
  rewrite (merge_again T prev Hc (Forall_shaped_wf _ Hs)). reflexivity.
Qed.

Lemma entry_view_shaped v : shaped v -> exists c, entry_view v = Some c.
Proof. intros (s & e & -> & [-> | [iso ->]]); eexists; reflexivity. Qed.

Lemma viewable_record o : viewable o <-> exists r, record_view o = Some r.
Proof.
  induction o as [ | [k v] o IH ]; simpl.
  - split; [ eauto | constructor ].
  - split.
    + intros Hv. inversion Hv as [ | ? ? [c Hc] Ho ]; subst. simpl in Hc.
      apply IH in Ho. destruct Ho as [r Hr]. rewrite Hc, Hr. eauto.
    + intros [r Hr]. destruct (entry_view v) as [c | ] eqn:Hc; [ | discriminate ].
      destruct (record_view o) as [r' | ] eqn:Hr'; [ | discriminate ].
      constructor; [ simpl; eauto | apply IH; eauto ].
Qed.

Lemma merge_viewable T prev :
  viewable T -> record_or_nothing prev -> viewable (merge T prev).
Proof.
  intros HT Hprev. unfold merge. destruct prev as [p | ]; [ | exact HT ].
  destruct (Str.nonempty p); [ | exact HT ].
  destruct Hprev as [-> | (r & o & -> & Hr)]; [ exact HT | ].
  unfold viewable.
  apply (Forall_define_all (fun v => exists c, entry_view v = Some c)); [ exact HT | ].
  unfold spread.
  apply (Forall_define_all (fun v => exists c, entry_view v = Some c)); [ | constructor ].
  simpl. apply viewable_record. eauto.
Qed.

Lemma get_fold_assign now l : forall o T name,
  fold_left (step now) l (Normal o) = Normal T ->
  name <> "__proto__" ->
  In name (map fst l) \/ (exists v, get name o = Some v /\ shaped v) ->
  exists v, get name T = Some v /\ shaped v.
Proof.
  induction l as [ | [k c] l IH ]; intros o T name; simpl.
  - intros [= <-] _ [[] | Ho]. exact Ho.
  - destruct (stored_entry now c) as [e | err] eqn:He; simpl;
      [ | rewrite fold_step_throw; discriminate ].
    intros Hf Hname Hin. apply (IH _ _ _ Hf Hname).
    destruct (string_dec name k) as [-> | Hne].
    + right. exists e. split; [ | apply (stored_entry_shaped _ _ _ He) ].
      unfold assign. apply String.eqb_neq in Hname. rewrite Hname. apply get_define_eq.
    + destruct Hin as [[E | Hin] | (v & Hv & Hs)]; [ congruence | left; exact Hin | ].
      right. exists v. split; [ | exact Hs ].
      unfold assign. destruct (String.eqb k "__proto__"); [ exact Hv | ].
      rewrite get_define_ne by exact Hne. exact Hv.
Qed.

Lemma get_merge T prev name v :
  canonical T -> get name T = Some v -> get name (merge T prev) = Some v.
Proof.
  intros Hc Hg. unfold merge. destruct prev as [p | ]; [ | exact Hg ].
  destruct (Str.nonempty p); [ | exact Hg ].
  destruct (JSON_parse p); [ | exact Hg ].
  apply get_define_all_in; [ apply canonical_NoDup, Hc | ].
  apply get_some_in, Hg.
Qed.

(** C10, as amended. Whatever the header and the previous jar, a string
    getSetCookie returns parses as a JSON object, so getCookie never takes
    its malformed-text branch on it; every incoming name other than
    `__proto__` maps in it to a {value, expires} entry; the whole object is
    a record when the previous jar was absent, malformed or a record;
    whether getSetCookie returns does not depend on the previous jar; and
    the literal the plugin persists on sign-out holds the empty record. *)
Theorem getSetCookie_jar_well_formed (now : Z) (header : string) (prev : option string)
  (s : string) :
  getSetCookie now header prev = Normal s ->
  exists o,
    JSON_parse s = Some (JObj o) /\
    (forall name, In name (map fst (incoming header)) -> name <> "__proto__" ->
       exists v c, get name o = Some v /\ entry_view v = Some c) /\
    (record_or_nothing prev -> exists r, record_view o = Some r) /\
    (forall prev', exists s', getSetCookie now header prev' = Normal s') /\
    holds "{}" [].
Proof.
  unfold getSetCookie.
  destruct (collect now (parseSetCookieHeader header)) as [T | e] eqn:HT; unfold bind;
    [ | discriminate ].
  intros [= <-]. destruct (collect_spec _ _ _ HT) as [Hc Hs].
  destruct (merge_spec T prev Hc (Forall_shaped_wf _ Hs)) as [Hwf _].
  exists (merge T prev). split; [ apply JSON_parse_stringify, Hwf | ].
  split; [ | split; [ | split ] ].
  - intros name Hin Hname.
    destruct (get_fold_assign now (incoming header) [] T name HT Hname (or_introl Hin))
      as (v & Hv & Hshape).
    destruct (entry_view_shaped v Hshape) as [c Hview].
    exists v, c. split; [ apply get_merge; assumption | exact Hview ].
  - intros Hprev. apply viewable_record, merge_viewable; [ | exact Hprev ].
    eapply List.Forall_impl; [ | exact Hs ]. intros kv. apply entry_view_shaped.
  - intros prev'. eexists. reflexivity.
  - exists []. split; reflexivity.
Qed.

End Client.

End MergeTheorems.

(** * Reading the jar *)
Module RecordTheorems.
Local Open Scope string_scope.
Import Json Js Spec Str Client.
Import JsonFacts ObjFacts PropsFacts CodecFacts.

Lemma JSON_parse_nonempty s v : JSON_parse s = Some v -> Str.nonempty s = true.
Proof. destruct s; [ discriminate | reflexivity ]. Qed.

Lemma entry_view_value v c :
  entry_view v = Some c -> opt_prop (Some v) "value" = Some (JStr (value c)).
Proof.
  destruct v as [ | | | | | o ]; try discriminate. simpl.
  destruct (get "value" o) as [[ | | | s | | ] | ]; try discriminate.
  destruct (get "expires" o) as [[ | | | e | | ] | ]; try discriminate;
    intros [= <-]; reflexivity.
Qed.


Lemma get_record_view k o r :
  record_view o = Some r ->
  get k r = match get k o with Some v => entry_view v | None => None end.
Proof.
  revert r. induction o as [ | [k' v] o IH ]; intros r; simpl.
  - intros [= <-]. reflexivity.
  - destruct (entry_view v) as [c | ] eqn:Hc; [ | discriminate ].
    destruct (record_view o) as [r' | ]; [ | discriminate ].
    intros [= <-]. simpl. destruct (String.eqb k k'); [ symmetry; exact Hc | apply IH; reflexivity ].
Qed.


Lemma value_record_view k o r :
  record_view o = Some r ->
  opt_prop (get k o) "value" = option_map JStr (value_of k r).
Proof.
  intros Hr. unfold value_of. rewrite (get_record_view k o r Hr).
  destruct (get k o) as [v | ] eqn:Hg; [ | reflexivity ].
  destruct (entry_view v) as [c | ] eqn:Hc.
  - apply entry_view_value, Hc.
  - exfalso. apply get_some_in in Hg.
    assert (Hv : viewable o) by (apply MergeTheorems.viewable_record; eauto).
    unfold viewable in Hv. rewrite List.Forall_forall in Hv.
    destruct (Hv _ Hg) as [c' Hc']. simpl in Hc'. congruence.
Qed.

Section Dated.
Context `{Engine}.






End Dated.

(** *** Session change *)



Lemma strict_equal_strings (a b : option string) :
  strict_equal (option_map JStr a) (option_map JStr b) = true <-> a = b.
Proof.
  destruct a as [a | ], b as [b | ]; simpl.
  - rewrite String.eqb_eq. split; congruence.
  - split; discriminate.
  - split; discriminate.
  - tauto.
Qed.

Lemma value_of_values k r : value_of k r = get k (values r).
Proof.
  unfold value_of, values. induction r as [ | [k' c] r IH ]; simpl; [ reflexivity | ].
  destruct (String.eqb k k'); [ reflexivity | exact IH ].
Qed.

Section Client.
Context `{Engine} `{Cookies}.


End Client.

End RecordTheorems.

(** * Classifying cookies and finding the session token *)
Module ClassifierTheorems.
Local Open Scope string_scope.
Import Json Js Spec Str Client.
Import JsonFacts ObjFacts PropsFacts CodecFacts RecordTheorems.




Section Client.
Context `{Engine} `{Cookies}.



End Client.

End ClassifierTheorems.

(** * The hooks of the plugin *)
Module PluginTheorems.
Local Open Scope string_scope.
Import Json Js Spec Str Client.
Import JsonFacts ObjFacts PropsFacts CodecFacts RecordTheorems ClassifierTheorems.


Section Plugin.
Context `{Engine} `{Cookies}.




(** C7. On a native platform with its storage, a request whose URL contains
    `/sign-out` leaves `init`, before the request is sent, with the jar
    reset to the text "{}", which holds the empty record, the session-data
    cache reset to "{}", and the in-memory session, when there is a store, holding
    data null, error null and isPending false. *)
Theorem init_sign_out_clears (opts : CapacitorClientOptions) (url : string)
  (options : option RequestInit) (w : World) :
  native w = true -> has_preferences w = true ->
  Str.includes url "/sign-out" = true ->
  exists options' w',
    init opts url options w = (Normal (url, Some options'), w') /\
    preferences w' !! normalizeCookieName (cookieName opts) = Some "{}" /\
    preferences w' !! normalizeCookieName (localCacheName opts) = Some "{}" /\
    holds "{}" [] /\
    session w' = option_map cleared (session w) /\
    (forall st, session w' = Some st ->
       s_data st = JNull /\ s_error st = JNull /\ s_isPending st = false).
Proof.
  intros Hnative Hprefs Hout.
  unfold init, and_then, isNativePlatform, getPreferencesMod, Preferences_get,
    Preferences_set, clear_session, ret.
  rewrite Hnative. cbn [negb]. rewrite Hprefs, Hout.
  match goal with
  | |- context [let '(h, b) := ?x in _] => destruct x as [h2 b2]
  end.
  eexists _, _. split; [ reflexivity | ]. simpl.
  split; [ | split; [ | split; [ | split ] ] ].
  - rewrite lookup_insert. case_decide; [ reflexivity | ]. apply lookup_insert_eq.
  - apply lookup_insert_eq.
  - exists []. split; reflexivity.
  - reflexivity.
  - intros st Hst. destruct (session w) as [st0 | ]; [ | discriminate ].
    injection Hst as <-. repeat split.
Qed.

End Plugin.

End PluginTheorems.

(** * From the response header to the request header *)
Module RoundTrip.
Local Open Scope string_scope.
Import Json Js Spec Str Client.
Import JsonFacts ObjFacts PropsFacts CodecFacts RecordTheorems ClassifierTheorems JsDateFacts.

Lemma NoDup_keys_Map_set {A : Type} k (v : A) m :
  List.NoDup (map fst m) -> List.NoDup (map fst (Map_set k v m)).
Proof.
  intros Hnd. unfold Map_set. destruct (get k m) as [w | ] eqn:Hg.
  - rewrite keys_replace. exact Hnd.
  - rewrite map_app. simpl.
    apply (Permutation_NoDup (Permutation_cons_append (map fst m) k)).
    constructor; [ apply get_none, Hg | exact Hnd ].
Qed.

Lemma NoDup_keys_Map_of {A : Type} (sets : list (string * A)) :
  List.NoDup (map fst (Map_of sets)).
Proof.
  unfold Map_of.
  assert (Hgen : forall m, List.NoDup (map fst m) ->
            List.NoDup (map fst (fold_left (fun m kv => Map_set (fst kv) (snd kv) m) sets m))).
  { induction sets as [ | [k v] sets IH ]; intros m Hm; simpl; [ exact Hm | ].
    apply IH, NoDup_keys_Map_set, Hm. }
  apply Hgen. constructor.
Qed.

Section Client.
Context `{Engine} `{Cookies}.

Lemma Date_parse_in_range s t : Date_parse s = Some t -> (Z.abs t <= JsDate.max_time)%Z.
Proof.
  assert (Hclip : forall x, JsDate.TimeClip x = Some t -> (Z.abs t <= JsDate.max_time)%Z).
  { intros x. unfold JsDate.TimeClip.
    destruct (Z.leb_spec (Z.abs x) JsDate.max_time); [ intros [= <-]; assumption | discriminate ]. }
  unfold Date_parse, JsDate.parse_iso.
  destruct (JsDate.read_fields _) as [f | ].
  - destruct (JsDate.legal f); [ apply Hclip | discriminate ].
  - destruct (Date_parse_other s) as [x | ]; [ apply Hclip | discriminate ].
Qed.

Lemma cookie_expires_in_range now c t :
  cookie_expires now c = Some (Some t) -> (Z.abs t <= JsDate.max_time)%Z.
Proof.
  unfold cookie_expires. destruct (number_truthy (attr_max_age c)).
  - intros [= Ht]. revert Ht. unfold JsDate.TimeClip.
    destruct (Z.leb_spec (Z.abs (now + Number_of (attr_max_age c) * 1000)) JsDate.max_time);
      [ intros [= <-]; assumption | discriminate ].
  - destruct (attr_expires c); [ | discriminate ]. intros [= Ht]. apply (Date_parse_in_range _ _ Ht).
Qed.

Lemma storable_entry now now' c :
  storable now now' c ->
  exists e, stored_entry now c = Normal (entry_json (attr_value c) e) /\ wf e /\
            unexpired now' (entry_json (attr_value c) e) = Normal true.
Proof.
  unfold stored_entry. intros [Hn | (t & Ht & Hle)].
  - rewrite Hn. exists JNull. split; [ reflexivity | split; [ constructor | reflexivity ] ].
  - rewrite Ht. simpl. exists (JStr (JsDate.toISOString t)).
    split; [ reflexivity | split; [ constructor | ] ].
    unfold unexpired. simpl. unfold Date_parse.
    rewrite (parse_iso_toISOString t (cookie_expires_in_range _ _ _ Ht)).
    destruct (Z.leb_spec now' t); [ | lia ]. rewrite orb_true_r. reflexivity.
Qed.

Lemma collect_storable now now' l : forall o,
  (forall name c, In (name, c) l -> name <> "__proto__" /\ storable now now' c) ->
  exists entries,
    fold_left (step now) l (Normal o) = Normal (define_all entries o) /\
    map fst entries = map fst l /\
    Forall (live now') entries /\
    map pair_text entries = map (fun kc => fst kc ++ "=" ++ attr_value (snd kc)) l.
Proof.
  induction l as [ | [k c] l IH ]; intros o Hl.
  - exists []. repeat split; constructor.
  - destruct (Hl k c (or_introl eq_refl)) as [Hk Hc].
    destruct (storable_entry now now' c Hc) as (e & He & Hwf & Hlive).
    destruct (IH (define k (entry_json (attr_value c) e) o)) as (entries & Hf & Hkeys & Hall & Hpairs).
    { intros name c' Hin. apply Hl. right. exact Hin. }
    exists ((k, entry_json (attr_value c) e) :: entries). split; [ | split; [ | split ] ].
    + change (fold_left (step now) ((k, c) :: l) (Normal o))
        with (fold_left (step now) l (step now (Normal o) (k, c))).
      assert (Hstep : step now (Normal o) (k, c)
                      = Normal (define k (entry_json (attr_value c) e) o)).
      { unfold step, bind. simpl. rewrite He. unfold assign.
        apply String.eqb_neq in Hk. rewrite Hk. reflexivity. }
      rewrite Hstep. exact Hf.
    + simpl. f_equal. exact Hkeys.
    + constructor; [ | exact Hall ]. eexists _, _. split; [ reflexivity | split; assumption ].
    + simpl. f_equal. exact Hpairs.
Qed.

Lemma filter_entries_live now' o :
  Forall (live now') o -> filter_entries now' o = Normal o.
Proof.
  induction 1 as [ | [k v] o (s & e & _ & _ & Hv) Ho IH ]; simpl; [ reflexivity | ].
  simpl in Hv. rewrite Hv, IH. reflexivity.
Qed.

Lemma live_wf now' kv : live now' kv -> wf (snd kv).
Proof.
  intros (s & e & -> & Hwf & _). apply wf_entry_json, Hwf.
Qed.

(** X1. The round trip of the spec, away from the names and expiries the code
    mishandles: when no cookie of the header is named `__proto__` and every
    cookie's expiry is either none or a date not before the time of
    reading, the header built from the jar the header was merged into has
    exactly the header's name=value pairs, in some order. *)
Lemma getCookie_getSetCookie_round_trip (now now' : Z) (header : string) :
  (forall name c, In (name, c) (incoming header) ->
     name <> "__proto__" /\ storable now now' c) ->
  exists s pairs,
    getSetCookie now header (Some "{}") = Normal s /\
    getCookie now' s = Normal (Str.join "; " pairs) /\
    Permutation pairs
      (map (fun kc => fst kc ++ "=" ++ attr_value (snd kc)) (incoming header)).
Proof.
  intros Hall.
  destruct (collect_storable now now' (incoming header) [] Hall)
    as (entries & Hcollect & Hkeys & Hlive & Hpairs).
  set (T := define_all entries []) in *.
  assert (HcT : canonical T) by (apply canonical_define_all; exact I).
  assert (HliveT : Forall (live now') T).
  { unfold T. clear - Hlive.
    assert (Hgen : forall o, Forall (live now') o -> Forall (live now') (define_all entries o)).
    { induction Hlive as [ | [k v] l Hh Ht IH ]; intros o Ho; [ exact Ho | ].
      unfold define_all in *. simpl. apply IH.
      apply (Forall_define (live_entry now')); [ exact Hh | exact Ho ]. }
    apply Hgen. constructor. }
  assert (HwfT : wf (JObj T)).
  { constructor; [ exact HcT | ]. eapply List.Forall_impl; [ | exact HliveT ].
    intros kv. apply live_wf. }
  assert (Hmerge : merge T (Some "{}") = T).
  { unfold merge. simpl Str.nonempty. cbv iota.
    replace (JSON_parse "{}") with (Some (JObj [])) by reflexivity.
    unfold spread. simpl own_entries.
    change (define_all [] []) with (@nil (string * json)).
    apply define_all_canonical, HcT. }
  exists (JSON_stringify (JObj T)), (map pair_text T). split; [ | split ].
  - unfold getSetCookie, collect. fold (incoming header).
    rewrite Hcollect. unfold bind. fold T. rewrite Hmerge. reflexivity.
  - unfold getCookie. rewrite (JSON_parse_stringify _ HwfT). simpl Object_entries. unfold bind.
    rewrite (filter_entries_live now' T HliveT). reflexivity.
  - rewrite <- Hpairs. apply Permutation_map. unfold T.
    rewrite (Permutation_define_all entries []).
    + reflexivity.
    + rewrite Hkeys. apply NoDup_keys_Map_of.
    + reflexivity.
Qed.

End Client.

End RoundTrip.

(** * The merge on concrete headers *)
Module MergeExamples.
Local Open Scope string_scope.
Import Json Js Spec Str Client.
Import MergeTheorems.

Lemma getSetCookie_idempotent_witness :
  (1000%Z = 1000%Z \/ clock_free "a=1; Max-Age=60, b=2" = true) /\
  (r <- getSetCookie 1000 "a=1; Max-Age=60, b=2" (Some (q "{'c':{'value':'3','expires':null}}")) ;;
   getSetCookie 1000 "a=1; Max-Age=60, b=2" (Some r))
  = getSetCookie 1000 "a=1; Max-Age=60, b=2" (Some (q "{'c':{'value':'3','expires':null}}")).
Proof.
  split; [ left; reflexivity | ].
  apply (getSetCookie_idempotent 1000 1000); left; reflexivity.
Defined.

(** C9 as stated fails: the second merge reads the clock again, and a
    cookie with a max-age gets a later expiry. *)
Lemma getSetCookie_twice_later_differs :
  getSetCookie 0 "a=1; Max-Age=60" None
  = Normal (q "{'a':{'value':'1','expires':'1970-01-01T00:01:00.000Z'}}") /\
  getSetCookie 1000 "a=1; Max-Age=60"
    (Some (q "{'a':{'value':'1','expires':'1970-01-01T00:01:00.000Z'}}"))
  = Normal (q "{'a':{'value':'1','expires':'1970-01-01T00:01:01.000Z'}}") /\
  (r <- getSetCookie 0 "a=1; Max-Age=60" None ;; getSetCookie 1000 "a=1; Max-Age=60" (Some r))
  <> getSetCookie 0 "a=1; Max-Age=60" None.
Proof. repeat split; [ vm_compute; reflexivity .. | vm_compute; discriminate ]. Qed.

Lemma getSetCookie_jar_well_formed_witness :
  getSetCookie 1000 "a=1; Max-Age=60, b=2" (Some "not json")
  = Normal (q "{'a':{'value':'1','expires':'1970-01-01T00:01:01.000Z'},'b':{'value':'2','expires':null}}")
  /\
  exists o,
    JSON_parse (q "{'a':{'value':'1','expires':'1970-01-01T00:01:01.000Z'},'b':{'value':'2','expires':null}}")
    = Some (JObj o) /\
    (forall name, In name (map fst (incoming "a=1; Max-Age=60, b=2")) -> name <> "__proto__" ->
       exists v c, get name o = Some v /\ entry_view v = Some c) /\
    (record_or_nothing (Some "not json") -> exists r, record_view o = Some r) /\
    (forall prev', exists s', getSetCookie 1000 "a=1; Max-Age=60, b=2" prev' = Normal s') /\
    holds "{}" [].
Proof.
  split; [ vm_compute; reflexivity | ].
  apply (getSetCookie_jar_well_formed 1000 "a=1; Max-Age=60, b=2" (Some "not json")).
  vm_compute. reflexivity.
Defined.

(** C10 as stated fails: an entry of the previous jar that is no
    {value, expires} object is carried into the result. *)
Lemma getSetCookie_carries_ill_shaped_entry :
  getSetCookie 0 "a=1" (Some (q "{'b':1}"))
  = Normal (q "{'b':1,'a':{'value':'1','expires':null}}") /\
  JSON_parse (q "{'b':1,'a':{'value':'1','expires':null}}")
  = Some (JObj [("b", JNum 1 0); ("a", entry_json "1" JNull)]) /\
  entry_view (JNum 1 0) = None /\
  record_view [("b", JNum 1 0); ("a", entry_json "1" JNull)] = None.
Proof. repeat split; vm_compute; reflexivity. Qed.

(** C8: with max-age = 0 the code does not store now + 0; it falls through
    to the `expires` attribute, here absent, and stores no expiry. *)
Theorem max_age_zero_is_not_an_expiry :
  incoming "a=1; Max-Age=0"
  = [("a", {| attr_value := "1"; attr_max_age := Some (Num 0); attr_expires := None |})] /\
  cookie_expires 1000
    {| attr_value := "1"; attr_max_age := Some (Num 0); attr_expires := None |} = None /\
  expires_by_spec 1000
    {| attr_value := "1"; attr_max_age := Some (Num 0); attr_expires := None |}
  = Some (Some 1000%Z) /\
  getSetCookie 1000 "a=1; Max-Age=0" None
  = Normal (q "{'a':{'value':'1','expires':null}}").
Proof. repeat split; vm_compute; reflexivity. Qed.

(** Away from max-age = 0 the code computes the expiry the spec words. *)
Lemma cookie_expires_by_spec `{Engine} (now : Z) (c : CookieAttributes) :
  attr_max_age c <> Some (Num 0) -> cookie_expires now c = expires_by_spec now c.
Proof.
  intros Hz. unfold cookie_expires, expires_by_spec.
  destruct (attr_max_age c) as [[ | z] | ]; simpl; try reflexivity.
  destruct (Z.eqb_spec z 0) as [-> | Hne]; [ contradiction | reflexivity ].
Qed.

(** C2: a cookie named `__proto__` is lost on the way through the jar. *)
Theorem round_trip_drops_proto_cookie :
  incoming "__proto__=x"
  = [("__proto__", {| attr_value := "x"; attr_max_age := None; attr_expires := None |})] /\
  getSetCookie 0 "__proto__=x" (Some "{}") = Normal "{}" /\
  getCookie 0 "{}" = Normal "".
Proof. repeat split; vm_compute; reflexivity. Qed.

(** The round trip needs every cookie to be stored: an `expires` attribute
    that is no date makes `toISOString` throw. *)
Lemma getSetCookie_unreadable_expires_throws :
  getSetCookie 0 "a=1; Expires=soon" (Some "{}") = Throw RangeError.
Proof. vm_compute. reflexivity. Qed.

End MergeExamples.

(** * The theorems on the sample inputs *)
Module Examples.
Local Open Scope string_scope.
Import Json Js Spec Str Client Samples.
Import RecordTheorems ClassifierTheorems PluginTheorems.








Lemma init_sign_out_clears_witness :
  exists options' w',
    init myapp "https://api.example.com/api/auth/sign-out" None
      (phone {[ "better-auth_cookie" := two_tokens ]})
    = (Normal ("https://api.example.com/api/auth/sign-out", Some options'), w') /\
    preferences w' !! "better-auth_cookie" = Some "{}" /\
    preferences w' !! "better-auth_session_data" = Some "{}" /\
    session w' = Some {| s_data := JNull; s_error := JNull; s_isPending := false;
                         s_isRefetching := false |}.
Proof.
  destruct (init_sign_out_clears myapp "https://api.example.com/api/auth/sign-out" None
              (phone {[ "better-auth_cookie" := two_tokens ]}) eq_refl eq_refl eq_refl)
    as (options' & w' & Hrun & Hjar & Hcache & _ & Hsession & _).
  exists options', w'. repeat split; assumption.
Defined.

End Examples.

(** * Storing, reading and clearing the session token *)
Module TokenTheorems.
Local Open Scope string_scope.
Import Json Js Spec Str Client Actions.
Import JsonFacts ObjFacts PropsFacts CodecFacts RecordTheorems.

Lemma length_append (a b : string) :
  String.length (a ++ b) = String.length a + String.length b.
Proof. induction a as [ | c a IH ]; simpl; [ reflexivity | rewrite IH; reflexivity ]. Qed.

Lemma append_assoc (a b c : string) : (a ++ b) ++ c = a ++ b ++ c.
Proof.
  induction a as [ | x a IH ]; [ reflexivity | ].
  change (String x ((a ++ b) ++ c) = String x (a ++ b ++ c)). rewrite IH. reflexivity.
Qed.

(** No session-token name is `__proto__`. *)
Lemma session_token_name (k : string) :
  String.eqb (k ++ ".session_token") "__proto__" = false.
Proof.
  apply String.eqb_neq. intros E. apply (f_equal String.length) in E.
  rewrite length_append in E. simpl in E. lia.
Qed.

Lemma assign_session_token (k : string) (e : json) (o : list (string * json)) :
  assign (k ++ ".session_token") e o = define (k ++ ".session_token") e o.
Proof. unfold assign. rewrite session_token_name. reflexivity. Qed.

Lemma or_default_default_to (o : option string) :
  o <> Some "" -> or_default o = default_to o.
Proof. destruct o as [[ | c s] | ]; [ congruence | reflexivity | reflexivity ]. Qed.

Section Token.
Context `{Engine} `{Cookies}.

Lemma existing_jar_wf (stored : option string) : wf (existing_jar stored).
Proof.
  unfold existing_jar. destruct stored as [c | ]; [ | repeat constructor ].
  destruct (Str.nonempty c); [ | repeat constructor ].
  destruct (JSON_parse c) as [v | ] eqn:E; [ apply (JSON_parse_wf _ _ E) | repeat constructor ].
Qed.

Lemma wf_both_names (base secure token exp : string) (o : list (string * json)) :
  wf (JObj o) ->
  wf (JObj (define secure (entry_json token (JStr exp))
              (define base (entry_json token (JStr exp)) o))).
Proof.
  intros Hwf. inversion Hwf as [ | | | | | ms Hc Hall ]; subst.
  assert (He : wf (entry_json token (JStr exp))) by (apply wf_entry_json; constructor).
  constructor.
  - apply canonical_define, canonical_define, Hc.
  - apply (Forall_define wf); [ exact He | ]. apply (Forall_define wf); [ exact He | exact Hall ].
Qed.

(** getCapacitorAuthToken on a stored jar that parses. *)
Lemma getCapacitorAuthToken_reads (storagePrefix cookiePrefix : option string) (w : World)
  (jar : string) (cookieData : json) :
  native w = true -> has_preferences w = true ->
  preferences w !! normalizeCookieName (or_default storagePrefix ++ "_cookie") = Some jar ->
  JSON_parse jar = Some cookieData ->
  getCapacitorAuthToken storagePrefix cookiePrefix w
  = (match session_token cookieData (or_default cookiePrefix) with
     | Normal t => Normal t
     | Throw _ => Normal JNull
     end, w).
Proof.
  intros Hnative Hprefs Hjar Hparse.
  unfold getCapacitorAuthToken, and_then, isNativePlatform, catch, getPreferencesMod,
    Preferences_get, lift, ret.
  rewrite Hnative. cbn [negb]. rewrite Hprefs, Hjar.
  rewrite (JSON_parse_nonempty _ _ Hparse). cbn [negb]. rewrite Hparse.
  destruct (session_token cookieData (or_default cookiePrefix)); reflexivity.
Qed.

(** getCapacitorAuthToken on a store without a jar. *)
Lemma getCapacitorAuthToken_no_jar (storagePrefix cookiePrefix : option string) (w : World) :
  preferences w !! normalizeCookieName (or_default storagePrefix ++ "_cookie") = None ->
  getCapacitorAuthToken storagePrefix cookiePrefix w = (Normal JNull, w).
Proof.
  intros Hjar.
  unfold getCapacitorAuthToken, and_then, isNativePlatform, catch, getPreferencesMod,
    Preferences_get, lift, ret.
  destruct (native w); [ | reflexivity ]. cbn [negb].
  destruct (has_preferences w); [ | reflexivity ]. rewrite Hjar. reflexivity.
Qed.

(** What setCapacitorAuthToken does when it gets as far as writing. *)
Lemma setCapacitorAuthToken_writes (token : string) (expiresAt : option expiry)
  (storagePrefix cookiePrefix : option string) (w : World) (exp : string)
  (o : list (string * json)) :
  native w = true -> has_preferences w = true ->
  token_expiry (clock w) expiresAt = Normal exp ->
  existing_jar (preferences w !! normalizeCookieName (default_to storagePrefix ++ "_cookie"))
  = JObj o ->
  setCapacitorAuthToken token expiresAt storagePrefix cookiePrefix w
  = (Normal true,
     with_preferences
       (<[normalizeCookieName (default_to storagePrefix ++ "_cookie") :=
            JSON_stringify
              (JObj (define (SECURE_COOKIE_PREFIX ++ default_to cookiePrefix ++ ".session_token")
                            (entry_json token (JStr exp))
                            (define (default_to cookiePrefix ++ ".session_token")
                                    (entry_json token (JStr exp)) o)))]>
          (preferences w)) w).
Proof.
  intros Hnative Hprefs Hexp Hjar.
  unfold setCapacitorAuthToken, and_then, isNativePlatform, now, lift, catch, getPreferencesMod,
    Preferences_get, Preferences_set, ret.
  rewrite Hnative. cbn [negb]. rewrite Hexp, Hprefs, Hjar. cbn [set_entry].
  rewrite assign_session_token.
  replace (SECURE_COOKIE_PREFIX ++ default_to cookiePrefix ++ ".session_token")
    with ((SECURE_COOKIE_PREFIX ++ default_to cookiePrefix) ++ ".session_token")
    by apply append_assoc.
  rewrite assign_session_token. reflexivity.
Qed.

(** X7. The token stored is the token read back. After setCapacitorAuthToken
    succeeds on a jar that was absent, empty, malformed or an object,
    getCapacitorAuthToken with the same prefixes returns the token. The two
    functions resolve their prefixes differently, the first by a
    destructuring default and the second by `||`, and agree unless a prefix
    is given as the empty string. *)
Theorem setCapacitorAuthToken_then_get (token : string) (expiresAt : option expiry)
  (storagePrefix cookiePrefix : option string) (w : World) (exp : string)
  (o : list (string * json)) :
  native w = true -> has_preferences w = true ->
  token_expiry (clock w) expiresAt = Normal exp ->
  existing_jar (preferences w !! normalizeCookieName (default_to storagePrefix ++ "_cookie"))
  = JObj o ->
  storagePrefix <> Some "" -> cookiePrefix <> Some "" -> token <> "" ->
  exists w',
    setCapacitorAuthToken token expiresAt storagePrefix cookiePrefix w = (Normal true, w') /\
    getCapacitorAuthToken storagePrefix cookiePrefix w' = (Normal (JStr token), w').
Proof.
  intros Hnative Hprefs Hexp Hjar Hsp Hcp Htoken.
  eexists. split; [ apply (setCapacitorAuthToken_writes _ _ _ _ _ exp o); assumption | ].
  rewrite (getCapacitorAuthToken_reads storagePrefix cookiePrefix _
             (JSON_stringify
                (JObj (define (SECURE_COOKIE_PREFIX ++ default_to cookiePrefix ++ ".session_token")
                              (entry_json token (JStr exp))
                              (define (default_to cookiePrefix ++ ".session_token")
                                      (entry_json token (JStr exp)) o))))
             (JObj (define (SECURE_COOKIE_PREFIX ++ default_to cookiePrefix ++ ".session_token")
                           (entry_json token (JStr exp))
                           (define (default_to cookiePrefix ++ ".session_token")
                                   (entry_json token (JStr exp)) o)))).
  - rewrite (or_default_default_to _ Hcp).
    unfold session_token, get_prop, bind. simpl own.
    rewrite !get_define_eq. simpl.
    destruct token; [ contradiction | reflexivity ].
  - exact Hnative.
  - exact Hprefs.
  - rewrite (or_default_default_to _ Hsp). apply lookup_insert_eq.
  - apply JSON_parse_stringify, wf_both_names. rewrite <- Hjar. apply existing_jar_wf.
Qed.

(** X8. Both names are written, nothing else is touched. After a successful
    setCapacitorAuthToken the stored jar parses as an object in which the
    plain and the secure-prefixed session-token names both map to
    {value: token, expires: expiresAt}; every other entry of the jar and
    every other key of the store are as they were. *)
Theorem setCapacitorAuthToken_dual_write (token : string) (expiresAt : option expiry)
  (storagePrefix cookiePrefix : option string) (w : World) (exp : string)
  (o : list (string * json)) :
  native w = true -> has_preferences w = true ->
  token_expiry (clock w) expiresAt = Normal exp ->
  existing_jar (preferences w !! normalizeCookieName (default_to storagePrefix ++ "_cookie"))
  = JObj o ->
  let key := normalizeCookieName (default_to storagePrefix ++ "_cookie") in
  let base := default_to cookiePrefix ++ ".session_token" in
  let secure := SECURE_COOKIE_PREFIX ++ base in
  exists w' jar m,
    setCapacitorAuthToken token expiresAt storagePrefix cookiePrefix w = (Normal true, w') /\
    preferences w' !! key = Some jar /\ JSON_parse jar = Some (JObj m) /\
    get base m = Some (entry_json token (JStr exp)) /\
    get secure m = Some (entry_json token (JStr exp)) /\
    (forall name, name <> base -> name <> secure -> get name m = get name o) /\
    (forall k, k <> key -> preferences w' !! k = preferences w !! k).
Proof.
  intros Hnative Hprefs Hexp Hjar key base secure.
  eexists _, _, _. split; [ apply (setCapacitorAuthToken_writes _ _ _ _ _ exp o); assumption | ].
  simpl preferences. split; [ apply lookup_insert_eq | ].
  split; [ apply JSON_parse_stringify, wf_both_names; rewrite <- Hjar; apply existing_jar_wf | ].
  fold base. fold secure. split; [ | split; [ | split ] ].
  - destruct (string_dec base secure) as [E | Hne].
    + rewrite <- E. apply get_define_eq.
    + rewrite get_define_ne by exact Hne. apply get_define_eq.
  - apply get_define_eq.
  - intros name Hb Hs. rewrite !get_define_ne by assumption. reflexivity.
  - intros k Hk. apply lookup_insert_ne. fold key. congruence.
Qed.

(** X9. Where setCapacitorAuthToken stores no token. Off a native platform, or
    without the Preferences plugin, or on a stored jar that parses to
    `null`, a number, a string or a boolean, it returns false and leaves
    the store as it was. On a stored jar that parses to an array it returns
    true but writes the array back without the token, so that no token is
    read afterwards. *)
Theorem setCapacitorAuthToken_stores_nothing (token : string) (expiresAt : option expiry)
  (storagePrefix cookiePrefix : option string) (w : World) (exp : string) :
  token_expiry (clock w) expiresAt = Normal exp ->
  let key := normalizeCookieName (default_to storagePrefix ++ "_cookie") in
  (native w = false \/ has_preferences w = false \/
   (forall o, existing_jar (preferences w !! key) <> JObj o) /\
   (forall vs, existing_jar (preferences w !! key) <> JArr vs) ->
   setCapacitorAuthToken token expiresAt storagePrefix cookiePrefix w = (Normal false, w)) /\
  (forall vs, native w = true -> has_preferences w = true ->
     existing_jar (preferences w !! key) = JArr vs ->
     exists w',
       setCapacitorAuthToken token expiresAt storagePrefix cookiePrefix w = (Normal true, w') /\
       preferences w' !! key = Some (JSON_stringify (JArr vs)) /\
       forall cookiePrefix',
         storagePrefix <> Some "" ->
         getCapacitorAuthToken storagePrefix cookiePrefix' w' = (Normal JNull, w')).
Proof.
  intros Hexp key. split.
  - unfold setCapacitorAuthToken, and_then, isNativePlatform, now, lift, catch, getPreferencesMod,
      Preferences_get, Preferences_set, ret.
    intros [Hn | [Hp | [Ho Ha]]].
    + rewrite Hn. reflexivity.
    + destruct (native w); [ | reflexivity ]. cbn [negb]. rewrite Hexp, Hp. reflexivity.
    + destruct (native w); [ | reflexivity ]. cbn [negb]. rewrite Hexp.
      destruct (has_preferences w); [ | reflexivity ].
      fold key. destruct (existing_jar (preferences w !! key)) as [ | b | m e | s | vs | o ];
        try reflexivity.
      * exfalso. apply (Ha vs). reflexivity.
      * exfalso. apply (Ho o). reflexivity.
  - intros vs Hn Hp Hjar.
    assert (Hwf : wf (JArr vs)) by (rewrite <- Hjar; apply existing_jar_wf).
    eexists. split; [ | split ].
    + unfold setCapacitorAuthToken, and_then, isNativePlatform, now, lift, catch,
        getPreferencesMod, Preferences_get, Preferences_set, ret.
      rewrite Hn. cbn [negb]. rewrite Hexp, Hp. fold key. rewrite Hjar. reflexivity.
    + simpl preferences. apply lookup_insert_eq.
    + intros cookiePrefix' Hsp.
      rewrite (getCapacitorAuthToken_reads storagePrefix cookiePrefix' _
                 (JSON_stringify (JArr vs)) (JArr vs)).
      * reflexivity.
      * exact Hn.
      * exact Hp.
      * rewrite (or_default_default_to _ Hsp). apply lookup_insert_eq.
      * apply JSON_parse_stringify, Hwf.
Qed.

(** X10. clearCapacitorAuthToken removes the jar and the session cache, and
    nothing else; no token is read afterwards. Off a native platform, or
    without the Preferences plugin, it returns false and removes nothing. *)
Theorem clearCapacitorAuthToken_clears (storagePrefix : option string) (w : World) :
  let jar := normalizeCookieName (or_default storagePrefix ++ "_cookie") in
  let cache := normalizeCookieName (or_default storagePrefix ++ "_session_data") in
  (native w = true -> has_preferences w = true ->
   exists w',
     clearCapacitorAuthToken storagePrefix w = (Normal true, w') /\
     preferences w' !! jar = None /\ preferences w' !! cache = None /\
     (forall k, k <> jar -> k <> cache -> preferences w' !! k = preferences w !! k) /\
     forall cookiePrefix,
       getCapacitorAuthToken storagePrefix cookiePrefix w' = (Normal JNull, w')) /\
  (native w = false \/ has_preferences w = false ->
   clearCapacitorAuthToken storagePrefix w = (Normal false, w)).
Proof.
  intros jar cache. split.
  - intros Hn Hp. eexists. split; [ | split; [ | split; [ | split ] ] ].
    + unfold clearCapacitorAuthToken, and_then, isNativePlatform, catch, getPreferencesMod,
        Preferences_remove, ret.
      rewrite Hn. cbn [negb]. rewrite Hp. reflexivity.
    + simpl preferences. fold jar cache.
      destruct (string_dec cache jar) as [E | Hne].
      * rewrite E. apply lookup_delete_eq.
      * rewrite lookup_delete_ne by exact Hne. apply lookup_delete_eq.
    + simpl preferences. fold jar cache. apply lookup_delete_eq.
    + intros k Hj Hc. simpl preferences. fold jar cache.
      rewrite !lookup_delete_ne by congruence. reflexivity.
    + intros cookiePrefix. apply getCapacitorAuthToken_no_jar.
      simpl preferences. fold jar cache.
      destruct (string_dec cache jar) as [E | Hne].
      * rewrite E. apply lookup_delete_eq.
      * rewrite lookup_delete_ne by exact Hne. apply lookup_delete_eq.
  - unfold clearCapacitorAuthToken, and_then, isNativePlatform, catch, getPreferencesMod, ret.
    intros [Hn | Hp].
    + rewrite Hn. reflexivity.
    + destruct (native w); [ | reflexivity ]. cbn [negb]. rewrite Hp. reflexivity.
Qed.

(** X22. getCapacitorAuthToken never throws and never writes. Whatever the
    platform, the plugins and the stored jar, it returns a value and leaves
    the state as it was; off a native platform, without the Preferences
    plugin, or on a jar that is absent, empty, not JSON or `null`, the
    value is `null`. *)
Theorem getCapacitorAuthToken_never_throws (storagePrefix cookiePrefix : option string)
  (w : World) :
  let stored := preferences w !! normalizeCookieName (or_default storagePrefix ++ "_cookie") in
  (exists t, getCapacitorAuthToken storagePrefix cookiePrefix w = (Normal t, w)) /\
  (native w = false \/ has_preferences w = false \/ stored = None \/ stored = Some "" \/
   (exists c, stored = Some c /\ (JSON_parse c = None \/ JSON_parse c = Some JNull)) ->
   getCapacitorAuthToken storagePrefix cookiePrefix w = (Normal JNull, w)).
Proof.
  intros stored.
  assert (Hrun : getCapacitorAuthToken storagePrefix cookiePrefix w
                 = (Normal
                      (if native w && has_preferences w then
                         match stored with
                         | Some c =>
                             if Str.nonempty c then
                               match JSON_parse c with
                               | Some cookieData =>
                                   match session_token cookieData (or_default cookiePrefix) with
                                   | Normal t => t
                                   | Throw _ => JNull
                                   end
                               | None => JNull
                               end
                             else JNull
                         | None => JNull
                         end
                       else JNull), w)).
  { unfold getCapacitorAuthToken, and_then, isNativePlatform, catch, getPreferencesMod,
      Preferences_get, lift, ret, throw. unfold stored.
    destruct (native w); [ | reflexivity ]. cbn [negb andb].
    destruct (has_preferences w); [ | reflexivity ].
    destruct (preferences w !! _) as [c | ]; [ | reflexivity ].
    destruct (Str.nonempty c); [ | reflexivity ]. cbn [negb].
    destruct (JSON_parse c) as [cookieData | ]; [ | reflexivity ].
    destruct (session_token cookieData (or_default cookiePrefix)); reflexivity. }
  split; [ eexists; exact Hrun | ].
  rewrite Hrun. intros [Hn | [Hp | [Hs | [Hs | (c & Hs & [Hc | Hc])]]]].
  - rewrite Hn. reflexivity.
  - rewrite Hp, andb_false_r. reflexivity.
  - rewrite Hs. destruct (native w && has_preferences w); reflexivity.
  - rewrite Hs. destruct (native w && has_preferences w); reflexivity.
  - rewrite Hs, Hc. destruct (native w && has_preferences w), (Str.nonempty c); reflexivity.
  - rewrite Hs, Hc. destruct (native w && has_preferences w), (Str.nonempty c); reflexivity.
Qed.

End Token.

End TokenTheorems.

(** * More on the jar: keys, errors, overlay and expiry *)
Module JarTheorems.
Local Open Scope string_scope.
Import Json Js Spec Str Client Actions.
Import JsonFacts ObjFacts PropsFacts CodecFacts MergeTheorems RecordTheorems JsDateFacts RoundTrip.

Lemma includes_cons (c : ascii) (s : string) (sub : string) :
  Str.includes (String c s) sub = String.prefix sub (String c s) || Str.includes s sub.
Proof. reflexivity. Qed.

Lemma prefix_colon (c : ascii) (s : string) :
  String.prefix ":" (String c s) = Ascii.eqb c ":".
Proof.
  change (String.prefix ":" (String c s))
    with (if Ascii.ascii_dec ":" c then String.prefix "" s else false).
  destruct (Ascii.ascii_dec ":" c) as [<- | Hne].
  - destruct s; reflexivity.
  - symmetry. apply Ascii.eqb_neq. congruence.
Qed.

(** X6. A storage key has no colon in it: normalizeCookieName keeps the length
    of a name, leaves no `:` behind, and changes nothing in a name without
    one, so that normalizing twice is normalizing once. *)
Theorem normalizeCookieName_no_colon (name : string) :
  Str.includes (normalizeCookieName name) ":" = false /\
  String.length (normalizeCookieName name) = String.length name /\
  (Str.includes name ":" = false -> normalizeCookieName name = name) /\
  normalizeCookieName (normalizeCookieName name) = normalizeCookieName name.
Proof.
  unfold normalizeCookieName.
  assert (Hno : forall s, Str.includes (Str.replace_char ":" "_" s) ":" = false).
  { induction s as [ | c s IH ]; [ reflexivity | ].
    change (Str.replace_char ":" "_" (String c s))
      with (String (if Ascii.eqb c ":" then "_"%char else c) (Str.replace_char ":" "_" s)).
    rewrite includes_cons, IH, prefix_colon.
    destruct (Ascii.eqb_spec c ":") as [-> | Hc]; [ reflexivity | ].
    apply orb_false_iff. split; [ apply Ascii.eqb_neq, Hc | reflexivity ]. }
  assert (Hid : forall s, Str.includes s ":" = false -> Str.replace_char ":" "_" s = s).
  { induction s as [ | c s IH ]; [ reflexivity | ].
    rewrite includes_cons, prefix_colon. intros Hs. apply orb_false_iff in Hs.
    destruct Hs as [Hp Hs].
    change (Str.replace_char ":" "_" (String c s))
      with (String (if Ascii.eqb c ":" then "_"%char else c) (Str.replace_char ":" "_" s)).
    rewrite Hp, (IH Hs). reflexivity. }
  split; [ apply Hno | ]. split; [ | split; [ apply Hid | apply Hid, Hno ] ].
  induction name as [ | c s IH ]; simpl; [ reflexivity | rewrite IH; reflexivity ].
Qed.

Section Jar.
Context `{Engine} `{Cookies}.




(** What the loop of getSetCookie leaves under each name. *)
Lemma fold_step_get now l : forall o T,
  fold_left (step now) l (Normal o) = Normal T ->
  List.NoDup (map fst l) ->
  forall name,
    get name T =
    match get name l with
    | Some c =>
        if String.eqb name "__proto__" then get name o
        else match stored_entry now c with
             | Normal e => Some e
             | Throw _ => None
             end
    | None => get name o
    end.
Proof.
  induction l as [ | [k c] l IH ]; intros o T.
  - simpl. intros [= <-] _ name. reflexivity.
  - intros Hf Hnd name.
    change (fold_left (step now) ((k, c) :: l) (Normal o))
      with (fold_left (step now) l (step now (Normal o) (k, c))) in Hf.
    destruct (stored_entry now c) as [e | err] eqn:He.
    2:{ exfalso.
        assert (Hs : step now (Normal o) (k, c) = Throw err)
          by (unfold step, bind; simpl; rewrite He; reflexivity).
        rewrite Hs, fold_step_throw in Hf. discriminate. }
    assert (Hs : step now (Normal o) (k, c) = Normal (assign k e o))
      by (unfold step, bind; simpl; rewrite He; reflexivity).
    rewrite Hs in Hf. inversion Hnd as [ | ? ? Hk Hl ]; subst.
    rewrite (IH _ _ Hf Hl name). simpl get.
    destruct (String.eqb_spec name k) as [-> | Hne].
    + apply get_none in Hk. rewrite Hk, He. unfold assign.
      destruct (String.eqb k "__proto__"); [ reflexivity | apply get_define_eq ].
    + assert (Ho : get name (assign k e o) = get name o).
      { unfold assign. destruct (String.eqb k "__proto__"); [ reflexivity | ].
        apply get_define_ne, Hne. }
      rewrite Ho. reflexivity.
Qed.

(** The loop of getSetCookie throws when storing one of its cookies does. *)
Lemma fold_step_stops now name c err l : forall o T,
  stored_entry now c = Throw err -> In (name, c) l ->
  fold_left (step now) l (Normal o) <> Normal T.
Proof.
  induction l as [ | [k' c'] l IHl ]; intros o T He [].
  - injection H1 as -> ->.
    change (fold_left (step now) ((name, c) :: l) (Normal o))
      with (fold_left (step now) l (step now (Normal o) (name, c))).
    assert (Hs : step now (Normal o) (name, c) = Throw err)
      by (unfold step, bind; simpl; rewrite He; reflexivity).
    rewrite Hs, fold_step_throw. discriminate.
  - change (fold_left (step now) ((k', c') :: l) (Normal o))
      with (fold_left (step now) l (step now (Normal o) (k', c'))).
    destruct (stored_entry now c') as [e' | err'] eqn:He'.
    + assert (Hs : step now (Normal o) (k', c') = Normal (assign k' e' o))
        by (unfold step, bind; simpl; rewrite He'; reflexivity).
      rewrite Hs. apply IHl; assumption.
    + assert (Hs : step now (Normal o) (k', c') = Throw err')
        by (unfold step, bind; simpl; rewrite He'; reflexivity).
      rewrite Hs, fold_step_throw. discriminate.
Qed.

(** X2. Incoming wins, the rest stays. When the previous jar parses to an
    object, the jar getSetCookie returns parses to an object in which every
    incoming cookie (other than one named `__proto__`) has the entry just
    computed for it, and every other name has the entry it had in the
    previous jar, or none. *)
Theorem getSetCookie_overlay (now : Z) (header p s : string) (o : list (string * json)) :
  JSON_parse p = Some (JObj o) ->
  getSetCookie now header (Some p) = Normal s ->
  exists m,
    JSON_parse s = Some (JObj m) /\
    (forall name c, get name (incoming header) = Some c -> name <> "__proto__" ->
       exists e, stored_entry now c = Normal e /\ get name m = Some e) /\
    (forall name, get name (incoming header) = None \/ name = "__proto__" ->
       get name m = get name o).
Proof.
  intros Hp. unfold getSetCookie.
  destruct (collect now (parseSetCookieHeader header)) as [T | e] eqn:HT; unfold bind;
    [ | discriminate ].
  intros [= <-]. destruct (collect_spec _ _ _ HT) as [Hc Hs].
  destruct (merge_spec T (Some p) Hc (Forall_shaped_wf _ Hs)) as [Hwf _].
  exists (merge T (Some p)). split; [ apply JSON_parse_stringify, Hwf | ].
  assert (Ho : canonical o).
  { pose proof (JSON_parse_wf _ _ Hp) as Hw. inversion Hw; assumption. }
  assert (Hm : merge T (Some p) = define_all T o).
  { unfold merge. rewrite (JSON_parse_nonempty _ _ Hp), Hp. unfold spread. simpl own_entries.
    rewrite (define_all_canonical o Ho). reflexivity. }
  assert (HT' : forall name,
            get name T =
            match get name (incoming header) with
            | Some c =>
                if String.eqb name "__proto__" then None
                else match stored_entry now c with
                     | Normal e => Some e
                     | Throw _ => None
                     end
            | None => None
            end).
  { intros name. unfold collect in HT. fold (incoming header) in HT.
    apply (fold_step_get now (incoming header) [] T HT). apply NoDup_keys_Map_of. }
  assert (Hget : forall name,
            get name (define_all T o)
            = match get name T with Some e => Some e | None => get name o end).
  { intros name. destruct (get name T) as [e | ] eqn:Hg.
    - apply get_define_all_in; [ apply canonical_NoDup, Hc | apply get_some_in, Hg ].
    - apply get_define_all_notin. apply get_none, Hg. }
  rewrite Hm. split.
  - intros name c Hin Hname. rewrite Hget, HT', Hin.
    apply String.eqb_neq in Hname. rewrite Hname.
    destruct (stored_entry now c) as [e | err] eqn:He; [ exists e; split; reflexivity | ].
    exfalso. revert HT. unfold collect. fold (incoming header).
    apply (fold_step_stops now name c err); [ exact He | apply get_some_in, Hin ].
  - intros name Hname. rewrite Hget, HT'.
    destruct Hname as [-> | ->]; [ reflexivity | ].
    destruct (get "__proto__" (incoming header)); reflexivity.
Qed.

(** X3. A previous jar with nothing to give counts as absent. getSetCookie
    returns the same jar for a previous jar that is the empty string, or
    does not parse, or parses to a value without entries (`null`, a number,
    a boolean, the empty string, array or object), as for no previous jar
    at all. *)
Theorem getSetCookie_empty_prev (now : Z) (header p : string) :
  p = "" \/ JSON_parse p = None \/
  (exists v, JSON_parse p = Some v /\ own_entries v = []) ->
  getSetCookie now header (Some p) = getSetCookie now header None.
Proof.
  intros Hp. unfold getSetCookie.
  destruct (collect now (parseSetCookieHeader header)) as [T | e] eqn:HT; [ | reflexivity ].
  destruct (collect_spec _ _ _ HT) as [Hc _]. unfold bind. do 3 f_equal.
  unfold merge. destruct Hp as [-> | [Hp | (v & Hp & Hv)]]; [ reflexivity | | ].
  - rewrite Hp. destruct (Str.nonempty p); reflexivity.
  - rewrite Hp, (JSON_parse_nonempty _ _ Hp). unfold spread. rewrite Hv.
    apply define_all_canonical, Hc.
Qed.

(** X4. The expiry of a cookie with a max-age. For a max-age other than 0 the
    entry getSetCookie stores carries, whatever the `expires` attribute
    says, a date that reads back as exactly now + max-age seconds; when
    that instant lies outside the range of a `Date`, storing throws a
    RangeError. *)
Theorem stored_entry_max_age (now z : Z) (c : CookieAttributes) :
  attr_max_age c = Some (Num z) -> z <> 0%Z ->
  ((Z.abs (now + z * 1000) <= JsDate.max_time)%Z ->
   exists iso,
     stored_entry now c = Normal (entry_json (attr_value c) (JStr iso)) /\
     Date_parse iso = Some (now + z * 1000)%Z) /\
  ((JsDate.max_time < Z.abs (now + z * 1000))%Z ->
   stored_entry now c = Throw RangeError).
Proof.
  intros Hm Hz. unfold stored_entry, cookie_expires, number_truthy, Number_of. rewrite Hm.
  apply Z.eqb_neq in Hz. rewrite Hz. cbn [negb]. unfold JsDate.TimeClip. split.
  - intros Hr. apply Z.leb_le in Hr. rewrite Hr. simpl.
    eexists. split; [ reflexivity | ].
    unfold Date_parse. rewrite parse_iso_toISOString by (apply Z.leb_le, Hr). reflexivity.
  - intros Hr. apply Z.leb_gt in Hr. rewrite Hr. reflexivity.
Qed.

End Jar.

End JarTheorems.

(** * More on the hooks: what a request carries, what a response leaves *)
Module HookTheorems.
Local Open Scope string_scope.
Import Json Js Spec Str Client Actions.
Import JsonFacts ObjFacts PropsFacts CodecFacts MergeTheorems RecordTheorems TokenTheorems.

Ltac run_init Hnative Hprefs :=
  unfold init, and_then, isNativePlatform, getPreferencesMod, Preferences_get,
    Preferences_set, clear_session, ret;
  rewrite Hnative; cbn [negb]; rewrite Hprefs.

Section Hooks.
Context `{Engine} `{Cookies}.

(** The token `init` looks up is the token getCapacitorAuthToken returns. *)
Lemma bearer_is_token (opts : CapacitorClientOptions) (w : World) :
  native w = true -> has_preferences w = true ->
  first_prefix (thePrefixes opts) <> "" ->
  getCapacitorAuthToken (storagePrefix opts) (Some (first_prefix (thePrefixes opts))) w
  = (Normal (bearer opts (preferences w !! normalizeCookieName (cookieName opts))), w).
Proof.
  intros Hnative Hprefs Hp.
  assert (Hd : or_default (Some (first_prefix (thePrefixes opts)))
               = first_prefix (thePrefixes opts)).
  { simpl. destruct (first_prefix (thePrefixes opts)); [ contradiction | reflexivity ]. }
  unfold bearer. fold (cookieName opts).
  destruct (preferences w !! normalizeCookieName (cookieName opts)) as [c | ] eqn:Hc.
  - destruct (Str.nonempty c) eqn:Hn.
    + destruct (JSON_parse c) as [cookieData | ] eqn:Hparse.
      * rewrite (getCapacitorAuthToken_reads _ _ w c cookieData Hnative Hprefs Hc Hparse).
        rewrite Hd. destruct (session_token cookieData _); reflexivity.
      * unfold getCapacitorAuthToken, and_then, isNativePlatform, catch, getPreferencesMod,
          Preferences_get, lift, ret, throw.
        rewrite Hnative. cbn [negb]. rewrite Hprefs. fold (cookieName opts). rewrite Hc, Hn.
        cbn [negb]. rewrite Hparse. reflexivity.
    + unfold getCapacitorAuthToken, and_then, isNativePlatform, catch, getPreferencesMod,
        Preferences_get, lift, ret.
      rewrite Hnative. cbn [negb]. rewrite Hprefs. fold (cookieName opts). rewrite Hc, Hn.
      reflexivity.
  - rewrite (getCapacitorAuthToken_no_jar _ _ w Hc). reflexivity.
Qed.

(** What `init` returns on a native platform, the store apart. *)
Lemma init_native (opts : CapacitorClientOptions) (url : string)
  (options : option RequestInit) (w : World) :
  native w = true -> has_preferences w = true ->
  let t := bearer opts (preferences w !! normalizeCookieName (cookieName opts)) in
  let given := default {| credentials := None; headers := []; body := None |} options in
  let h1 := if truthy (Some t)
            then define "Authorization" ("Bearer " ++ to_string (Some t)) (headers given)
            else headers given in
  exists w',
    init opts url options w
    = (Normal
         (url,
          Some {| credentials := Some "omit";
                  headers :=
                    match scheme opts with
                    | Some s =>
                        if Str.nonempty s
                        then define "x-skip-oauth-proxy" "true"
                               (define "capacitor-origin" (getOrigin s) h1)
                        else h1
                    | None => h1
                    end;
                  body :=
                    match scheme opts with
                    | Some s =>
                        if Str.nonempty s
                        then option_map
                               (fun b => rewrite_callback s "errorCallbackURL"
                                           (rewrite_callback s "newUserCallbackURL"
                                              (rewrite_callback s "callbackURL" b)))
                               (body given)
                        else body given
                    | None => body given
                    end |}), w').
Proof.
  intros Hnative Hprefs t given h1. run_init Hnative Hprefs. fold t. fold given. fold h1.
  destruct (scheme opts) as [s | ]; [ destruct (Str.nonempty s) | ];
    destruct (Str.includes url "/sign-out"); eexists; reflexivity.
Qed.

Lemma headers_given (options : option RequestInit) (name : string) :
  get name (headers (default {| credentials := None; headers := []; body := None |} options))
  = match options with
    | Some o => get name (headers o)
    | None => None
    end.
Proof. destruct options; reflexivity. Qed.

(** X11. The credential a request carries. On a native platform `init` sends no
    cookies (`credentials: 'omit'`) and sets `Authorization` to `Bearer`
    and the token getCapacitorAuthToken returns for the first cookie
    prefix; when there is no token it leaves the caller's `Authorization`
    header, if any, as it is. *)
Theorem init_attaches_stored_token (opts : CapacitorClientOptions) (url : string)
  (options : option RequestInit) (w : World) :
  native w = true -> has_preferences w = true ->
  first_prefix (thePrefixes opts) <> "" ->
  exists options' w' t,
    init opts url options w = (Normal (url, Some options'), w') /\
    getCapacitorAuthToken (storagePrefix opts) (Some (first_prefix (thePrefixes opts))) w
    = (Normal t, w) /\
    credentials options' = Some "omit" /\
    get "Authorization" (headers options')
    = if truthy (Some t) then Some ("Bearer " ++ to_string (Some t))
      else match options with
           | Some o => get "Authorization" (headers o)
           | None => None
           end.
Proof.
  intros Hnative Hprefs Hp.
  destruct (init_native opts url options w Hnative Hprefs) as [w' Hrun].
  eexists _, w', _. split; [ exact Hrun | ].
  split; [ apply (bearer_is_token opts w Hnative Hprefs Hp) | ].
  split; [ reflexivity | ]. cbn [headers].
  set (t := bearer opts _).
  assert (Hh : forall hs,
            get "Authorization"
              (if truthy (Some t)
               then define "Authorization" ("Bearer " ++ to_string (Some t)) hs else hs)
            = if truthy (Some t) then Some ("Bearer " ++ to_string (Some t))
              else get "Authorization" hs).
  { intros hs. destruct (truthy (Some t)); [ apply get_define_eq | reflexivity ]. }
  rewrite <- headers_given.
  destruct (scheme opts) as [s | ]; [ destruct (Str.nonempty s) | ];
    rewrite ?get_define_ne by discriminate; apply Hh.
Qed.

(** X12. The deep-link headers. With a scheme configured, `init` sets
    `capacitor-origin` to `<scheme>://` and `x-skip-oauth-proxy` to `true`;
    without one it sets neither. Every header of the caller other than
    these two and `Authorization` goes through unchanged. *)
Theorem init_capacitor_headers (opts : CapacitorClientOptions) (url : string)
  (options : option RequestInit) (w : World) :
  native w = true -> has_preferences w = true ->
  exists options' w',
    init opts url options w = (Normal (url, Some options'), w') /\
    let given name := match options with
                      | Some o => get name (headers o)
                      | None => None
                      end in
    (forall s, scheme opts = Some s -> s <> "" ->
       get "capacitor-origin" (headers options') = Some (s ++ "://") /\
       get "x-skip-oauth-proxy" (headers options') = Some "true") /\
    (option_truthy (scheme opts) = false ->
       get "capacitor-origin" (headers options') = given "capacitor-origin" /\
       get "x-skip-oauth-proxy" (headers options') = given "x-skip-oauth-proxy") /\
    (forall name, name <> "Authorization" -> name <> "capacitor-origin" ->
       name <> "x-skip-oauth-proxy" -> get name (headers options') = given name).
Proof.
  intros Hnative Hprefs.
  destruct (init_native opts url options w Hnative Hprefs) as [w' Hrun].
  eexists _, w'. split; [ exact Hrun | ]. cbn [headers]. cbv zeta.
  set (t := bearer opts _).
  assert (Hh : forall name, name <> "Authorization" ->
            get name
              (if truthy (Some t)
               then define "Authorization" ("Bearer " ++ to_string (Some t))
                      (headers (default {| credentials := None; headers := []; body := None |}
                                  options))
               else headers (default {| credentials := None; headers := []; body := None |}
                               options))
            = match options with
              | Some o => get name (headers o)
              | None => None
              end).
  { intros name Hname. rewrite <- headers_given.
    destruct (truthy (Some t)); [ apply get_define_ne, Hname | reflexivity ]. }
  split; [ | split ].
  - intros s Hs Hne. rewrite Hs.
    assert (Hn : Str.nonempty s = true) by (destruct s; [ contradiction | reflexivity ]).
    rewrite Hn. split; [ | apply get_define_eq ].
    rewrite get_define_ne by discriminate. apply get_define_eq.
  - intros Hno. unfold option_truthy in Hno.
    destruct (scheme opts) as [s | ]; [ rewrite Hno | ]; split; apply Hh; discriminate.
  - intros name Ha Hc Hx.
    destruct (scheme opts) as [s | ]; [ destruct (Str.nonempty s) | ];
      rewrite ?get_define_ne by assumption; apply Hh, Ha.
Qed.

Lemma get_rewrite_callback (s field f : string) (b : list (string * string)) :
  get f (rewrite_callback s field b)
  = if String.eqb f field
    then option_map (fun u => if Str.startsWith u "/" then s ++ ":/" ++ u else u) (get f b)
    else get f b.
Proof.
  unfold rewrite_callback.
  destruct (String.eqb_spec f field) as [-> | Hne].
  - destruct (get field b) as [u | ] eqn:Hg; simpl; [ | exact Hg ].
    destruct u as [ | c u ]; [ exact Hg | ].
    change (Str.nonempty (String c u)) with true. cbn [andb].
    destruct (Str.startsWith (String c u) "/"); [ | exact Hg ].
    apply (get_replace_eq _ _ _ _ Hg).
  - destruct (get field b) as [u | ]; [ | reflexivity ].
    destruct (Str.nonempty u && Str.startsWith u "/"); [ | reflexivity ].
    apply get_replace_ne, Hne.
Qed.

Lemma keys_rewrite_callback (s field : string) (b : list (string * string)) :
  map fst (rewrite_callback s field b) = map fst b.
Proof.
  unfold rewrite_callback. destruct (get field b) as [u | ]; [ | reflexivity ].
  destruct (Str.nonempty u && Str.startsWith u "/"); [ | reflexivity ].
  apply keys_replace.
Qed.

(** X13. Callback URLs become deep links. With a scheme configured, `init`
    rewrites the body fields `callbackURL`, `newUserCallbackURL` and
    `errorCallbackURL` that start with `/` to `<scheme>:/` followed by the
    field, and leaves every other field, and the set of fields, as they
    are; without a scheme the body is untouched. *)
Theorem init_rewrites_callbacks (opts : CapacitorClientOptions) (url : string)
  (options : option RequestInit) (w : World) :
  native w = true -> has_preferences w = true ->
  exists options' w',
    init opts url options w = (Normal (url, Some options'), w') /\
    let given := match options with Some o => body o | None => None end in
    (forall s b, scheme opts = Some s -> s <> "" -> given = Some b ->
       exists b',
         body options' = Some b' /\ map fst b' = map fst b /\
         forall field u, get field b = Some u ->
           get field b'
           = Some (if existsb (String.eqb field)
                        ["callbackURL"; "newUserCallbackURL"; "errorCallbackURL"]
                      && Str.startsWith u "/"
                   then s ++ ":/" ++ u else u)) /\
    (option_truthy (scheme opts) = false -> body options' = given).
Proof.
  intros Hnative Hprefs.
  destruct (init_native opts url options w Hnative Hprefs) as [w' Hrun].
  eexists _, w'. split; [ exact Hrun | ]. cbn [body]. cbv zeta.
  assert (Hgiven : body (default {| credentials := None; headers := []; body := None |} options)
                   = match options with Some o => body o | None => None end)
    by (destruct options; reflexivity).
  rewrite Hgiven. split.
  - intros s b Hs Hne Hb. rewrite Hs, Hb.
    assert (Hn : Str.nonempty s = true) by (destruct s; [ contradiction | reflexivity ]).
    rewrite Hn. eexists. split; [ reflexivity | ].
    split; [ rewrite !keys_rewrite_callback; reflexivity | ].
    intros field u Hu. rewrite !get_rewrite_callback, Hu. cbn [existsb].
    destruct (String.eqb_spec field "errorCallbackURL") as [-> | _]; [ reflexivity | ].
    destruct (String.eqb_spec field "newUserCallbackURL") as [-> | _]; [ reflexivity | ].
    destruct (String.eqb_spec field "callbackURL") as [-> | _]; reflexivity.
  - intros Hno. unfold option_truthy in Hno.
    destruct (scheme opts) as [s | ]; [ rewrite Hno | ]; reflexivity.
Qed.

(** What store_cookies leaves: the merged jar, always, and the session
    signal when the session cookies changed. *)
Lemma store_cookies_run (opts : CapacitorClientOptions) (header : string) (w : World) :
  let key := normalizeCookieName (cookieName opts) in
  store_cookies opts header w
  = match getSetCookie (clock w) header (preferences w !! key) with
    | Normal s =>
        (Normal tt,
         if hasSessionCookieChanged (preferences w !! key) s
         then with_notified ("$sessionSignal" :: notified w)
                (with_preferences (<[key := s]> (preferences w)) w)
         else with_preferences (<[key := s]> (preferences w)) w)
    | Throw e => (Throw e, w)
    end.
Proof.
  intros key. unfold store_cookies, and_then, Preferences_get, now, lift, Preferences_set, notify.
  fold key. destruct (getSetCookie (clock w) header (preferences w !! key)) as [s | e];
    [ | reflexivity ].
  destruct (hasSessionCookieChanged (preferences w !! key) s); reflexivity.
Qed.

Lemma getCachedSession_reads (opts : CapacitorClientOptions) (w : World) (c : string)
  (data : json) :
  has_preferences w = true ->
  preferences w !! normalizeCookieName (localCacheName opts) = Some c ->
  JSON_parse c = Some data ->
  getCachedSession opts w = (Normal data, w).
Proof.
  intros Hprefs Hc Hparse.
  unfold getCachedSession, and_then, getPreferencesMod, Preferences_get, ret.
  rewrite Hprefs, Hc, (JSON_parse_nonempty _ _ Hparse), Hparse. reflexivity.
Qed.

Lemma no_redirect (opts : CapacitorClientOptions) (context : SuccessContext) :
  truthy (opt_prop (Some (response_data context)) "redirect") = false ->
  redirects opts context = false.
Proof. intros Hr. unfold redirects. rewrite Hr. reflexivity. Qed.

Lemma same_values_unchanged (p s : string) (P N : list (string * StoredCookie)) :
  holds p P -> holds s N -> values P = values N ->
  hasSessionCookieChanged (Some p) s = false.
Proof.
  intros (op & Hp & HP) (on & Hn & HN) Hv. unfold hasSessionCookieChanged.
  rewrite (JSON_parse_nonempty _ _ Hp), Hp, Hn. simpl.
  apply not_true_is_false. intros Hex. apply existsb_exists in Hex.
  destruct Hex as (k & _ & Hdiff). apply negb_true_iff in Hdiff.
  rewrite (value_record_view k op P HP), (value_record_view k on N HN) in Hdiff.
  assert (Heq : value_of k P = value_of k N) by (rewrite !value_of_values, Hv; reflexivity).
  apply strict_equal_strings in Heq. congruence.
Qed.

(** X14. Foreign cookies change nothing. A response whose `set-cookie` header
    holds no cookie of the auth system, and that has no `set-auth-token`,
    is no session response and asks for no redirect, leaves the store, the
    session signal and everything else as they were. *)
Theorem onSuccess_ignores_foreign_cookies (opts : CapacitorClientOptions)
  (context : SuccessContext) (w : World) (h : string) :
  native w = false \/ has_preferences w = true ->
  option_truthy (response_set_auth_token context) = false ->
  response_set_cookie context = Some h ->
  hasBetterAuthCookies h (thePrefixes opts) = false ->
  Str.includes (request_url context) "/get-session" = false ->
  truthy (opt_prop (Some (response_data context)) "redirect") = false ->
  onSuccess opts context w = (Normal tt, w).
Proof.
  intros Hw Htoken Hcookie Hforeign Hsession Hredirect.
  unfold onSuccess, and_then, isNativePlatform, getPreferencesMod.
  destruct (native w) eqn:Hn; [ | reflexivity ].
  destruct Hw as [Hw | Hw]; [ discriminate | ]. cbn [negb]. rewrite Hw.
  unfold on_auth_token, on_set_cookie, cache_session, oauth_redirect.
  rewrite Hcookie, Hforeign, Hsession, (no_redirect _ _ Hredirect), andb_false_r. simpl.
  destruct (response_set_auth_token context) as [a | ]; [ | reflexivity ].
  simpl in Htoken. rewrite Htoken. reflexivity.
Qed.

(** X15. Auth cookies are stored, the signal is kept for real changes. A
    response whose `set-cookie` header holds a cookie of the auth system
    replaces the stored jar by the merge of the header into it, and raises
    `$sessionSignal` only when hasSessionCookieChanged says so: not when
    the old and the new jar hold records with the same values, as when
    only expiries were refreshed. When the merge throws, the hook throws
    and nothing is stored. *)
Theorem onSuccess_stores_auth_cookies (opts : CapacitorClientOptions)
  (context : SuccessContext) (w : World) (h : string) :
  native w = true -> has_preferences w = true ->
  option_truthy (response_set_auth_token context) = false ->
  response_set_cookie context = Some h -> h <> "" ->
  hasBetterAuthCookies h (thePrefixes opts) = true ->
  Str.includes (request_url context) "/get-session" = false ->
  truthy (opt_prop (Some (response_data context)) "redirect") = false ->
  let key := normalizeCookieName (cookieName opts) in
  let prev := preferences w !! key in
  match getSetCookie (clock w) h prev with
  | Normal s =>
      exists w',
        onSuccess opts context w = (Normal tt, w') /\
        preferences w' = <[key := s]> (preferences w) /\
        notified w' = (if hasSessionCookieChanged prev s
                       then "$sessionSignal" :: notified w else notified w) /\
        (forall p P N, prev = Some p -> holds p P -> holds s N -> values P = values N ->
           notified w' = notified w)
  | Throw e => onSuccess opts context w = (Throw e, w)
  end.
Proof.
  intros Hnative Hprefs Htoken Hcookie Hh Hauth Hsession Hredirect key prev.
  assert (Hrun : onSuccess opts context w = 
                 match store_cookies opts h w with
                 | (Normal _, w') => (Normal tt, w')
                 | (Throw e, w') => (Throw e, w')
                 end).
  { unfold onSuccess, and_then, isNativePlatform, getPreferencesMod.
    rewrite Hnative. cbn [negb]. rewrite Hprefs.
    assert (Ha : on_auth_token opts context w = (Normal tt, w)).
    { unfold on_auth_token. destruct (response_set_auth_token context) as [a | ]; [ | reflexivity ].
      simpl in Htoken. rewrite Htoken. reflexivity. }
    rewrite Ha. unfold on_set_cookie. rewrite Hcookie, Hauth.
    destruct h as [ | a h ]; [ contradiction | ].
    change (Str.nonempty (String a h)) with true. cbn [andb].
    destruct (store_cookies opts _ w) as [[[] | e] w']; [ | reflexivity ].
    unfold cache_session, oauth_redirect.
    rewrite Hsession, (no_redirect _ _ Hredirect). reflexivity. }
  rewrite Hrun, store_cookies_run. fold key. fold prev.
  destruct (getSetCookie (clock w) h prev) as [s | e]; [ | reflexivity ].
  eexists. split; [ reflexivity | ].
  destruct (hasSessionCookieChanged prev s) eqn:Hchanged.
  - split; [ reflexivity | ]. split; [ reflexivity | ].
    intros p P N Hp HP HN Hv. rewrite Hp in Hchanged.
    rewrite (same_values_unchanged p s P N HP HN Hv) in Hchanged. discriminate.
  - split; [ reflexivity | ]. split; [ reflexivity | ]. intros. reflexivity.
Qed.

(** X17. After the sign-out request leaves, nothing is left to send. When `init`
    returns from a request to a sign-out URL, getCapacitorAuthToken finds
    no token under any cookie prefix and the `getCookie` action gives the
    empty header; getCachedSession gives the empty object, not `null`. *)
Theorem sign_out_leaves_no_credentials (opts : CapacitorClientOptions) (url : string)
  (options : option RequestInit) (w : World) :
  native w = true -> has_preferences w = true ->
  Str.includes url "/sign-out" = true ->
  exists options' w',
    init opts url options w = (Normal (url, Some options'), w') /\
    (forall cookiePrefix,
       getCapacitorAuthToken (storagePrefix opts) cookiePrefix w' = (Normal JNull, w')) /\
    actions_getCookie opts w' = (Normal "", w') /\
    getCachedSession opts w' = (Normal (JObj []), w').
Proof.
  intros Hnative Hprefs Hout. run_init Hnative Hprefs. rewrite Hout.
  match goal with
  | |- context [let '(h, b) := ?x in _] => destruct x as [h2 b2]
  end.
  eexists _, _. split; [ reflexivity | ].
  set (w' := with_preferences _ _).
  assert (Hjar : preferences w' !! normalizeCookieName (cookieName opts) = Some "{}").
  { unfold w'. simpl preferences. rewrite lookup_insert. case_decide; [ reflexivity | ].
    apply lookup_insert_eq. }
  assert (Hcache : preferences w' !! normalizeCookieName (localCacheName opts) = Some "{}").
  { unfold w'. simpl preferences. apply lookup_insert_eq. }
  assert (Hn' : native w' = true) by exact Hnative.
  assert (Hp' : has_preferences w' = true) by exact Hprefs.
  clearbody w'. split; [ | split ].
  - intros cookiePrefix.
    rewrite (getCapacitorAuthToken_reads _ cookiePrefix w' "{}" (JObj []) Hn' Hp' Hjar eq_refl).
    reflexivity.
  - unfold actions_getCookie, and_then, getPreferencesMod, Preferences_get, now, lift.
    rewrite Hp', Hjar. reflexivity.
  - apply (getCachedSession_reads opts w' "{}" (JObj []) Hp' Hcache eq_refl).
Qed.

(** X18. The cached session comes back. What `onSuccess` caches from a
    response to the session endpoint is what getCachedSession returns
    afterwards; with `disableCache` nothing is cached; and a cache that is
    absent, empty or does not parse gives `null`. *)
Theorem getCachedSession_returns_cached (opts : CapacitorClientOptions)
  (context : SuccessContext) (w : World) :
  has_preferences w = true ->
  let key := normalizeCookieName (localCacheName opts) in
  (Str.includes (request_url context) "/get-session" = true -> disableCache opts = false ->
   wf (response_data context) ->
   exists w',
     cache_session opts context w = (Normal tt, w') /\
     getCachedSession opts w' = (Normal (response_data context), w')) /\
  (disableCache opts = true -> cache_session opts context w = (Normal tt, w)) /\
  ((forall c, preferences w !! key = Some c -> c = "" \/ JSON_parse c = None) ->
   getCachedSession opts w = (Normal JNull, w)).
Proof.
  intros Hprefs key. split; [ | split ].
  - intros Hurl Hcache Hwf. unfold cache_session. rewrite Hurl, Hcache. simpl.
    eexists. split; [ reflexivity | ].
    apply (getCachedSession_reads opts _ (JSON_stringify (response_data context))).
    + exact Hprefs.
    + apply lookup_insert_eq.
    + apply JSON_parse_stringify, Hwf.
  - intros Hcache. unfold cache_session. rewrite Hcache, andb_false_r. reflexivity.
  - intros Hc. unfold getCachedSession, and_then, getPreferencesMod, Preferences_get, ret.
    rewrite Hprefs. fold key. destruct (preferences w !! key) as [c | ]; [ | reflexivity ].
    destruct (Hc c eq_refl) as [-> | Hparse]; [ reflexivity | ].
    rewrite Hparse. destruct (Str.nonempty c); reflexivity.
Qed.

(** X16. A token header is written under both names. When the parser reads the
    two cookies `onSuccess` writes for a `set-auth-token` header, the stored
    jar afterwards maps the plain and the secure-prefixed session-token
    name to the token, without expiry, and on a native platform
    getCapacitorAuthToken returns the token. *)
Theorem on_auth_token_dual_write (opts : CapacitorClientOptions)
  (context : SuccessContext) (w : World) (t : string) :
  let key := normalizeCookieName (cookieName opts) in
  let prefix := first_prefix (thePrefixes opts) in
  let base := prefix ++ ".session_token" in
  let secure := SECURE_COOKIE_PREFIX ++ base in
  let cookie := {| attr_value := t; attr_max_age := None; attr_expires := None |} in
  response_set_auth_token context = Some t -> t <> "" ->
  parseSetCookieHeader (base ++ "=" ++ t ++ ", " ++ secure ++ "=" ++ t)
  = [(base, cookie); (secure, cookie)] ->
  exists w' jar m,
    on_auth_token opts context w = (Normal tt, w') /\
    preferences w' !! key = Some jar /\ JSON_parse jar = Some (JObj m) /\
    get base m = Some (entry_json t JNull) /\
    get secure m = Some (entry_json t JNull) /\
    (native w = true -> has_preferences w = true -> prefix <> "" ->
     getCapacitorAuthToken (storagePrefix opts) (Some prefix) w' = (Normal (JStr t), w')).
Proof.
  intros key prefix base secure cookie Htoken Ht Hparse.
  set (header := base ++ "=" ++ t ++ ", " ++ secure ++ "=" ++ t) in *.
  set (prev := preferences w !! key).
  assert (Hin : forall name, name = base \/ name = secure ->
            get name (incoming header) = Some cookie /\ name <> "__proto__").
  { intros name Hname. split.
    - unfold incoming. rewrite Hparse. unfold Map_of, Map_set. simpl.
      destruct (String.eqb_spec secure base) as [E | Hne]; simpl.
      + destruct Hname as [-> | ->]; [ | rewrite E ]; rewrite String.eqb_refl; reflexivity.
      + destruct Hname as [-> | ->].
        * rewrite String.eqb_refl. reflexivity.
        * apply String.eqb_neq in Hne. rewrite Hne, String.eqb_refl. reflexivity.
    - apply String.eqb_neq. destruct Hname as [-> | ->]; [ apply session_token_name | ].
      unfold secure, base. rewrite <- append_assoc. apply session_token_name. }
  destruct (collect (clock w) (parseSetCookieHeader header)) as [T | e] eqn:HT.
  2:{ exfalso. revert HT. unfold collect. fold (incoming header).
      destruct (Hin base (or_introl eq_refl)) as [Hb _].
      intros HT.
      assert (Hall : forall l o, (forall k c, In (k, c) l -> c = cookie) ->
                exists T, fold_left (step (clock w)) l (Normal o) = Normal T).
      { induction l as [ | [k c] l IH ]; intros o Hl; [ eexists; reflexivity | ].
        change (fold_left (step (clock w)) ((k, c) :: l) (Normal o))
          with (fold_left (step (clock w)) l (step (clock w) (Normal o) (k, c))).
        rewrite (Hl k c (or_introl eq_refl)).
        apply IH. intros k' c' Hin'. apply (Hl k' c'). right. exact Hin'. }
      destruct (Hall (incoming header) []) as [T HT'].
      { intros k c Hkc. unfold incoming in Hkc. rewrite Hparse in Hkc.
        unfold Map_of, Map_set in Hkc. simpl in Hkc.
        destruct (String.eqb secure base); simpl in Hkc;
          intuition congruence. }
      congruence. }
  destruct (collect_spec _ _ _ HT) as [Hc Hs].
  destruct (merge_spec T prev Hc (Forall_shaped_wf _ Hs)) as [Hwf _].
  assert (HgetT : forall name, name = base \/ name = secure ->
            get name (merge T prev) = Some (entry_json t JNull)).
  { intros name Hname. destruct (Hin name Hname) as [Hg Hproto].
    apply get_merge; [ exact Hc | ].
    unfold collect in HT. fold (incoming header) in HT.
    rewrite (JarTheorems.fold_step_get _ _ _ _ HT (RoundTrip.NoDup_keys_Map_of _) name), Hg.
    apply String.eqb_neq in Hproto. rewrite Hproto. reflexivity. }
  assert (Hrun : on_auth_token opts context w
                 = (Normal tt,
                    if hasSessionCookieChanged prev (JSON_stringify (JObj (merge T prev)))
                    then with_notified ("$sessionSignal" :: notified w)
                           (with_preferences
                              (<[key := JSON_stringify (JObj (merge T prev))]> (preferences w)) w)
                    else with_preferences
                           (<[key := JSON_stringify (JObj (merge T prev))]> (preferences w)) w)).
  { unfold on_auth_token. rewrite Htoken.
    assert (Hne : Str.nonempty t = true) by (destruct t; [ contradiction | reflexivity ]).
    rewrite Hne.
    fold prefix. fold base. fold secure. fold header.
    rewrite store_cookies_run. fold key. fold prev.
    unfold getSetCookie. rewrite HT. reflexivity. }
  eexists _, (JSON_stringify (JObj (merge T prev))), (merge T prev).
  split; [ exact Hrun | ].
  assert (Hstored : forall b : bool,
            preferences
              (if b
               then with_notified ("$sessionSignal" :: notified w)
                      (with_preferences
                         (<[key := JSON_stringify (JObj (merge T prev))]> (preferences w)) w)
               else with_preferences
                      (<[key := JSON_stringify (JObj (merge T prev))]> (preferences w)) w)
            !! key = Some (JSON_stringify (JObj (merge T prev)))).
  { intros []; simpl; apply lookup_insert_eq. }
  split; [ apply Hstored | ].
  split; [ apply JSON_parse_stringify, Hwf | ].
  split; [ apply HgetT; left; reflexivity | ].
  split; [ apply HgetT; right; reflexivity | ].
  intros Hnative Hprefs Hprefix.
  assert (Hd : or_default (Some prefix) = prefix).
  { simpl. destruct prefix; [ contradiction | reflexivity ]. }
  rewrite (getCapacitorAuthToken_reads (storagePrefix opts) (Some prefix) _
             (JSON_stringify (JObj (merge T prev))) (JObj (merge T prev))).
  - rewrite Hd. unfold session_token, get_prop, bind. simpl own. fold base. fold secure.
    rewrite (HgetT secure (or_intror eq_refl)). simpl.
    rewrite !(HgetT secure (or_intror eq_refl)). simpl.
    assert (Hne : Str.nonempty t = true) by (destruct t; [ contradiction | reflexivity ]).
    rewrite Hne. reflexivity.
  - destruct (hasSessionCookieChanged _ _); exact Hnative.
  - destruct (hasSessionCookieChanged _ _); exact Hprefs.
  - apply Hstored.
  - apply JSON_parse_stringify, Hwf.
Qed.

(** X21. The redirect fails before it opens anything. When the response
    asks for a redirect that the hook acts on, but the Browser or the App
    plugin does not load, or the request has no body or one that is not
    JSON, the redirect block throws and opens no browser, registers no
    listener and leaves the store as it was; and when the hook does not act
    on the response, the block does nothing. *)
Theorem oauth_redirect_fails_closed (opts : CapacitorClientOptions)
  (context : SuccessContext) (w : World) :
  (redirects opts context = true ->
   (has_browser w && has_app w = false ->
    oauth_redirect opts context w = (Throw Rejected, w)) /\
   (has_browser w && has_app w = true ->
    request_body context = None \/
    (exists b, request_body context = Some b /\ JSON_parse b = None) ->
    oauth_redirect opts context w = (Throw SyntaxError, w))) /\
  (redirects opts context = false -> oauth_redirect opts context w = (Normal tt, w)).
Proof.
  unfold oauth_redirect, and_then, getBrowserAndAppMod, throw, ret. split.
  - intros Hr. rewrite Hr. split.
    + intros Hp. rewrite Hp. reflexivity.
    + intros Hp [Hb | (b & Hb & Hparse)]; rewrite Hp, Hb; [ reflexivity | ].
      rewrite Hparse. reflexivity.
  - intros Hr. rewrite Hr. reflexivity.
Qed.

End Hooks.

End HookTheorems.

(** * The observers report changes, once *)
Module ManagerTheorems.
Import Client Managers.

Lemma heard_app l (a b : list (listener * bool)) :
  heard l (a ++ b) = (heard l a ++ heard l b)%list.
Proof. unfold heard. rewrite List.filter_app, map_app. reflexivity. Qed.

Lemma heard_call_all_in l ls v :
  List.NoDup ls -> In l ls -> heard l (call_all ls v) = [v].
Proof.
  unfold heard, call_all. induction ls as [ | x ls IH ]; intros Hnd []; simpl.
  - subst x. rewrite Nat.eqb_refl. simpl. f_equal.
    inversion Hnd as [ | ? ? Hx _ ]; subst.
    clear IH Hnd. induction ls as [ | y ls IH ]; [ reflexivity | ].
    simpl. destruct (Nat.eqb_spec l y) as [-> | _].
    + exfalso. apply Hx. left. reflexivity.
    + apply IH. intros Hin. apply Hx. right. exact Hin.
  - inversion Hnd as [ | ? ? Hx Hls ]; subst.
    destruct (Nat.eqb_spec l x) as [-> | _]; [ contradiction | ].
    apply IH; assumption.
Qed.

Lemma NoDup_listeners_add l ls : List.NoDup ls -> List.NoDup (listeners_add l ls).
Proof.
  intros Hnd. unfold listeners_add. destruct (existsb (Nat.eqb l) ls) eqn:E; [ exact Hnd | ].
  apply (Permutation_NoDup (Permutation_cons_append ls l)).
  constructor; [ | exact Hnd ].
  intros Hin. apply not_true_iff_false in E. apply E.
  apply existsb_exists. exists l. split; [ exact Hin | apply Nat.eqb_refl ].
Qed.

Lemma In_listeners_add l l' ls : In l ls -> In l (listeners_add l' ls).
Proof.
  intros Hin. unfold listeners_add. destruct (existsb (Nat.eqb l') ls); [ exact Hin | ].
  apply in_or_app. left. exact Hin.
Qed.

Lemma NoDup_listeners_delete l ls : List.NoDup ls -> List.NoDup (listeners_delete l ls).
Proof. intros Hnd. unfold listeners_delete. apply List.NoDup_filter, Hnd. Qed.

Lemma In_listeners_delete l l' ls : l' <> l -> In l ls -> In l (listeners_delete l' ls).
Proof.
  intros Hne Hin. unfold listeners_delete. apply filter_In. split; [ exact Hin | ].
  apply negb_true_iff, Nat.eqb_neq, Hne.
Qed.

Lemma alternates_changes (b : bool) (vs : list bool) :
  alternates (b :: changes (Some b) vs).
Proof.
  revert b. induction vs as [ | v vs IH ]; intros b; [ exact I | ].
  simpl changes. destruct (Bool.eqb b v) eqn:E; [ apply IH | ].
  split; [ | apply IH ]. intros ->. rewrite Bool.eqb_reflx in E. discriminate.
Qed.

Lemma last_default (x : bool) (vs : list bool) (d d' : bool) :
  List.last (x :: vs) d = List.last (x :: vs) d'.
Proof.
  revert x. induction vs as [ | y vs IH ]; intros x; [ reflexivity | ].
  change (List.last (y :: vs) d = List.last (y :: vs) d'). apply IH.
Qed.

Lemma stays_tail l ls e es : stays l ls (e :: es) -> ~ In (Unsubscribe l) es.
Proof. intros [_ Hno] Hin. apply Hno. right. exact Hin. Qed.

(** X19. The online manager tells a listener of changes, and only of changes.
    A listener that stays subscribed is called once for every report that
    differs from the state the manager held, in order, whoever else
    subscribes or unsubscribes meanwhile; so no two calls in a row carry
    the same value, and the first call differs from the state at the
    start. The manager ends in the state last reported. *)
Theorem online_listener_hears_changes (l : listener) (m : CapacitorOnlineManager)
  (es : list event) :
  List.NoDup (online_listeners m) -> stays l (online_listeners m) es ->
  heard l (snd (online_run es m)) = changes (Some (isOnline m)) (reports es) /\
  alternates (isOnline m :: heard l (snd (online_run es m))) /\
  isOnline (fst (online_run es m)) = List.last (reports es) (isOnline m).
Proof.
  intros Hnd Hstays.
  assert (Hmain : heard l (snd (online_run es m)) = changes (Some (isOnline m)) (reports es) /\
                  isOnline (fst (online_run es m)) = List.last (reports es) (isOnline m)).
  { revert m Hnd Hstays. induction es as [ | e es IH ]; intros m Hnd Hstays.
    - split; reflexivity.
    - pose proof (stays_tail _ _ _ _ Hstays) as Htail. destruct Hstays as [Hin Hno].
      destruct e as [l' | l' | v]; simpl online_run; simpl reports.
      + apply (IH (online_subscribe l' m)).
        * apply NoDup_listeners_add, Hnd.
        * split; [ apply In_listeners_add, Hin | exact Htail ].
      + apply (IH (online_unsubscribe l' m)).
        * apply NoDup_listeners_delete, Hnd.
        * split; [ | exact Htail ]. apply In_listeners_delete; [ | exact Hin ].
          intros ->. apply Hno. left. reflexivity.
      + unfold setOnline. simpl changes. destruct (Bool.eqb (isOnline m) v) eqn:E.
        * apply Bool.eqb_prop in E. subst v.
          destruct (online_run es m) as [m'' calls'] eqn:Hrun.
          destruct (IH m Hnd (conj Hin Htail)) as [Hh Hs]. rewrite Hrun in Hh, Hs.
          simpl. split; [ exact Hh | ].
          simpl in Hs. rewrite Hs. destruct (reports es); reflexivity.
        * set (m' := {| online_listeners := online_listeners m; isOnline := v |}).
          destruct (online_run es m') as [m'' calls'] eqn:Hrun.
          destruct (IH m' Hnd (conj Hin Htail)) as [Hh Hs]. rewrite Hrun in Hh, Hs.
          simpl. rewrite heard_app, (heard_call_all_in _ _ _ Hnd Hin). simpl in Hh.
          split; [ simpl; rewrite Hh; reflexivity | ].
          simpl in Hs. rewrite Hs. destruct (reports es); [ reflexivity | apply last_default ]. }
  destruct Hmain as [Hh Hs]. split; [ exact Hh | split; [ | exact Hs ] ].
  rewrite Hh. apply alternates_changes.
Qed.

(** X20. The focus manager does the same, from a state that starts undefined:
    a listener that stays subscribed hears the first report whatever it
    is, and after it every report that differs from the one before. *)
Theorem focus_listener_hears_changes (l : listener) (m : CapacitorFocusManager)
  (es : list event) :
  List.NoDup (focus_listeners m) -> stays l (focus_listeners m) es ->
  heard l (snd (focus_run es m)) = changes (isFocused m) (reports es) /\
  alternates (heard l (snd (focus_run es m))) /\
  (forall v vs, isFocused m = None -> reports es = v :: vs ->
     heard l (snd (focus_run es m)) = v :: changes (Some v) vs).
Proof.
  intros Hnd Hstays.
  assert (Hmain : heard l (snd (focus_run es m)) = changes (isFocused m) (reports es)).
  { revert m Hnd Hstays. induction es as [ | e es IH ]; intros m Hnd Hstays.
    - reflexivity.
    - pose proof (stays_tail _ _ _ _ Hstays) as Htail. destruct Hstays as [Hin Hno].
      destruct e as [l' | l' | v]; simpl focus_run; simpl reports.
      + apply (IH (focus_subscribe l' m)).
        * apply NoDup_listeners_add, Hnd.
        * split; [ apply In_listeners_add, Hin | exact Htail ].
      + apply (IH (focus_unsubscribe l' m)).
        * apply NoDup_listeners_delete, Hnd.
        * split; [ | exact Htail ]. apply In_listeners_delete; [ | exact Hin ].
          intros ->. apply Hno. left. reflexivity.
      + unfold setFocused. simpl changes. destruct (is_state (isFocused m) v) eqn:E.
        * destruct (focus_run es m) as [m'' calls'] eqn:Hrun.
          pose proof (IH m Hnd (conj Hin Htail)) as Hh. rewrite Hrun in Hh. exact Hh.
        * set (m' := {| focus_listeners := focus_listeners m; isFocused := Some v |}).
          destruct (focus_run es m') as [m'' calls'] eqn:Hrun.
          pose proof (IH m' Hnd (conj Hin Htail)) as Hh. rewrite Hrun in Hh.
          simpl. rewrite heard_app, (heard_call_all_in _ _ _ Hnd Hin). simpl in Hh.
          simpl. rewrite Hh. reflexivity. }
  split; [ exact Hmain | split ].
  - rewrite Hmain. destruct (isFocused m) as [b | ].
    + pose proof (alternates_changes b (reports es)) as Ha.
      destruct (changes (Some b) (reports es)); [ exact I | apply Ha ].
    + destruct (reports es) as [ | v vs ]; [ exact I | ]. simpl. apply alternates_changes.
  - intros v vs Hnone Hr. rewrite Hmain, Hnone, Hr. reflexivity.
Qed.

End ManagerTheorems.

(** * The further theorems on the sample inputs *)
Module MoreExamples.
Local Open Scope string_scope.
Import Json Js Spec Str Client Actions Managers Samples.
Import JarTheorems TokenTheorems HookTheorems ManagerTheorems RoundTrip.

Lemma getSetCookie_overlay_witness :
  exists m,
    JSON_parse (q "{'c':{'value':'3','expires':null},'a':{'value':'1','expires':null}}")
    = Some (JObj m) /\
    (forall name c, get name (incoming "a=1") = Some c -> name <> "__proto__" ->
       exists e, stored_entry 0 c = Normal e /\ get name m = Some e) /\
    (forall name, get name (incoming "a=1") = None \/ name = "__proto__" ->
       get name m = get name [("c", entry_json "3" JNull); ("a", entry_json "0" JNull)]).
Proof.
  apply (getSetCookie_overlay 0 "a=1"
           (q "{'c':{'value':'3','expires':null},'a':{'value':'0','expires':null}}")).
  - vm_compute. reflexivity.
  - vm_compute. reflexivity.
Defined.

Lemma getSetCookie_empty_prev_witness :
  getSetCookie 0 "a=1" (Some "not json") = getSetCookie 0 "a=1" None.
Proof.
  apply (getSetCookie_empty_prev 0 "a=1" "not json").
  right. left. vm_compute. reflexivity.
Defined.

Lemma stored_entry_max_age_witness :
  ((Z.abs (1000 + 60 * 1000) <= JsDate.max_time)%Z ->
   exists iso,
     stored_entry 1000
       {| attr_value := "1"; attr_max_age := Some (Num 60); attr_expires := Some None |}
     = Normal (entry_json "1" (JStr iso)) /\
     Date_parse iso = Some (1000 + 60 * 1000)%Z) /\
  ((JsDate.max_time < Z.abs (1000 + 60 * 1000))%Z ->
   stored_entry 1000
     {| attr_value := "1"; attr_max_age := Some (Num 60); attr_expires := Some None |}
   = Throw RangeError).
Proof.
  apply (stored_entry_max_age 1000 60
           {| attr_value := "1"; attr_max_age := Some (Num 60); attr_expires := Some None |}).
  - reflexivity.
  - discriminate.
Defined.

Lemma getCookie_getSetCookie_round_trip_witness :
  exists s pairs,
    getSetCookie 1000 "a=1; Max-Age=60, b=2" (Some "{}") = Normal s /\
    getCookie 2000 s = Normal (Str.join "; " pairs) /\
    Permutation pairs
      (map (fun kc => fst kc ++ "=" ++ attr_value (snd kc)) (incoming "a=1; Max-Age=60, b=2")).
Proof.
  apply (getCookie_getSetCookie_round_trip 1000 2000 "a=1; Max-Age=60, b=2").
  intros name c Hin. vm_compute in Hin.
  destruct Hin as [[= <- <-] | [[= <- <-] | []]].
  - split; [ discriminate | ]. right. exists 61000%Z. split; [ reflexivity | vm_compute; discriminate ].
  - split; [ discriminate | ]. left. reflexivity.
Defined.

Lemma setCapacitorAuthToken_then_get_witness :
  exists w',
    setCapacitorAuthToken "tok" (Some (ExpiryText "2030-01-01T00:00:00.000Z")) None None
      (phone ∅) = (Normal true, w') /\
    getCapacitorAuthToken None None w' = (Normal (JStr "tok"), w').
Proof.
  apply (setCapacitorAuthToken_then_get "tok" (Some (ExpiryText "2030-01-01T00:00:00.000Z"))
           None None (phone ∅) "2030-01-01T00:00:00.000Z" []).
  - reflexivity.
  - reflexivity.
  - reflexivity.
  - reflexivity.
  - discriminate.
  - discriminate.
  - discriminate.
Defined.

Lemma setCapacitorAuthToken_dual_write_witness :
  exists w' jar m,
    setCapacitorAuthToken "tok" None None None
      (phone {[ "better-auth_cookie" := q "{'other':{'value':'x','expires':null}}" ]})
    = (Normal true, w') /\
    preferences w' !! "better-auth_cookie" = Some jar /\ JSON_parse jar = Some (JObj m) /\
    get "better-auth.session_token" m
    = Some (entry_json "tok" (JStr "1970-01-08T00:00:01.000Z")) /\
    get "__Secure-better-auth.session_token" m
    = Some (entry_json "tok" (JStr "1970-01-08T00:00:01.000Z")) /\
    (forall name, name <> "better-auth.session_token" ->
       name <> "__Secure-better-auth.session_token" ->
       get name m = get name [("other", entry_json "x" JNull)]) /\
    (forall k, k <> "better-auth_cookie" ->
       preferences w' !! k
       = preferences
           (phone {[ "better-auth_cookie" := q "{'other':{'value':'x','expires':null}}" ]})
         !! k).
Proof.
  refine (setCapacitorAuthToken_dual_write "tok" None None None
            (phone {[ "better-auth_cookie" := q "{'other':{'value':'x','expires':null}}" ]})
            "1970-01-08T00:00:01.000Z" [("other", entry_json "x" JNull)] _ _ _ _).
  - reflexivity.
  - reflexivity.
  - vm_compute. reflexivity.
  - vm_compute. reflexivity.
Defined.

Lemma setCapacitorAuthToken_stores_nothing_witness :
  setCapacitorAuthToken "tok" None None None
    (phone {[ "better-auth_cookie" := "null" ]})
  = (Normal false, phone {[ "better-auth_cookie" := "null" ]}).
Proof.
  apply (proj1 (setCapacitorAuthToken_stores_nothing "tok" None None None
                  (phone {[ "better-auth_cookie" := "null" ]})
                  "1970-01-08T00:00:01.000Z" ltac:(vm_compute; reflexivity))).
  right. right. split; intros x; vm_compute; discriminate.
Defined.

Lemma init_attaches_stored_token_witness :
  exists options' w' t,
    init myapp "https://api.example.com/api/auth/get-session" None
      (phone {[ "better-auth_cookie" := two_tokens ]})
    = (Normal ("https://api.example.com/api/auth/get-session", Some options'), w') /\
    getCapacitorAuthToken None (Some "better-auth")
      (phone {[ "better-auth_cookie" := two_tokens ]})
    = (Normal t, phone {[ "better-auth_cookie" := two_tokens ]}) /\
    credentials options' = Some "omit" /\
    get "Authorization" (headers options')
    = if truthy (Some t) then Some ("Bearer " ++ to_string (Some t)) else None.
Proof.
  apply (init_attaches_stored_token myapp "https://api.example.com/api/auth/get-session" None
           (phone {[ "better-auth_cookie" := two_tokens ]})).
  - reflexivity.
  - reflexivity.
  - discriminate.
Defined.

Lemma init_capacitor_headers_witness :
  exists options' w',
    init myapp "https://api.example.com/api/auth/sign-in/social" (Some sign_in_request)
      (phone ∅)
    = (Normal ("https://api.example.com/api/auth/sign-in/social", Some options'), w') /\
    get "capacitor-origin" (headers options') = Some "myapp://" /\
    get "x-skip-oauth-proxy" (headers options') = Some "true" /\
    get "content-type" (headers options') = Some "application/json".
Proof.
  destruct (init_capacitor_headers myapp "https://api.example.com/api/auth/sign-in/social"
              (Some sign_in_request) (phone ∅) eq_refl eq_refl)
    as (options' & w' & Hrun & Hscheme & _ & Hother).
  exists options', w'. split; [ exact Hrun | ].
  destruct (Hscheme "myapp" eq_refl ltac:(discriminate)) as [Ho Hx].
  split; [ exact Ho | split; [ exact Hx | ] ].
  apply (Hother "content-type"); discriminate.
Defined.

Lemma init_rewrites_callbacks_witness :
  exists options' w' b',
    init myapp "https://api.example.com/api/auth/sign-in/social" (Some sign_in_request)
      (phone ∅)
    = (Normal ("https://api.example.com/api/auth/sign-in/social", Some options'), w') /\
    body options' = Some b' /\
    get "callbackURL" b' = Some "myapp://dashboard" /\
    get "errorCallbackURL" b' = Some "https://example.com/error" /\
    get "provider" b' = Some "github".
Proof.
  destruct (init_rewrites_callbacks myapp "https://api.example.com/api/auth/sign-in/social"
              (Some sign_in_request) (phone ∅) eq_refl eq_refl)
    as (options' & w' & Hrun & Hscheme & _).
  destruct (Hscheme "myapp" _ eq_refl ltac:(discriminate) eq_refl) as (b' & Hb & _ & Hfields).
  exists options', w', b'. split; [ exact Hrun | split; [ exact Hb | ] ].
  split; [ apply (Hfields "callbackURL" "/dashboard" eq_refl) | ].
  split; [ apply (Hfields "errorCallbackURL" "https://example.com/error" eq_refl) | ].
  apply (Hfields "provider" "github" eq_refl).
Defined.

Lemma onSuccess_ignores_foreign_cookies_witness :
  onSuccess myapp (cookie_response "https://api.example.com/api/auth/ok" "__cf_bm=x")
    (phone {[ "better-auth_cookie" := two_tokens ]})
  = (Normal tt, phone {[ "better-auth_cookie" := two_tokens ]}).
Proof.
  apply (onSuccess_ignores_foreign_cookies myapp
           (cookie_response "https://api.example.com/api/auth/ok" "__cf_bm=x")
           (phone {[ "better-auth_cookie" := two_tokens ]}) "__cf_bm=x").
  - right. reflexivity.
  - reflexivity.
  - reflexivity.
  - vm_compute. reflexivity.
  - vm_compute. reflexivity.
  - reflexivity.
Defined.

Lemma onSuccess_stores_auth_cookies_witness :
  match getSetCookie 1000 "better-auth.session_token=plain; Max-Age=60"
          (preferences (phone {[ "better-auth_cookie" := two_tokens ]})
           !! normalizeCookieName (cookieName myapp)) with
  | Normal s =>
      exists w',
        onSuccess myapp
          (cookie_response "https://api.example.com/api/auth/ok"
             "better-auth.session_token=plain; Max-Age=60")
          (phone {[ "better-auth_cookie" := two_tokens ]}) = (Normal tt, w') /\
        preferences w'
        = <[normalizeCookieName (cookieName myapp) := s]>
            (preferences (phone {[ "better-auth_cookie" := two_tokens ]})) /\
        notified w'
        = (if hasSessionCookieChanged
                (preferences (phone {[ "better-auth_cookie" := two_tokens ]})
                 !! normalizeCookieName (cookieName myapp)) s
           then ["$sessionSignal"] else []) /\
        (forall p P N,
           preferences (phone {[ "better-auth_cookie" := two_tokens ]})
           !! normalizeCookieName (cookieName myapp) = Some p ->
           holds p P -> holds s N -> values P = values N -> notified w' = [])
  | Throw e =>
      onSuccess myapp
        (cookie_response "https://api.example.com/api/auth/ok"
           "better-auth.session_token=plain; Max-Age=60")
        (phone {[ "better-auth_cookie" := two_tokens ]})
      = (Throw e, phone {[ "better-auth_cookie" := two_tokens ]})
  end.
Proof.
  apply (onSuccess_stores_auth_cookies myapp
           (cookie_response "https://api.example.com/api/auth/ok"
              "better-auth.session_token=plain; Max-Age=60")
           (phone {[ "better-auth_cookie" := two_tokens ]})
           "better-auth.session_token=plain; Max-Age=60").
  - reflexivity.
  - reflexivity.
  - reflexivity.
  - reflexivity.
  - discriminate.
  - vm_compute. reflexivity.
  - vm_compute. reflexivity.
  - reflexivity.
Defined.

Lemma sign_out_leaves_no_credentials_witness :
  exists options' w',
    init myapp "https://api.example.com/api/auth/sign-out" None
      (phone {[ "better-auth_cookie" := two_tokens ]})
    = (Normal ("https://api.example.com/api/auth/sign-out", Some options'), w') /\
    (forall cookiePrefix, getCapacitorAuthToken None cookiePrefix w' = (Normal JNull, w')) /\
    actions_getCookie myapp w' = (Normal "", w') /\
    getCachedSession myapp w' = (Normal (JObj []), w').
Proof.
  apply (sign_out_leaves_no_credentials myapp "https://api.example.com/api/auth/sign-out" None
           (phone {[ "better-auth_cookie" := two_tokens ]})).
  - reflexivity.
  - reflexivity.
  - vm_compute. reflexivity.
Defined.

Lemma getCachedSession_returns_cached_witness :
  exists w',
    cache_session myapp session_response (phone ∅) = (Normal tt, w') /\
    getCachedSession myapp w' = (Normal (response_data session_response), w').
Proof.
  apply (proj1 (getCachedSession_returns_cached myapp session_response (phone ∅) eq_refl)).
  - vm_compute. reflexivity.
  - reflexivity.
  - repeat constructor; simpl; try discriminate; auto.
Defined.

Lemma on_auth_token_dual_write_witness :
  exists w' jar m,
    on_auth_token myapp (token_response "tok") (phone ∅) = (Normal tt, w') /\
    preferences w' !! "better-auth_cookie" = Some jar /\ JSON_parse jar = Some (JObj m) /\
    get "better-auth.session_token" m = Some (entry_json "tok" JNull) /\
    get "__Secure-better-auth.session_token" m = Some (entry_json "tok" JNull) /\
    getCapacitorAuthToken None (Some "better-auth") w' = (Normal (JStr "tok"), w').
Proof.
  destruct (on_auth_token_dual_write myapp (token_response "tok") (phone ∅) "tok"
              eq_refl ltac:(discriminate) ltac:(vm_compute; reflexivity))
    as (w' & jar & m & Hrun & Hjar & Hparse & Hbase & Hsecure & Hget).
  exists w', jar, m. repeat (split; [ assumption | ]).
  apply Hget; [ reflexivity | reflexivity | discriminate ].
Defined.

Lemma online_listener_hears_changes_witness :
  heard 1 (snd (online_run [Report true; Report false; Report false; Subscribe 2; Report true]
                  (online_subscribe 1 new_online)))
  = [false; true].
Proof.
  refine (eq_trans (proj1 (online_listener_hears_changes 1 (online_subscribe 1 new_online)
                             [Report true; Report false; Report false; Subscribe 2; Report true]
                             _ _)) eq_refl).
  - repeat constructor. simpl. tauto.
  - split; [ left; reflexivity | ].
    simpl. intros [E | [E | [E | [E | [E | []]]]]]; discriminate.
Defined.

Lemma focus_listener_hears_changes_witness :
  heard 1 (snd (focus_run [Report true; Report true; Unsubscribe 2; Report false]
                  (focus_subscribe 2 (focus_subscribe 1 new_focus))))
  = [true; false].
Proof.
  refine (eq_trans (proj1 (focus_listener_hears_changes 1
                             (focus_subscribe 2 (focus_subscribe 1 new_focus))
                             [Report true; Report true; Unsubscribe 2; Report false]
                             _ _)) eq_refl).
  - repeat constructor; simpl; intuition discriminate.
  - split; [ left; reflexivity | ].
    simpl. intros [E | [E | [E | [E | []]]]]; discriminate.
Defined.

End MoreExamples.
